(** * mathcount_trainer: the wrong-answer logger, embedded in Rocq

    A shallow embedding of the extension's content script (page observation,
    pending-submission tracking, debounced scan, dedup gate) and of the
    background service worker's offline queue, with the properties of the
    specification proved about them.

    Conventions.
    - A JavaScript string is the list of its UTF-16 code units ([jsstring]);
      [length] and [take] are then JS [.length] and [.slice(0, n)].
    - [undefined] and [null] are [None]; [a ?? b] is [nullish a b].
    - The DOM is the environment: a document is what [querySelectorAll]
      answers on it; the content of an iframe is reached through
      [contentDocument], which may throw.
    - Timer handles are [positive]: [setTimeout] returns an integer greater
      than zero, so a stored handle is always truthy. *)

From Stdlib Require Import ZArith NArith List Lia Ascii String Bool.
From stdpp Require Import base option list gmap.

Local Open Scope N_scope.

(** ** JavaScript strings *)

Module Js.

Definition jsstring : Type := list N.

(** An ASCII literal as a list of code units. *)
Definition lit (s : string) : jsstring :=
  List.map N_of_ascii (list_ascii_of_string s).

Definition jsstring_eqb (a b : jsstring) : bool :=
  bool_decide (a = b).

(** ECMAScript WhiteSpace and LineTerminator code points: what the regular
    expression class [\s] matches and what [String.prototype.trim] strips. *)
Definition isWhiteSpace (c : N) : bool :=
  ((9 <=? c) && (c <=? 13))
  || (c =? 32) || (c =? 160) || (c =? 5760)
  || ((8192 <=? c) && (c <=? 8202))
  || (c =? 8232) || (c =? 8233) || (c =? 8239) || (c =? 8287)
  || (c =? 12288) || (c =? 65279).

Definition SPACE : N := 32.

Fixpoint trimStart (s : jsstring) : jsstring :=
  match s with
  | [] => []
  | c :: r => if isWhiteSpace c then trimStart r else s
  end.

Definition trimEnd (s : jsstring) : jsstring :=
  rev (trimStart (rev s)).

(** [s.trim()] *)
Definition trim (s : jsstring) : jsstring :=
  trimEnd (trimStart s).

(** [s.replace(/\s+/g, ' ')]: every maximal run of whitespace becomes one
    space.  [in_run] tells that the previous code unit belonged to the run
    being replaced. *)
Fixpoint replaceRuns (in_run : bool) (s : jsstring) : jsstring :=
  match s with
  | [] => []
  | c :: r =>
      if isWhiteSpace c
      then (if in_run then replaceRuns true r else SPACE :: replaceRuns true r)
      else c :: replaceRuns false r
  end.

Definition replaceWhitespaceRuns (s : jsstring) : jsstring :=
  replaceRuns false s.

(** Truthiness of a string: non-empty. *)
Definition truthy (s : jsstring) : bool :=
  match s with [] => false | _ => true end.

(** [a ?? b] *)
Definition nullish {A : Type} (a b : option A) : option A :=
  match a with
  | Some v => Some v
  | None => b
  end.

(** *** JSON.stringify on an object of optional string properties *)

Definition hexDigit (d : N) : N :=
  if d <? 10 then 48 + d else 87 + d.

(** [\uXXXX] with lower-case hexadecimal digits. *)
Definition unicodeEscape (c : N) : jsstring :=
  [92; 117; hexDigit ((c / 4096) mod 16); hexDigit ((c / 256) mod 16);
   hexDigit ((c / 16) mod 16); hexDigit (c mod 16)].

Definition isHighSurrogate (c : N) : bool := (55296 <=? c) && (c <=? 56319).
Definition isLowSurrogate (c : N) : bool := (56320 <=? c) && (c <=? 57343).

(** The escape of one code point that is not part of a surrogate pair. *)
Definition quoteUnit (c : N) : jsstring :=
  if c =? 8 then [92; 98]
  else if c =? 9 then [92; 116]
  else if c =? 10 then [92; 110]
  else if c =? 12 then [92; 102]
  else if c =? 13 then [92; 114]
  else if c =? 34 then [92; 34]
  else if c =? 92 then [92; 92]
  else if (c <? 32) || isHighSurrogate c || isLowSurrogate c
       then unicodeEscape c
       else [c].

Fixpoint quoteBody (s : jsstring) : jsstring :=
  match s with
  | [] => []
  | c :: r =>
      if isHighSurrogate c
      then match r with
           | d :: r' =>
               if isLowSurrogate d
               then c :: d :: quoteBody r'
               else unicodeEscape c ++ quoteBody r
           | [] => unicodeEscape c
           end
      else quoteUnit c ++ quoteBody r
  end.

(** QuoteJSONString *)
Definition quoteJSONString (s : jsstring) : jsstring :=
  34 :: quoteBody s ++ [34].

(** The serialized properties, in order; a property whose value is
    [undefined] is left out. *)
Fixpoint serializeProperties (props : list (jsstring * option jsstring))
  : list jsstring :=
  match props with
  | [] => []
  | (k, Some v) :: r =>
      (quoteJSONString k ++ 58 :: quoteJSONString v) :: serializeProperties r
  | (_, None) :: r => serializeProperties r
  end.

Fixpoint joinComma (parts : list jsstring) : jsstring :=
  match parts with
  | [] => []
  | [p] => p
  | p :: r => p ++ 44 :: joinComma r
  end.

Definition stringifyObject (props : list (jsstring * option jsstring))
  : jsstring :=
  123 :: joinComma (serializeProperties props) ++ [125].

End Js.

Import Js.

(** ** The page: documents, elements, frames *)

Module Dom.

(** A parsed URL: [href], and the name-value list that
    [new URL(href).searchParams] holds. *)
Record Location : Type := mkLocation {
  href : jsstring;
  searchParams : list (jsstring * jsstring)
}.

(** [URLSearchParams.get]: the value of the first pair with that name. *)
Fixpoint searchParamsGet (params : list (jsstring * jsstring)) (name : jsstring)
  : option jsstring :=
  match params with
  | [] => None
  | (k, v) :: r => if jsstring_eqb k name then Some v else searchParamsGet r name
  end.

Inductive Element : Type :=
| mkElement (text : jsstring) (val : option jsstring)
            (problemIdAttr : option jsstring) (frame : FrameAccess)
with FrameAccess : Type :=
| AccessThrows
| NullDocument
| FrameDocument (d : Document)
with Document : Type :=
| mkDocument (id : nat) (loc : Location) (title : jsstring)
             (query : jsstring -> list Element).

(** [element.textContent] *)
Definition textContent (e : Element) : jsstring :=
  match e with mkElement t _ _ _ => t end.

(** [input.value] *)
Definition value (e : Element) : option jsstring :=
  match e with mkElement _ v _ _ => v end.

(** [element.dataset.problemId] *)
Definition dataset_problemId (e : Element) : option jsstring :=
  match e with mkElement _ _ p _ => p end.

(** What reading [frame.contentDocument] does. *)
Definition contentDocument (e : Element) : FrameAccess :=
  match e with mkElement _ _ _ f => f end.

(** Object identity of a document. *)
Definition doc_id (d : Document) : nat :=
  match d with mkDocument i _ _ _ => i end.

(** The document's own URL. *)
Definition doc_location (d : Document) : Location :=
  match d with mkDocument _ l _ _ => l end.

Definition doc_title (d : Document) : jsstring :=
  match d with mkDocument _ _ t _ => t end.

(** [doc.querySelectorAll(selector)], in document order. *)
Definition querySelectorAll (d : Document) (selector : jsstring) : list Element :=
  match d with mkDocument _ _ _ q => q selector end.

(** [doc.querySelector(selector)]: the first match. *)
Definition querySelector (d : Document) (selector : jsstring) : option Element :=
  head (querySelectorAll d selector).

(** What a callback of the content script sees when it runs: the
    top-level [document], [window.location] and the text that
    [new Date().toISOString()] returns. *)
Record Page : Type := mkPage {
  document : Document;
  location : Location;
  isoNow : jsstring
}.

End Dom.

Import Dom.

Local Close Scope N_scope.
Local Open Scope Z_scope.

(** ** Messages between the content script and the service worker *)

Module Messages.

Record ProblemLogPayload : Type := mkPayload {
  url : jsstring;
  pageTitle : option jsstring;
  problemText : option jsstring;
  problemId : option jsstring;
  userAnswer : option jsstring;
  correctAnswer : option jsstring;
  resultText : option jsstring;
  capturedAt : jsstring
}.

End Messages.

Import Messages.

(** ** The content script *)

Module Content.

Definition PROBLEM_TEXT_SELECTOR : jsstring := lit ".mc-prob-text".
Definition RESULT_ICON_SELECTOR : jsstring := lit "span.aops-font".
Definition IFRAME_SELECTOR : jsstring := lit "iframe".
Definition PROBLEM_ID_SELECTOR : jsstring := lit "[data-problem-id]".
(** [input[type="text"], input[type="number"], textarea] *)
Definition ANSWER_INPUT_SELECTOR : jsstring :=
  lit "input[type=" ++ [34%N] ++ lit "text" ++ [34%N] ++ lit "], input[type="
    ++ [34%N] ++ lit "number" ++ [34%N] ++ lit "], textarea".

Definition MAX_TEXT_LENGTH : nat := 2000.
Definition RESULT_TIMEOUT_MS : Z := 12000.
Definition RESULT_SCAN_DELAY_MS : Z := 250.
Definition MAX_RECENT_LOGS : nat := 50.

Inductive ResultState : Type := correct | wrong.

Record PendingSubmission : Type := mkPending {
  pending_problemText : option jsstring;
  pending_problemId : option jsstring;
  pending_userAnswer : option jsstring;
  submittedAt : jsstring
}.

(** *** Extractors *)

Definition normalizeText (text : jsstring) : jsstring :=
  trim (replaceWhitespaceRuns text).

Definition safeAccessFrameDocument (frame : Element) : option Document :=
  match contentDocument frame with
  | FrameDocument d => Some d
  | NullDocument => None
  | AccessThrows => None
  end.

(** [Set<Document>.has] and [.add]: membership is object identity, order is
    insertion order. *)
Definition docSetHas (docs : list Document) (d : Document) : bool :=
  existsb (fun x => Nat.eqb (doc_id x) (doc_id d)) docs.

Definition docSetAdd (docs : list Document) (d : Document) : list Document :=
  if docSetHas docs d then docs else docs ++ [d].

(** The body of the loop over the frames. *)
Definition addFrame (docs : list Document) (frame : Element) : list Document :=
  match safeAccessFrameDocument frame with
  | Some frameDoc => docSetAdd docs frameDoc
  | None => docs
  end.

Definition getAllCandidateDocuments (page : Page) : list Document :=
  let frames := querySelectorAll (document page) IFRAME_SELECTOR in
  fold_left addFrame frames [document page].

Fixpoint firstFrameWithProblem (frames : list Element) : option Document :=
  match frames with
  | [] => None
  | frame :: r =>
      match safeAccessFrameDocument frame with
      | Some frameDoc =>
          match querySelector frameDoc PROBLEM_TEXT_SELECTOR with
          | Some _ => Some frameDoc
          | None => firstFrameWithProblem r
          end
      | None => firstFrameWithProblem r
      end
  end.

Definition getProblemDocument (page : Page) : option Document :=
  match querySelector (document page) PROBLEM_TEXT_SELECTOR with
  | Some _ => Some (document page)
  | None =>
      firstFrameWithProblem (querySelectorAll (document page) IFRAME_SELECTOR)
  end.

Definition getProblemText (doc : option Document) : option jsstring :=
  match doc with
  | None => None
  | Some d =>
      let element := querySelector d PROBLEM_TEXT_SELECTOR in
      let text :=
        match element with
        | Some e =>
            if truthy (textContent e) then normalizeText (textContent e) else []
        | None => []
        end in
      if (0 <? length text)%nat then Some (take MAX_TEXT_LENGTH text) else None
  end.

Definition getProblemId (page : Page) (doc : option Document) : option jsstring :=
  let params := searchParams (location page) in
  nullish (searchParamsGet params (lit "problem_id"))
    (nullish (searchParamsGet params (lit "problem"))
       (match doc with
        | Some d =>
            match querySelector d PROBLEM_ID_SELECTOR with
            | Some e => dataset_problemId e
            | None => None
            end
        | None => None
        end)).

Fixpoint firstAnswer (inputs : list Element) : option jsstring :=
  match inputs with
  | [] => None
  | input :: r =>
      match value input with
      | Some v =>
          let v' := trim v in
          if truthy v' then Some v' else firstAnswer r
      | None => firstAnswer r
      end
  end.

Definition getUserAnswer (doc : option Document) : option jsstring :=
  match doc with
  | None => None
  | Some d => firstAnswer (querySelectorAll d ANSWER_INPUT_SELECTOR)
  end.

(** *** Result detector *)

Definition WRONG_MARKER : jsstring := lit "J".
Definition CORRECT_MARKER : jsstring := lit "q".

Fixpoint scanSpans (spans : list Element) : option ResultState :=
  match spans with
  | [] => None
  | span :: r =>
      let v := trim (textContent span) in
      if jsstring_eqb v WRONG_MARKER then Some wrong
      else if jsstring_eqb v CORRECT_MARKER then Some correct
      else scanSpans r
  end.

Fixpoint scanDocuments (docs : list Document) : option ResultState :=
  match docs with
  | [] => None
  | doc :: r =>
      match scanSpans (querySelectorAll doc RESULT_ICON_SELECTOR) with
      | Some result => Some result
      | None => scanDocuments r
      end
  end.

Definition getResultState (page : Page) : option ResultState :=
  scanDocuments (getAllCandidateDocuments page).

Definition buildPayload (page : Page) (pending : PendingSubmission)
  : ProblemLogPayload :=
  let problemDoc := getProblemDocument page in
  {| url := href (location page);
     pageTitle := Some (doc_title (document page));
     problemText :=
       nullish (pending_problemText pending) (getProblemText problemDoc);
     problemId :=
       nullish (pending_problemId pending) (getProblemId page problemDoc);
     userAnswer :=
       nullish (pending_userAnswer pending) (getUserAnswer problemDoc);
     correctAnswer := None;
     resultText := Some (lit "incorrect (J)");
     capturedAt := submittedAt pending |}.

(** *** Module state, timers and the journal of calls *)

Inductive Callback : Type := ScanCallback | ExpiryCallback.

(** What the script did, in order: timer calls, payloads built, verdicts of
    the dedup gate and messages handed to [chrome.runtime.sendMessage]. *)
Inductive Action : Type :=
| SetTimeout (handle : positive) (cb : Callback) (delay : Z)
| ClearTimeout (handle : positive)
| BuildPayload (payload : ProblemLogPayload)
| Gate (payload : ProblemLogPayload) (verdict : bool)
| SendMessage (payload : ProblemLogPayload).

Record State : Type := mkState {
  pendingSubmission : option PendingSubmission;
  scanTimeout : option positive;
  pendingTimeout : option positive;
  (** [Set<string>], oldest first *)
  recentSignatures : list jsstring;
  (** the browser: clock in milliseconds, outstanding timers with their
      due time, next handle to hand out *)
  clock : Z;
  timers : gmap positive (Z * Callback);
  nextHandle : positive;
  journal : list Action
}.

Definition initial : State :=
  {| pendingSubmission := None; scanTimeout := None; pendingTimeout := None;
     recentSignatures := []; clock := 0; timers := ∅; nextHandle := 1%positive;
     journal := [] |}.

Definition set_pendingSubmission (v : option PendingSubmission) (st : State) :=
  mkState v (scanTimeout st) (pendingTimeout st) (recentSignatures st)
          (clock st) (timers st) (nextHandle st) (journal st).

Definition set_scanTimeout (v : option positive) (st : State) :=
  mkState (pendingSubmission st) v (pendingTimeout st) (recentSignatures st)
          (clock st) (timers st) (nextHandle st) (journal st).

Definition set_pendingTimeout (v : option positive) (st : State) :=
  mkState (pendingSubmission st) (scanTimeout st) v (recentSignatures st)
          (clock st) (timers st) (nextHandle st) (journal st).

Definition set_recentSignatures (v : list jsstring) (st : State) :=
  mkState (pendingSubmission st) (scanTimeout st) (pendingTimeout st) v
          (clock st) (timers st) (nextHandle st) (journal st).

Definition record (a : Action) (st : State) :=
  mkState (pendingSubmission st) (scanTimeout st) (pendingTimeout st)
          (recentSignatures st) (clock st) (timers st) (nextHandle st)
          (journal st ++ [a]).

(** [window.setTimeout(cb, delay)] *)
Definition setTimeout (cb : Callback) (delay : Z) (st : State)
  : positive * State :=
  let h := nextHandle st in
  (h, record (SetTimeout h cb delay)
        (mkState (pendingSubmission st) (scanTimeout st) (pendingTimeout st)
                 (recentSignatures st) (clock st)
                 (<[h := (clock st + delay, cb)]> (timers st))
                 (Pos.succ h) (journal st))).

(** [window.clearTimeout(handle)] *)
Definition clearTimeout (h : positive) (st : State) : State :=
  record (ClearTimeout h)
    (mkState (pendingSubmission st) (scanTimeout st) (pendingTimeout st)
             (recentSignatures st) (clock st) (delete h (timers st))
             (nextHandle st) (journal st)).

(** *** Dedup gate *)

Definition signatureOf (payload : ProblemLogPayload) : jsstring :=
  stringifyObject
    [(lit "url", Some (url payload));
     (lit "problemText", problemText payload);
     (lit "userAnswer", userAnswer payload);
     (lit "resultText", resultText payload)].

Definition setHas (s : list jsstring) (x : jsstring) : bool :=
  existsb (jsstring_eqb x) s.

Definition setDelete (s : list jsstring) (x : jsstring) : list jsstring :=
  List.filter (fun y => negb (jsstring_eqb x y)) s.

(** The set after [add] and the eviction step. *)
Definition addAndEvict (s : list jsstring) (signature : jsstring)
  : list jsstring :=
  let s1 := s ++ [signature] in
  if (MAX_RECENT_LOGS <? length s1)%nat
  then match head s1 with
       | Some first => if truthy first then setDelete s1 first else s1
       | None => s1
       end
  else s1.

Definition shouldLog (payload : ProblemLogPayload) (st : State) : bool * State :=
  let signature := signatureOf payload in
  if setHas (recentSignatures st) signature
  then (false, record (Gate payload false) st)
  else (true,
        record (Gate payload true)
          (set_recentSignatures
             (addAndEvict (recentSignatures st) signature) st)).

Definition sendLog (payload : ProblemLogPayload) (st : State) : State :=
  record (SendMessage payload) st.

(** *** Submission tracker and scan scheduler *)

Definition clearPending (st : State) : State :=
  let st1 := set_pendingSubmission None st in
  match pendingTimeout st1 with
  | Some h => set_pendingTimeout None (clearTimeout h st1)
  | None => st1
  end.

Definition scheduleResultScan (st : State) : State :=
  match pendingSubmission st, scanTimeout st with
  | None, _ => st
  | Some _, Some _ => st
  | Some _, None =>
      let '(h, st1) := setTimeout ScanCallback RESULT_SCAN_DELAY_MS st in
      set_scanTimeout (Some h) st1
  end.

Definition startPendingTimeout (st : State) : State :=
  let st1 :=
    match pendingTimeout st with
    | Some h => clearTimeout h st
    | None => st
    end in
  let '(h, st2) := setTimeout ExpiryCallback RESULT_TIMEOUT_MS st1 in
  set_pendingTimeout (Some h) st2.

Definition checkForResult (page : Page) (st : State) : State :=
  match pendingSubmission st with
  | None => st
  | Some pending =>
      match getResultState page with
      | None => st
      | Some result =>
          let st1 := clearPending st in
          match result with
          | wrong =>
              let payload := buildPayload page pending in
              let st2 := record (BuildPayload payload) st1 in
              let '(ok, st3) := shouldLog payload st2 in
              if ok then sendLog payload st3 else st3
          | correct => st1
          end
      end
  end.

Definition snapshot (page : Page) : PendingSubmission :=
  let problemDoc := getProblemDocument page in
  {| pending_problemText := getProblemText problemDoc;
     pending_problemId := getProblemId page problemDoc;
     pending_userAnswer := getUserAnswer problemDoc;
     submittedAt := isoNow page |}.

Definition handleSubmitClick (page : Page) (st : State) : State :=
  let st1 := set_pendingSubmission (Some (snapshot page)) st in
  scheduleResultScan (startPendingTimeout st1).

(** The body of each timer callback. *)
Definition runCallback (cb : Callback) (page : Page) (st : State) : State :=
  match cb with
  | ScanCallback => checkForResult page (set_scanTimeout None st)
  | ExpiryCallback => clearPending st
  end.

(** *** The event loop *)

(** What the browser delivers to the script: a click on the submit button, a
mutation notification, a timer that fires, time that passes.  The observer's
callback also calls [trackIframes], which only attaches observers to frames
not seen before and touches none of the state below; it is left out. *)
Inductive Event : Type :=
| SubmitClick (page : Page)
| Mutation
| TimerFires (handle : positive) (page : Page)
| Elapse (dt : Z).

(** One turn of the event loop.  A timer fires only when it is outstanding
    and due; it leaves the timer table before its callback runs. *)
Definition step (e : Event) (st : State) : option State :=
  match e with
  | SubmitClick page => Some (handleSubmitClick page st)
  | Mutation => Some (scheduleResultScan st)
  | TimerFires h page =>
      match timers st !! h with
      | Some (due, cb) =>
          if due <=? clock st
          then Some (runCallback cb page
                       (mkState (pendingSubmission st) (scanTimeout st)
                                (pendingTimeout st) (recentSignatures st)
                                (clock st) (delete h (timers st))
                                (nextHandle st) (journal st)))
          else None
      | None => None
      end
  | Elapse dt =>
      if 0 <=? dt
      then Some (mkState (pendingSubmission st) (scanTimeout st)
                         (pendingTimeout st) (recentSignatures st)
                         (clock st + dt) (timers st) (nextHandle st)
                         (journal st))
      else None
  end.

Fixpoint run (events : list Event) (st : State) : option State :=
  match events with
  | [] => Some st
  | e :: r =>
      match step e st with
      | Some st' => run r st'
      | None => None
      end
  end.

End Content.

Local Close Scope Z_scope.

(** ** The background service worker: offline queue and flush *)

Module Background.

Definition MAX_QUEUE_SIZE : nat := 200.

Record User : Type := mkUser {
  uid : jsstring;
  email : option jsstring
}.

Inductive AuthStatus : Type :=
| signed_out
| signed_in (uid : jsstring) (email : option jsstring).

Definition normalizeAuthStatus (user : option User) : AuthStatus :=
  match user with
  | Some u => signed_in (uid u) (email u)
  | None => signed_out
  end.

(** An async function suspended at one of its [await]s.  Between two
resumptions of one task, any other task may run.  The storage is read or
written at the resumption.  What the listener passes to [sendResponse] is
not part of the state and is left out, with the read of the queue that only
counts its entries. *)
Inductive Task : Type :=
(** [enqueueProblemLog] at [await loadQueue()] *)
| EnqueueLoad (payload : ProblemLogPayload)
(** [enqueueProblemLog] at [await saveQueue(queue)] *)
| EnqueueSave (payload : ProblemLogPayload) (queue : list ProblemLogPayload)
(** the listener's [writeProblemLog(payload, currentUser)] *)
| DirectWrite (payload : ProblemLogPayload) (user : User)
(** the auth observer at [await storageSet(...)] *)
| AuthStore (user : option User)
(** the flush body at [await loadQueue()] *)
| FlushLoad (user : User)
(** the flush body at [await writeProblemLog(payload, user)] inside the
    loop: the entry being written, those still to visit, those kept *)
| FlushWrite (user : User) (payload : ProblemLogPayload)
             (rest remaining : list ProblemLogPayload)
(** the flush body at [await saveQueue(remaining)] *)
| FlushSave (remaining : list ProblemLogPayload).

Record State : Type := mkState {
  (** [chrome.storage.local] under [queuedProblemLogs] and [authState] *)
  storedQueue : option (list ProblemLogPayload);
  storedAuth : option AuthStatus;
  (** [auth.currentUser] *)
  currentUser : option User;
  (** whether [flushInFlight] holds a promise *)
  flushInFlight : bool;
  tasks : list Task;
  (** documents added to [users/{uid}/wrongProblems], oldest first *)
  remote : list (jsstring * ProblemLogPayload)
}.

Definition initial : State :=
  {| storedQueue := None; storedAuth := None; currentUser := None;
     flushInFlight := false; tasks := []; remote := [] |}.

(** What [loadQueue] resolves to. *)
Definition loadQueue (st : State) : list ProblemLogPayload :=
  match storedQueue st with
  | Some q => q
  | None => []
  end.

(** [while (queue.length > MAX_QUEUE_SIZE) queue.shift()] *)
Fixpoint shiftWhileOver (fuel : nat) (queue : list ProblemLogPayload)
  : list ProblemLogPayload :=
  match fuel with
  | O => queue
  | S fuel' =>
      if (MAX_QUEUE_SIZE <? length queue)%nat
      then shiftWhileOver fuel' (tail queue)
      else queue
  end.

(** The queue [enqueueProblemLog] saves, from the one it loaded. *)
Definition pushBounded (queue : list ProblemLogPayload)
  (payload : ProblemLogPayload) : list ProblemLogPayload :=
  let queue1 := queue ++ [payload] in
  shiftWhileOver (length queue1) queue1.

Definition set_tasks (ts : list Task) (st : State) : State :=
  mkState (storedQueue st) (storedAuth st) (currentUser st)
          (flushInFlight st) ts (remote st).

Definition set_storedQueue (q : list ProblemLogPayload) (st : State) : State :=
  mkState (Some q) (storedAuth st) (currentUser st)
          (flushInFlight st) (tasks st) (remote st).

Definition set_flushInFlight (b : bool) (st : State) : State :=
  mkState (storedQueue st) (storedAuth st) (currentUser st)
          b (tasks st) (remote st).

Definition addDoc (u : User) (payload : ProblemLogPayload) (st : State) : State :=
  mkState (storedQueue st) (storedAuth st) (currentUser st)
          (flushInFlight st) (tasks st) (remote st ++ [(uid u, payload)]).

(** The loop of the flush body, entered with the entries still to visit. *)
Definition flushNext (u : User) (rest remaining : list ProblemLogPayload) : Task :=
  match rest with
  | payload :: rest' => FlushWrite u payload rest' remaining
  | [] => FlushSave remaining
  end.

(** Task [i] runs from its [await] to its next one, or to its end.
[ok] tells whether the remote write it awaited succeeded; it is read
only by the tasks that await such a write.  When the flush body ends, the
[finally] of its caller runs in the same turn and resets [flushInFlight]. *)
Definition resume (i : nat) (t : Task) (ok : bool) (st : State) : State :=
  match t with
  | EnqueueLoad payload =>
      set_tasks (<[i := EnqueueSave payload (pushBounded (loadQueue st) payload)]>
                   (tasks st)) st
  | EnqueueSave _ queue =>
      set_tasks (delete i (tasks st)) (set_storedQueue queue st)
  | DirectWrite payload u =>
      if ok
      then set_tasks (delete i (tasks st)) (addDoc u payload st)
      else set_tasks (<[i := EnqueueLoad payload]> (tasks st)) st
  | AuthStore user =>
      let st1 :=
        mkState (storedQueue st) (Some (normalizeAuthStatus user))
                (currentUser st) (flushInFlight st) (tasks st) (remote st) in
      match user with
      | Some u =>
          if flushInFlight st1
          then set_tasks (delete i (tasks st1)) st1
          else set_tasks (<[i := FlushLoad u]> (tasks st1))
                 (set_flushInFlight true st1)
      | None => set_tasks (delete i (tasks st1)) st1
      end
  | FlushLoad u =>
      let queue := loadQueue st in
      if Nat.eqb (length queue) 0
      then set_tasks (delete i (tasks st)) (set_flushInFlight false st)
      else set_tasks (<[i := flushNext u queue []]> (tasks st)) st
  | FlushWrite u payload rest remaining =>
      if ok
      then set_tasks (<[i := flushNext u rest remaining]> (tasks st))
             (addDoc u payload st)
      else set_tasks (<[i := flushNext u rest (remaining ++ [payload])]>
                        (tasks st)) st
  | FlushSave remaining =>
      set_tasks (delete i (tasks st))
        (set_flushInFlight false (set_storedQueue remaining st))
  end.

Inductive Event : Type :=
(** a [LOG_WRONG_PROBLEM] message arrives *)
| LogWrongProblem (payload : ProblemLogPayload)
(** the auth state changes: [auth.currentUser] is set, the observer runs *)
| AuthStateChanged (user : option User)
(** what task [i] awaits completes *)
| Resume (i : nat) (ok : bool).

Definition step (e : Event) (st : State) : option State :=
  match e with
  | LogWrongProblem payload =>
      match currentUser st with
      | None => Some (set_tasks (tasks st ++ [EnqueueLoad payload]) st)
      | Some u => Some (set_tasks (tasks st ++ [DirectWrite payload u]) st)
      end
  | AuthStateChanged user =>
      Some (mkState (storedQueue st) (storedAuth st) user (flushInFlight st)
                    (tasks st ++ [AuthStore user]) (remote st))
  | Resume i ok =>
      match tasks st !! i with
      | Some t => Some (resume i t ok st)
      | None => None
      end
  end.

Fixpoint run (events : list Event) (st : State) : option State :=
  match events with
  | [] => Some st
  | e :: r =>
      match step e st with
      | Some st' => run r st'
      | None => None
      end
  end.

(** A task that is executing the flush body. *)
Definition isFlushBody (t : Task) : bool :=
  match t with
  | FlushLoad _ | FlushWrite _ _ _ _ | FlushSave _ => true
  | _ => false
  end.

End Background.

(** ** Definitions that follow the specification's words *)

Import Content.

Module Spec.

(** The words of a text: its maximal runs of code units that are not
    whitespace, in order. *)
Fixpoint words (s : jsstring) : list jsstring :=
  match s with
  | [] => []
  | c :: r =>
      if isWhiteSpace c then words r
      else match r with
           | [] => [[c]]
           | d :: _ =>
               if isWhiteSpace d then [c] :: words r
               else match words r with
                    | w :: ws => (c :: w) :: ws
                    | [] => [[c]]
                    end
           end
  end.

(** The words joined by single spaces. *)
Fixpoint unwords (ws : list jsstring) : jsstring :=
  match ws with
  | [] => []
  | [w] => w
  | w :: r => w ++ SPACE :: unwords r
  end.

(** "collapse all runs of whitespace to single spaces, trim ends" *)
Definition normalized (s : jsstring) : jsstring :=
  unwords (words s).

(** The attribute fallback: [data-problem-id] of the first element that
    carries it. *)
Definition attributeFallback (doc : option Document) : option jsstring :=
  match doc with
  | Some d =>
      match querySelector d PROBLEM_ID_SELECTOR with
      | Some e => dataset_problemId e
      | None => None
      end
  | None => None
  end.

(** The documents of the page's iframes that can be read: a frame whose
    access throws, or that has no document, contributes nothing. *)
Definition accessibleFrameDocuments (page : Page) : list Document :=
  omap (fun frame =>
          match contentDocument frame with
          | FrameDocument d => Some d
          | _ => None
          end)
       (querySelectorAll (document page) IFRAME_SELECTOR).

(** What one result-icon element says. *)
Definition markerOf (e : Element) : option ResultState :=
  if jsstring_eqb (trim (textContent e)) (lit "J") then Some wrong
  else if jsstring_eqb (trim (textContent e)) (lit "q") then Some correct
  else None.

(** The result-icon elements in scan order: document by document, and in
    document order inside each. *)
Definition scanOrder (page : Page) : list Element :=
  flat_map (fun d => querySelectorAll d RESULT_ICON_SELECTOR)
           (getAllCandidateDocuments page).

(** One call of the gate, on the set alone. *)
Definition gateStep (s : list jsstring) (x : jsstring) : list jsstring :=
  if setHas s x then s else addAndEvict s x.

(** The payloads built, the payloads handed to the gate and the messages
    sent, as the journal lists them. *)
Definition builds (j : list Action) : list ProblemLogPayload :=
  omap (fun a => match a with BuildPayload p => Some p | _ => None end) j.

Definition gated (j : list Action) : list ProblemLogPayload :=
  omap (fun a => match a with Gate p _ => Some p | _ => None end) j.

Definition sends (j : list Action) : list ProblemLogPayload :=
  omap (fun a => match a with SendMessage p => Some p | _ => None end) j.

(** An event other than a submit click during which no result marker is
    seen: a mutation, time passing, or a timer firing on a page where the
    detector finds nothing. *)
Definition quiet (e : Event) : bool :=
  match e with
  | SubmitClick _ => false
  | Mutation => true
  | TimerFires _ page =>
      match getResultState page with
      | None => true
      | Some _ => false
      end
  | Elapse _ => true
  end.

(** The states the script can be in. *)
Definition reachable (st : State) : Prop :=
  exists events, run events initial = Some st.

(** The slots and the timer table agree: every outstanding scan timer is
    the one in [scanTimeout], every outstanding expiry timer the one in
    [pendingTimeout], and conversely; handles are fresh; a submission is
    pending exactly when its expiry timer is armed. *)
Definition TimerInv (st : State) : Prop :=
  (forall h due, timers st !! h = Some (due, ScanCallback) ->
                 scanTimeout st = Some h)
  /\ (forall h due, timers st !! h = Some (due, ExpiryCallback) ->
                    pendingTimeout st = Some h)
  /\ (forall h, is_Some (timers st !! h) -> (h < nextHandle st)%positive)
  /\ (forall h, scanTimeout st = Some h ->
                exists due, timers st !! h = Some (due, ScanCallback))
  /\ (forall h, pendingTimeout st = Some h ->
                exists due, timers st !! h = Some (due, ExpiryCallback))
  /\ (pendingSubmission st = None <-> pendingTimeout st = None).

(** The submission is pending with snapshot [p], and its expiry timer [he]
    is outstanding and due at [due]. *)
Definition Armed (st : State) (p : PendingSubmission) (he : positive) (due : Z)
  : Prop :=
  pendingSubmission st = Some p
  /\ pendingTimeout st = Some he
  /\ timers st !! he = Some (due, ExpiryCallback).

(** Nothing was built, gated or sent between two states, and the dedup
    set is the same. *)
Definition sameLog (st st' : State) : Prop :=
  Spec.builds (journal st') = Spec.builds (journal st)
  /\ Spec.gated (journal st') = Spec.gated (journal st)
  /\ Spec.sends (journal st') = Spec.sends (journal st)
  /\ recentSignatures st' = recentSignatures st.

(** An event other than a submit click. *)
Definition noClick (e : Event) : bool :=
  match e with
  | SubmitClick _ => false
  | _ => true
  end.

(** The payloads handed to the dedup gate one after the other. *)
Fixpoint submitAll (payloads : list ProblemLogPayload) (st : State) : State :=
  match payloads with
  | [] => st
  | p :: r => submitAll r (snd (shouldLog p st))
  end.

(** The signatures the gate inserts while the payloads are handed to it one
after the other: those of the calls that answer true. *)
Fixpoint inserted (payloads : list ProblemLogPayload) (st : State)
  : list jsstring :=
  match payloads with
  | [] => []
  | p :: r =>
      if fst (shouldLog p st)
      then signatureOf p :: inserted r (snd (shouldLog p st))
      else inserted r (snd (shouldLog p st))
  end.

(** The signatures among [l] other than [x]. *)
Definition others (x : jsstring) (l : list jsstring) : list jsstring :=
  List.filter (fun y => negb (jsstring_eqb y x)) l.

(** What holds of the dedup set in every state the script reaches: no
    signature twice, no empty signature, at most 50 of them. *)
Definition GateInv (s : list jsstring) : Prop :=
  NoDup s /\ Forall (fun x => x <> []) s /\ length s <= MAX_RECENT_LOGS.

(** The entries a flush keeps and the entries it writes, from the queue it
loaded and the outcome of each write: a failed write keeps its entry. *)
Fixpoint kept (queue : list ProblemLogPayload) (oks : list bool)
  : list ProblemLogPayload :=
  match queue, oks with
  | p :: queue', ok :: oks' =>
      if ok then kept queue' oks' else p :: kept queue' oks'
  | _, _ => []
  end.

Fixpoint written (queue : list ProblemLogPayload) (oks : list bool)
  : list ProblemLogPayload :=
  match queue, oks with
  | p :: queue', ok :: oks' =>
      if ok then p :: written queue' oks' else written queue' oks'
  | _, _ => []
  end.

(** The number of tasks executing the flush body. *)
Definition flushBodies (ts : list Background.Task) : nat :=
  length (List.filter Background.isFlushBody ts).

(** What a suspended task holds: a queue about to be saved ends with the
payload being enqueued and fits the bound; a flush holds no more than the
bound. *)
Definition taskOk (t : Background.Task) : Prop :=
  match t with
  | Background.EnqueueSave p q =>
      last q = Some p /\ length q <= Background.MAX_QUEUE_SIZE
  | Background.FlushWrite _ _ rest remaining =>
      length remaining + S (length rest) <= Background.MAX_QUEUE_SIZE
  | Background.FlushSave remaining =>
      length remaining <= Background.MAX_QUEUE_SIZE
  | _ => True
  end.

(** What holds in every state of the service worker. *)
Definition QueueInv (st : Background.State) : Prop :=
  length (Background.loadQueue st) <= Background.MAX_QUEUE_SIZE
  /\ Forall taskOk (Background.tasks st)
  /\ flushBodies (Background.tasks st) =
     (if Background.flushInFlight st then 1 else 0).

(** The states the service worker can be in. *)
Definition bgReachable (st : Background.State) : Prop :=
  exists events, Background.run events Background.initial = Some st.

End Spec.

Import Spec.

(** ** A trainer page, for the worked examples *)

Module Examples.

Definition span (text : string) : Element :=
  mkElement (lit text) None None NullDocument.

Definition textInput (v : string) : Element :=
  mkElement [] (Some (lit v)) None NullDocument.

Definition trainer : Location :=
  {| href := lit "https://artofproblemsolving.com/mathcounts_trainer/play?problem=42";
     searchParams := [(lit "problem", lit "42")] |}.

(** The document inside the trainer's frame; its own URL carries another
problem id. *)
Definition frameLocation : Location :=
  {| href := lit "https://artofproblemsolving.com/frame?problem_id=7";
     searchParams := [(lit "problem_id", lit "7")] |}.

Definition frameDocument (icons : list Element) : Document :=
  mkDocument 1 frameLocation (lit "frame")
    (fun selector =>
       if jsstring_eqb selector RESULT_ICON_SELECTOR then icons else []).

Definition topDocument (icons frameIcons : list Element) : Document :=
  mkDocument 0 trainer (lit "MATHCOUNTS Trainer")
    (fun selector =>
       if jsstring_eqb selector PROBLEM_TEXT_SELECTOR
       then [span "  What   is 2+2? "]
       else if jsstring_eqb selector ANSWER_INPUT_SELECTOR
       then [textInput ""; textInput " 5 "]
       else if jsstring_eqb selector IFRAME_SELECTOR
       then [mkElement [] None None AccessThrows;
             mkElement [] None None (FrameDocument (frameDocument frameIcons))]
       else if jsstring_eqb selector RESULT_ICON_SELECTOR
       then icons
       else []).

Definition pageAt (iso : string) (icons frameIcons : list Element) : Page :=
  {| document := topDocument icons frameIcons;
     location := trainer;
     isoNow := lit iso |}.

(** The page at the click, then showing the wrong marker in the frame, then
showing the correct marker. *)
Definition pageClicked : Page := pageAt "2026-01-05T10:00:00.000Z" [] [].
Definition pageWrong : Page :=
  pageAt "2026-01-05T10:00:00.300Z" [span "x"] [span " J "; span "q"].
Definition pageCorrect : Page :=
  pageAt "2026-01-05T10:00:00.300Z" [] [span "q"].

(** The state 300 ms after the click. *)
Definition afterClick : State :=
  match run [SubmitClick pageClicked; Mutation; Elapse 300] initial with
  | Some st => st
  | None => initial
  end.



Definition examplePayload (answer : string) : ProblemLogPayload :=
  {| url := href trainer; pageTitle := None;
     problemText := Some (lit "What is 2+2?"); problemId := None;
     userAnswer := Some (lit answer); correctAnswer := None;
     resultText := Some (lit "incorrect (J)");
     capturedAt := lit "2026-01-05T10:00:00.000Z" |}.

End Examples.

Import Examples.

(** * Vocabulary of the further properties *)

Module More.

(** A text whose first and last code units are not whitespace. *)
Definition edgesClean (s : jsstring) : Prop :=
  (forall c, head s = Some c -> isWhiteSpace c = false)
  /\ (forall c, last s = Some c -> isWhiteSpace c = false).

(** An input the answer extractor passes over: no value, or only
whitespace. *)
Definition blankInput (e : Element) : Prop :=
  match value e with
  | Some v => trim v = []
  | None => True
  end.

(** A document that holds a problem-text element. *)
Definition hasProblemText (d : Document) : Prop :=
  querySelector d PROBLEM_TEXT_SELECTOR <> None.

(** No whitespace code unit is followed by another one. *)
Fixpoint noDoubleWhitespace (s : jsstring) : Prop :=
  match s with
  | c :: (d :: _) as r =>
      (isWhiteSpace c = true -> isWhiteSpace d = false) /\ noDoubleWhitespace r
  | _ => True
  end.

(** The code units of a text that are not whitespace, in order. *)
Definition inkOf (s : jsstring) : jsstring :=
  List.filter (fun c => negb (isWhiteSpace c)) s.

(** A word: not empty, no whitespace in it. *)
Definition isWord (w : jsstring) : Prop :=
  w <> [] /\ Forall (fun c => isWhiteSpace c = false) w.

(** The value of a lower-case hexadecimal digit. *)
Definition unhexDigit (h : N) : N :=
  (if (h <? 58)%N then h - 48 else h - 87)%N.

Definition consDecoded (c : N) (o : option (jsstring * jsstring))
  : option (jsstring * jsstring) :=
  match o with
  | Some (s, rest) => Some (c :: s, rest)
  | None => None
  end.

(** Reads the body of a JSON string up to its closing quote: the string it
denotes, and what follows the quote. *)
Fixpoint unquoteBody (s : jsstring) : option (jsstring * jsstring) :=
  match s with
  | [] => None
  | c :: r =>
      if (c =? 34)%N then Some ([], r)
      else if (c =? 92)%N then
        match r with
        | [] => None
        | e :: r1 =>
            if (e =? 98)%N then consDecoded 8%N (unquoteBody r1)
            else if (e =? 116)%N then consDecoded 9%N (unquoteBody r1)
            else if (e =? 110)%N then consDecoded 10%N (unquoteBody r1)
            else if (e =? 102)%N then consDecoded 12%N (unquoteBody r1)
            else if (e =? 114)%N then consDecoded 13%N (unquoteBody r1)
            else if (e =? 34)%N then consDecoded 34%N (unquoteBody r1)
            else if (e =? 92)%N then consDecoded 92%N (unquoteBody r1)
            else if (e =? 117)%N then
              match r1 with
              | h3 :: h2 :: h1 :: h0 :: r2 =>
                  consDecoded
                    (4096 * unhexDigit h3 + 256 * unhexDigit h2
                     + 16 * unhexDigit h1 + unhexDigit h0)%N
                    (unquoteBody r2)
              | _ => None
              end
            else None
        end
      else consDecoded c (unquoteBody r)
  end.

(** The properties that [JSON.stringify] writes: those with a value. *)
Definition presentProperties (props : list (jsstring * option jsstring))
  : list (jsstring * jsstring) :=
  omap (fun kv => match snd kv with
                  | Some v => Some (fst kv, v)
                  | None => None
                  end) props.

Definition serializeProperty (kv : jsstring * jsstring) : jsstring :=
  quoteJSONString (fst kv) ++ 58%N :: quoteJSONString (snd kv).

(** A journal entry that is a timer call. *)
Definition timerCall (a : Action) : bool :=
  match a with
  | SetTimeout _ _ _ | ClearTimeout _ => true
  | _ => false
  end.

(** The payloads the gate let through, as the journal lists them. *)
Definition passed (j : list Action) : list ProblemLogPayload :=
  omap (fun a => match a with Gate p true => Some p | _ => None end) j.

(** What a scan that sees the wrong marker appends to the journal after its
timer calls. *)
Definition wrongScanEntries (p : ProblemLogPayload) (verdict : bool)
  : list Action :=
  [BuildPayload p; Gate p verdict] ++ (if verdict then [SendMessage p] else []).

(** A problem text as the extractor returns it, and an answer as the
extractor returns it. *)
Definition textInBounds (o : option jsstring) : Prop :=
  forall t, o = Some t -> t <> [] /\ length t <= MAX_TEXT_LENGTH.

Definition answerTrimmed (o : option jsstring) : Prop :=
  forall v, o = Some v -> v <> [] /\ edgesClean v.

Definition wellFormedPending (p : PendingSubmission) : Prop :=
  textInBounds (pending_problemText p) /\ answerTrimmed (pending_userAnswer p).

Definition wellFormedPayload (p : ProblemLogPayload) : Prop :=
  correctAnswer p = None
  /\ resultText p = Some (lit "incorrect (J)")
  /\ pageTitle p <> None
  /\ textInBounds (problemText p)
  /\ answerTrimmed (userAnswer p).

(** The journal and the dedup set tell one story: what was built was gated,
what was sent is what the gate let through, and the dedup set is the
signatures of the last 50 messages sent. *)
Definition Coherent (st : State) : Prop :=
  builds (journal st) = gated (journal st)
  /\ sends (journal st) = passed (journal st)
  /\ Forall wellFormedPayload (builds (journal st))
  /\ (forall p, pendingSubmission st = Some p -> wellFormedPending p)
  /\ recentSignatures st =
     drop (length (sends (journal st)) - MAX_RECENT_LOGS)
          (signatureOf <$> sends (journal st))
  /\ GateInv (recentSignatures st).

(** The delay each callback is armed with. *)
Definition delayOf (cb : Callback) : Z :=
  match cb with
  | ScanCallback => RESULT_SCAN_DELAY_MS
  | ExpiryCallback => RESULT_TIMEOUT_MS
  end.

(** Every outstanding timer is due no later than its delay from now. *)
Definition DueInv (st : State) : Prop :=
  forall h due cb, timers st !! h = Some (due, cb) ->
                   (due <= clock st + delayOf cb)%Z.

(** The later state holds only timers of the earlier one, or timers armed at
the (unchanged) clock. *)
Definition timersFrom (st st' : State) : Prop :=
  clock st' = clock st
  /\ forall h due cb, timers st' !! h = Some (due, cb) ->
                      timers st !! h = Some (due, cb)
                      \/ due = (clock st + delayOf cb)%Z.

(** An event other than a sign-in. *)
Definition noSignIn (e : Background.Event) : bool :=
  match e with
  | Background.AuthStateChanged (Some _) => false
  | _ => true
  end.

(** A task that can exist while nobody has signed in. *)
Definition signedOutTask (t : Background.Task) : bool :=
  match t with
  | Background.EnqueueLoad _ | Background.EnqueueSave _ _
  | Background.AuthStore None => true
  | _ => false
  end.

(** The state after the scan that sees the wrong marker. *)
Definition afterWrong : State :=
  match step (TimerFires 2 pageWrong) afterClick with
  | Some st => st
  | None => afterClick
  end.

Definition exampleUser : Background.User :=
  Background.mkUser (lit "u1") None.

(** The background with two entries queued, signed out; and the same just
after a sign-in, the flush body started and suspended at its first await. *)
Definition twoQueued : Background.State :=
  Background.set_storedQueue [examplePayload "5"; examplePayload "6"]
    Background.initial.

Definition midFlush : Background.State :=
  match Background.run [Background.AuthStateChanged (Some exampleUser);
                        Background.Resume 0 true] twoQueued with
  | Some st => st
  | None => twoQueued
  end.

Definition signedIn : Background.State :=
  Background.mkState None None (Some exampleUser) false [] [].

(** One for a pending submission, none otherwise; and the clicks among the
events. *)
Definition pendingCount (st : State) : nat :=
  match pendingSubmission st with
  | Some _ => 1
  | None => 0
  end.

Definition clicks (events : list Event) : nat :=
  length (List.filter (fun e => negb (noClick e)) events).

(** The payloads received in messages and the users seen signing in, over a
run of the service worker. *)
Definition received (events : list Background.Event) : list ProblemLogPayload :=
  omap (fun e => match e with
                 | Background.LogWrongProblem p => Some p
                 | _ => None
                 end) events.

Definition signedInUsers (events : list Background.Event)
  : list Background.User :=
  omap (fun e => match e with
                 | Background.AuthStateChanged (Some u) => Some u
                 | _ => None
                 end) events.

(** A task, an event and a state that hold only payloads of [P] and users
of [U]. *)
Definition taskFrom (P : ProblemLogPayload -> Prop) (U : Background.User -> Prop)
  (t : Background.Task) : Prop :=
  match t with
  | Background.EnqueueLoad p => P p
  | Background.EnqueueSave p q => P p /\ Forall P q
  | Background.DirectWrite p u => P p /\ U u
  | Background.AuthStore (Some u) => U u
  | Background.AuthStore None => True
  | Background.FlushLoad u => U u
  | Background.FlushWrite u p rest remaining =>
      U u /\ P p /\ Forall P rest /\ Forall P remaining
  | Background.FlushSave remaining => Forall P remaining
  end.

Definition eventFrom (P : ProblemLogPayload -> Prop) (U : Background.User -> Prop)
  (e : Background.Event) : Prop :=
  match e with
  | Background.LogWrongProblem p => P p
  | Background.AuthStateChanged (Some u) => U u
  | _ => True
  end.

Definition docFrom (P : ProblemLogPayload -> Prop) (U : Background.User -> Prop)
  (d : jsstring * ProblemLogPayload) : Prop :=
  (exists u, U u /\ fst d = Background.uid u) /\ P (snd d).

Definition Provenance (P : ProblemLogPayload -> Prop)
  (U : Background.User -> Prop) (st : Background.State) : Prop :=
  Forall P (Background.loadQueue st)
  /\ Forall (taskFrom P U) (Background.tasks st)
  /\ Forall (docFrom P U) (Background.remote st)
  /\ (forall u, Background.currentUser st = Some u -> U u).

(** [n] payloads that differ in the answer: "A", "B", ... *)
Definition distinctPayloads (n : nat) : list ProblemLogPayload :=
  (fun k => examplePayload (String (ascii_of_nat (65 + k)) EmptyString))
    <$> seq 0 n.

End More.

Import More.

(** * Properties *)

(** ** Whitespace normalization *)

Section Whitespace.

Lemma isWhiteSpace_SPACE : isWhiteSpace SPACE = true.
Proof. reflexivity. Qed.

Lemma trimStart_app (a b : jsstring) :
  trimStart (a ++ b) =
  match trimStart a with
  | [] => trimStart b
  | x => x ++ b
  end.
Proof.
  induction a as [|c a IH]; simpl.
  - destruct (trimStart b); reflexivity.
  - destruct (isWhiteSpace c); [exact IH | reflexivity].
Qed.

Lemma trimEnd_cons (c : N) (u : jsstring) :
  trimEnd (c :: u) =
  match trimEnd u with
  | [] => if isWhiteSpace c then [] else [c]
  | t => c :: t
  end.
Proof.
  unfold trimEnd. simpl rev. rewrite trimStart_app.
  destruct (trimStart (rev u)) as [|x xs] eqn:E; simpl.
  - destruct (isWhiteSpace c); reflexivity.
  - rewrite rev_app_distr. simpl.
    destruct (rev xs ++ [x]) eqn:E'; [|reflexivity].
    destruct (rev xs); discriminate.
Qed.

Lemma trimEnd_nil : trimEnd [] = [].
Proof. reflexivity. Qed.

(** Trimming the start after replacing the runs drops the leading run. *)
Lemma trimStart_replaceRuns (b : bool) (s : jsstring) :
  trimStart (replaceRuns b s) = replaceRuns true s.
Proof.
  revert b. induction s as [|c r IH]; intros b; simpl; [reflexivity|].
  destruct (isWhiteSpace c) eqn:Hc.
  - destruct b; simpl; apply IH.
  - simpl. rewrite Hc. reflexivity.
Qed.

Lemma words_nonempty (s : jsstring) : Forall (fun w => w <> []) (Spec.words s).
Proof.
  induction s as [|c r IH]; simpl; [constructor|].
  destruct (isWhiteSpace c); [exact IH|].
  destruct r as [|d r']; [repeat constructor; discriminate|].
  destruct (isWhiteSpace d).
  - constructor; [discriminate | exact IH].
  - destruct (Spec.words (d :: r')) as [|w ws] eqn:E.
    + repeat constructor; discriminate.
    + inversion IH; subst. constructor; [discriminate | assumption].
Qed.

Lemma unwords_nil_inv (ws : list jsstring) :
  Forall (fun w => w <> []) ws -> Spec.unwords ws = [] -> ws = [].
Proof.
  intros H E. destruct ws as [|w r]; [reflexivity|].
  inversion H; subst. simpl in E. destruct r.
  - contradiction.
  - destruct w; [contradiction | discriminate].
Qed.

Lemma unwords_cons (w : jsstring) (r : list jsstring) :
  Spec.unwords (w :: r) =
  match r with [] => w | _ => w ++ SPACE :: Spec.unwords r end.
Proof. destruct r; reflexivity. Qed.

Lemma words_head_not_ws (d : N) (r : jsstring) :
  isWhiteSpace d = false -> Spec.words (d :: r) <> [].
Proof.
  intros Hd. simpl. rewrite Hd. destruct r as [|e r']; [discriminate|].
  destruct (isWhiteSpace e); [discriminate|].
  destruct (Spec.words (e :: r')); discriminate.
Qed.

Lemma words_cons_not_ws (c : N) (r : jsstring) :
  isWhiteSpace c = false ->
  Spec.words (c :: r) =
  match r with
  | [] => [[c]]
  | d :: _ =>
      if isWhiteSpace d then [c] :: Spec.words r
      else match Spec.words r with
           | w :: ws => (c :: w) :: ws
           | [] => [[c]]
           end
  end.
Proof. intros Hc. cbn [Spec.words]. rewrite Hc. reflexivity. Qed.

(** What is left of the replaced text once its end is trimmed, for both
    values of the flag. *)
Lemma trimEnd_replaceRuns (s : jsstring) :
  trimEnd (replaceRuns true s) = Spec.unwords (Spec.words s)
  /\ trimEnd (replaceRuns false s) =
     match s with
     | c :: _ =>
         if isWhiteSpace c
         then match Spec.words s with
              | [] => []
              | _ => SPACE :: Spec.unwords (Spec.words s)
              end
         else Spec.unwords (Spec.words s)
     | [] => []
     end.
Proof.
  induction s as [|c r [IHt IHf]]; [split; reflexivity|].
  destruct (isWhiteSpace c) eqn:Hc.
  - assert (Hw : Spec.words (c :: r) = Spec.words r) by (simpl; rewrite Hc; reflexivity).
    rewrite Hw. simpl replaceRuns. rewrite Hc. split; [exact IHt|].
    rewrite trimEnd_cons, IHt, isWhiteSpace_SPACE.
    destruct (Spec.words r) as [|w ws] eqn:E; [reflexivity|].
    destruct (Spec.unwords (w :: ws)) eqn:E'; [|reflexivity].
    apply unwords_nil_inv in E'; [discriminate|].
    rewrite <- E. apply words_nonempty.
  - assert (H : trimEnd (c :: replaceRuns false r) = Spec.unwords (Spec.words (c :: r))).
    { rewrite trimEnd_cons, IHf, Hc, (words_cons_not_ws c r Hc). clear IHt IHf.
      destruct r as [|d r']; [reflexivity|].
      cbv beta match.
      destruct (isWhiteSpace d) eqn:Hd.
      - destruct (Spec.words (d :: r')) as [|w ws]; reflexivity.
      - pose proof (words_head_not_ws d r' Hd) as Hne.
        pose proof (words_nonempty (d :: r')) as Hall.
        destruct (Spec.words (d :: r')) as [|w ws]; [contradiction|].
        inversion Hall; subst.
        rewrite !unwords_cons.
        destruct ws; [destruct w; [contradiction | reflexivity]|].
        destruct w; [contradiction | reflexivity]. }
    simpl replaceRuns. rewrite Hc. split; exact H.
Qed.

(** [normalizeText] computes the words of the text joined by single
    spaces. *)
Lemma normalizeText_normalized (s : jsstring) :
  normalizeText s = Spec.normalized s.
Proof.
  unfold normalizeText, trim, replaceWhitespaceRuns, Spec.normalized.
  rewrite trimStart_replaceRuns. apply trimEnd_replaceRuns.
Qed.

End Whitespace.

(** ** Problem-text extraction *)

Section ProblemText.

Lemma length_take_MAX (t : jsstring) :
  length (take MAX_TEXT_LENGTH t) <= MAX_TEXT_LENGTH.
Proof. rewrite length_take. lia. Qed.

(** C7. Problem-text extraction takes the first element matching the
    problem-text selector, joins the words of its text by single spaces
    (every run of whitespace collapsed, both ends trimmed) and returns the
    first 2000 code units of that; it returns nothing when the document is
    absent, when no element matches or when the normalized text is empty;
    what it returns is never longer than 2000. *)
Theorem C7_getProblemText_normalized_truncated (doc : option Document) :
  getProblemText doc =
    match doc with
    | None => None
    | Some d =>
        match querySelector d PROBLEM_TEXT_SELECTOR with
        | None => None
        | Some e =>
            match Spec.normalized (textContent e) with
            | [] => None
            | t => Some (take 2000 t)
            end
        end
    end
  /\ (forall t : jsstring, getProblemText doc = Some t -> length t <= 2000).
Proof.
  assert (E : getProblemText doc =
    match doc with
    | None => None
    | Some d =>
        match querySelector d PROBLEM_TEXT_SELECTOR with
        | None => None
        | Some e =>
            match Spec.normalized (textContent e) with
            | [] => None
            | t => Some (take 2000 t)
            end
        end
    end).
  { unfold getProblemText. destruct doc as [d|]; [|reflexivity].
    destruct (querySelector d PROBLEM_TEXT_SELECTOR) as [e|]; [|reflexivity].
    destruct (textContent e) as [|c r] eqn:Et.
    - reflexivity.
    - cbn [truthy]. rewrite normalizeText_normalized.
      destruct (Spec.normalized (c :: r)); reflexivity. }
  split; [exact E|].
  intros t Ht. rewrite E in Ht.
  destruct doc as [d|]; [|discriminate].
  destruct (querySelector d PROBLEM_TEXT_SELECTOR) as [e|]; [|discriminate].
  destruct (Spec.normalized (textContent e)) as [|c r]; [discriminate|].
  pose proof (length_take_MAX (c :: r)) as Hlen.
  injection Ht as <-. exact Hlen.
Qed.

End ProblemText.

(** ** Problem-id extraction *)

Section ProblemId.

(** C10. Whatever document is passed (the top one, a frame's, none), the
    query parameters [problem_id] and then [problem] are looked up in the
    window's URL; the document's own URL plays no part, and its
    [data-problem-id] attribute is read only when both parameters are
    absent. *)
Theorem C10_getProblemId_window_url_only (page : Page) :
  let params := searchParams (location page) in
  (forall (doc : option Document) (v : jsstring),
      searchParamsGet params (lit "problem_id") = Some v ->
      getProblemId page doc = Some v)
  /\ (forall (doc : option Document) (v : jsstring),
      searchParamsGet params (lit "problem_id") = None ->
      searchParamsGet params (lit "problem") = Some v ->
      getProblemId page doc = Some v)
  /\ (forall doc : option Document,
      searchParamsGet params (lit "problem_id") = None ->
      searchParamsGet params (lit "problem") = None ->
      getProblemId page doc = Spec.attributeFallback doc)
  /\ (forall (id : nat) (own own' : Location) (title : jsstring)
             (query : jsstring -> list Element),
      getProblemId page (Some (mkDocument id own title query)) =
      getProblemId page (Some (mkDocument id own' title query))).
Proof.
  cbv zeta. unfold getProblemId, Spec.attributeFallback.
  repeat split.
  - intros doc v ->. reflexivity.
  - intros doc v -> ->. reflexivity.
  - intros doc -> ->. reflexivity.
Qed.

End ProblemId.

(** ** Result detection *)

Section ResultDetector.

Lemma safeAccess_omap (frames : list Element) :
  omap safeAccessFrameDocument frames =
  omap (fun frame =>
          match contentDocument frame with
          | FrameDocument d => Some d
          | _ => None
          end) frames.
Proof.
  induction frames as [|f r IH]; [reflexivity|].
  simpl. unfold safeAccessFrameDocument at 1.
  destruct (contentDocument f); simpl; rewrite ?IH; reflexivity.
Qed.

Lemma docSetHas_app (a b : list Document) (d : Document) :
  docSetHas (a ++ b) d = docSetHas a d || docSetHas b d.
Proof. unfold docSetHas. apply existsb_app. Qed.

Lemma docSetHas_elem (docs : list Document) (d : Document) :
  d ∈ docs -> docSetHas docs d = true.
Proof.
  intros H. unfold docSetHas. apply existsb_exists. exists d. split.
  - apply list_elem_of_In, H.
  - apply Nat.eqb_refl.
Qed.

Lemma docSetHas_ids (docs : list Document) (d : Document) :
  docSetHas docs d = true <-> doc_id d ∈ doc_id <$> docs.
Proof.
  unfold docSetHas. rewrite existsb_exists, list_elem_of_fmap. split.
  - intros (x & Hx & E). exists x. apply Nat.eqb_eq in E.
    split; [congruence | apply list_elem_of_In, Hx].
  - intros (x & E & Hx). exists x. split; [apply list_elem_of_In, Hx|].
    apply Nat.eqb_eq. congruence.
Qed.

Lemma candidates_prefix (frames : list Element) (acc : list Document) :
  exists rest, fold_left addFrame frames acc = acc ++ rest.
Proof.
  revert acc. induction frames as [|f r IH]; intros acc; simpl.
  - exists []. symmetry. apply app_nil_r.
  - unfold addFrame at 2. destruct (safeAccessFrameDocument f) as [d|]; [|apply IH].
    unfold docSetAdd. destruct (docSetHas acc d); [apply IH|].
    destruct (IH (acc ++ [d])) as [rest E]. exists (d :: rest).
    rewrite E, <- app_assoc. reflexivity.
Qed.

Lemma candidates_sound (frames : list Element) (acc : list Document) (d : Document) :
  d ∈ fold_left addFrame frames acc ->
  d ∈ acc \/ d ∈ omap safeAccessFrameDocument frames.
Proof.
  revert acc. induction frames as [|f r IH]; intros acc; simpl; [auto|].
  intros H. apply IH in H. unfold addFrame in H.
  destruct (safeAccessFrameDocument f) as [x|]; simpl; [|exact H].
  destruct H as [H|H]; [|right; right; exact H].
  unfold docSetAdd in H. destruct (docSetHas acc x); [left; exact H|].
  apply elem_of_app in H as [H|H]; [left; exact H|].
  apply list_elem_of_singleton in H as ->. right. left.
Qed.

Lemma candidates_keep (frames : list Element) (acc : list Document) (d : Document) :
  docSetHas acc d = true -> docSetHas (fold_left addFrame frames acc) d = true.
Proof.
  intros H. destruct (candidates_prefix frames acc) as [rest ->].
  rewrite docSetHas_app, H. reflexivity.
Qed.

Lemma candidates_complete (frames : list Element) (acc : list Document) (d : Document) :
  d ∈ omap safeAccessFrameDocument frames ->
  docSetHas (fold_left addFrame frames acc) d = true.
Proof.
  revert acc. induction frames as [|f r IH]; intros acc; simpl.
  - intros H. inversion H.
  - unfold addFrame at 2. destruct (safeAccessFrameDocument f) as [x|]; simpl; [|apply IH].
    intros H. apply elem_of_cons in H as [->|H]; [|apply IH, H].
    apply candidates_keep. unfold docSetAdd.
    destruct (docSetHas acc x) eqn:E; [exact E|].
    rewrite docSetHas_app. apply orb_true_iff. right.
    apply docSetHas_elem. left.
Qed.

Lemma candidates_exact (frames : list Element) (acc : list Document) :
  NoDup (doc_id <$> (acc ++ omap safeAccessFrameDocument frames)) ->
  fold_left addFrame frames acc = acc ++ omap safeAccessFrameDocument frames.
Proof.
  revert acc. induction frames as [|f r IH]; intros acc; simpl.
  - intros _. symmetry. apply app_nil_r.
  - unfold addFrame at 2. destruct (safeAccessFrameDocument f) as [x|]; simpl; [|apply IH].
    intros H. unfold docSetAdd.
    destruct (docSetHas acc x) eqn:E.
    + exfalso. apply docSetHas_ids in E.
      rewrite fmap_app, fmap_cons in H. apply NoDup_app in H as (_ & H & _).
      apply (H (doc_id x) E). left.
    + rewrite IH; rewrite <- app_assoc; [reflexivity | exact H].
Qed.

Lemma scanSpans_markers (spans : list Element) :
  scanSpans spans = head (omap Spec.markerOf spans).
Proof.
  induction spans as [|e r IH]; [reflexivity|].
  simpl. unfold Spec.markerOf at 1. fold WRONG_MARKER CORRECT_MARKER.
  destruct (jsstring_eqb (trim (textContent e)) WRONG_MARKER); [reflexivity|].
  destruct (jsstring_eqb (trim (textContent e)) CORRECT_MARKER); [reflexivity|].
  exact IH.
Qed.

Lemma scanDocuments_markers (docs : list Document) :
  scanDocuments docs =
  head (omap Spec.markerOf
          (flat_map (fun d => querySelectorAll d RESULT_ICON_SELECTOR) docs)).
Proof.
  induction docs as [|d r IH]; [reflexivity|].
  simpl. rewrite omap_app, scanSpans_markers.
  destruct (omap Spec.markerOf (querySelectorAll d RESULT_ICON_SELECTOR)); simpl.
  - exact IH.
  - reflexivity.
Qed.

(** The first defined value of [f] along a list, with what lies before. *)
Lemma head_omap_Some {A B : Type} (f : A -> option B) (l : list A) (b : B) :
  head (omap f l) = Some b <->
  exists pre x post, l = pre ++ x :: post
                     /\ Forall (fun y => f y = None) pre /\ f x = Some b.
Proof.
  induction l as [|a r IH]; simpl.
  - split; [discriminate|]. intros (pre & x & post & E & _).
    destruct pre; discriminate.
  - destruct (f a) as [b'|] eqn:Ea; simpl.
    + split.
      * intros [= <-]. exists [], a, r. repeat split; [constructor | exact Ea].
      * intros (pre & x & post & E & Hpre & Hx).
        destruct pre as [|y pre]; simpl in E; injection E as <- ->.
        -- congruence.
        -- inversion Hpre; subst. congruence.
    + rewrite IH. split.
      * intros (pre & x & post & -> & Hpre & Hx).
        exists (a :: pre), x, post. repeat split; [constructor; assumption | exact Hx].
      * intros (pre & x & post & E & Hpre & Hx).
        destruct pre as [|y pre]; simpl in E; injection E as <- ->.
        -- congruence.
        -- inversion Hpre; subst. exists pre, x, post. repeat split; assumption.
Qed.

Lemma head_omap_None {A B : Type} (f : A -> option B) (l : list A) :
  head (omap f l) = None <-> Forall (fun y => f y = None) l.
Proof.
  induction l as [|a r IH]; simpl.
  - split; [constructor | reflexivity].
  - destruct (f a) eqn:Ea; simpl.
    + split; [discriminate|]. intros H. inversion H; subst. congruence.
    + rewrite IH. split.
      * intros H. constructor; assumption.
      * intros H. inversion H; subst. assumption.
Qed.

(** C2. The candidate documents are the top document followed by the
    documents of the iframes that can be read (a frame whose access throws
    is skipped); the detector walks the result-icon elements document by
    document and in document order, and the first element whose trimmed
    text is the glyph J or q decides: wrong for J, correct for q; with no
    such element in any candidate document the outcome is unknown. *)
Theorem C2_getResultState_first_marker_wins (page : Page) :
  let candidates := getAllCandidateDocuments page in
  (exists rest, candidates = document page :: rest)
  /\ (forall d, d ∈ candidates ->
                d = document page \/ d ∈ Spec.accessibleFrameDocuments page)
  /\ (forall d, d ∈ Spec.accessibleFrameDocuments page ->
                docSetHas candidates d = true)
  /\ (NoDup (doc_id <$> (document page :: Spec.accessibleFrameDocuments page)) ->
      candidates = document page :: Spec.accessibleFrameDocuments page)
  /\ (forall r : ResultState,
        getResultState page = Some r <->
        exists pre e post,
          Spec.scanOrder page = pre ++ e :: post
          /\ Forall (fun x => Spec.markerOf x = None) pre
          /\ Spec.markerOf e = Some r)
  /\ (getResultState page = None <->
      Forall (fun x => Spec.markerOf x = None) (Spec.scanOrder page)).
Proof.
  cbv zeta. unfold Spec.accessibleFrameDocuments.
  rewrite <- safeAccess_omap.
  change (getAllCandidateDocuments page)
    with (fold_left addFrame (querySelectorAll (document page) IFRAME_SELECTOR)
            [document page]).
  refine (conj _ (conj _ (conj _ (conj _ (conj _ _))))).
  - apply (candidates_prefix _ [document page]).
  - intros d H. apply candidates_sound in H as [H|H]; [|right; exact H].
    left. apply list_elem_of_singleton in H. exact H.
  - intros d H. apply candidates_complete, H.
  - intros H. apply (candidates_exact _ [document page]), H.
  - intros r. unfold getResultState. rewrite scanDocuments_markers.
    apply head_omap_Some.
  - unfold getResultState. rewrite scanDocuments_markers.
    apply head_omap_None.
Qed.

End ResultDetector.

(** ** The signature as JSON text *)

Section Json.

Local Open Scope N_scope.

Lemma unhex_hex (d : N) : d < 16 -> unhexDigit (hexDigit d) = d.
Proof.
  intros H. unfold unhexDigit, hexDigit.
  destruct (d <? 10) eqn:E.
  - apply N.ltb_lt in E. assert ((48 + d <? 58) = true) as -> by (apply N.ltb_lt; lia). lia.
  - apply N.ltb_ge in E. assert ((87 + d <? 58) = false) as -> by (apply N.ltb_ge; lia). lia.
Qed.

Lemma unicodeEscape_value (c : N) :
  c < 65536 ->
  4096 * unhexDigit (hexDigit ((c / 4096) mod 16))
  + 256 * unhexDigit (hexDigit ((c / 256) mod 16))
  + 16 * unhexDigit (hexDigit ((c / 16) mod 16))
  + unhexDigit (hexDigit (c mod 16)) = c.
Proof.
  intros H.
  rewrite !unhex_hex by (apply N.mod_lt; discriminate).
  pose proof (N.div_mod c 16 ltac:(discriminate)).
  pose proof (N.div_mod (c / 16) 16 ltac:(discriminate)).
  pose proof (N.div_mod (c / 16 / 16) 16 ltac:(discriminate)).
  pose proof (N.mod_lt c 16 ltac:(discriminate)).
  pose proof (N.mod_lt (c / 16) 16 ltac:(discriminate)).
  pose proof (N.mod_lt (c / 16 / 16) 16 ltac:(discriminate)).
  replace (c / 256) with (c / 16 / 16) by (rewrite N.Div0.div_div; reflexivity).
  replace (c / 4096) with (c / 16 / 16 / 16) by (rewrite !N.Div0.div_div; reflexivity).
  assert (c / 16 / 16 / 16 < 16).
  { apply N.Div0.div_lt_upper_bound. apply N.Div0.div_lt_upper_bound.
    apply N.Div0.div_lt_upper_bound. exact H. }
  rewrite (N.mod_small (c / 16 / 16 / 16) 16) by assumption.
  pose proof (N.div_mod (c / 16 / 16 / 16) 16 ltac:(discriminate)).
  lia.
Qed.

Lemma unquote_escape (c : N) (r : jsstring) :
  c < 65536 ->
  unquoteBody (unicodeEscape c ++ r) = consDecoded c (unquoteBody r).
Proof.
  intros H. unfold unicodeEscape. cbn [app unquoteBody N.eqb Pos.eqb].
  rewrite unicodeEscape_value by exact H. reflexivity.
Qed.


Lemma unquote_raw (c : N) (r : jsstring) :
  c <> 34 -> c <> 92 ->
  unquoteBody (c :: r) = consDecoded c (unquoteBody r).
Proof.
  intros H1 H2. cbn [unquoteBody].
  apply N.eqb_neq in H1, H2. rewrite H1, H2. reflexivity.
Qed.

Lemma unquote_quoteUnit (c : N) (r : jsstring) :
  isHighSurrogate c = false ->
  unquoteBody (quoteUnit c ++ r) = consDecoded c (unquoteBody r).
Proof.
  intros Hh. unfold quoteUnit.
  destruct (c =? 8) eqn:E8; [apply N.eqb_eq in E8; subst; reflexivity|].
  destruct (c =? 9) eqn:E9; [apply N.eqb_eq in E9; subst; reflexivity|].
  destruct (c =? 10) eqn:E10; [apply N.eqb_eq in E10; subst; reflexivity|].
  destruct (c =? 12) eqn:E12; [apply N.eqb_eq in E12; subst; reflexivity|].
  destruct (c =? 13) eqn:E13; [apply N.eqb_eq in E13; subst; reflexivity|].
  destruct (c =? 34) eqn:E34; [apply N.eqb_eq in E34; subst; reflexivity|].
  destruct (c =? 92) eqn:E92; [apply N.eqb_eq in E92; subst; reflexivity|].
  rewrite Hh. destruct (c <? 32) eqn:E32; cbn [orb].
  - apply unquote_escape. apply N.ltb_lt in E32. lia.
  - destruct (isLowSurrogate c) eqn:El.
    + apply unquote_escape. unfold isLowSurrogate in El.
      apply andb_true_iff in El as [_ El]. apply N.leb_le in El. lia.
    + apply unquote_raw; apply N.eqb_neq; assumption.
Qed.

(** Reading back what [quoteJSONString] wrote gives the string, and stops
right after the closing quote. *)
Lemma unquote_quoteBody (s rest : jsstring) :
  unquoteBody (quoteBody s ++ 34 :: rest) = Some (s, rest).
Proof.
  remember (length s) as n eqn:Hn.
  assert (Hle : (length s <= n)%nat) by lia. clear Hn.
  revert s Hle. induction n as [|n IH]; intros s Hle.
  - destruct s; [reflexivity | simpl in Hle; lia].
  - destruct s as [|c r]; [reflexivity|]. cbn [quoteBody].
    destruct (isHighSurrogate c) eqn:Hc.
    + assert (Hc' : 55296 <= c <= 56319).
      { unfold isHighSurrogate in Hc. apply andb_true_iff in Hc as [H1 H2].
        apply N.leb_le in H1, H2. lia. }
      destruct r as [|d r'].
      * rewrite unquote_escape by lia. reflexivity.
      * destruct (isLowSurrogate d) eqn:Hd.
        -- assert (Hd' : 56320 <= d).
           { unfold isLowSurrogate in Hd. apply andb_true_iff in Hd as [H1 _].
             apply N.leb_le in H1. exact H1. }
           rewrite <- !app_comm_cons.
           rewrite unquote_raw by lia. rewrite unquote_raw by lia.
           rewrite IH by (cbn [length] in *; lia). reflexivity.
        -- rewrite <- app_assoc, unquote_escape by lia.
           rewrite IH by (cbn [length] in *; lia). reflexivity.
    + rewrite <- app_assoc, unquote_quoteUnit by exact Hc.
      rewrite IH by (cbn [length] in *; lia). reflexivity.
Qed.

Lemma quoteJSONString_prefix_free (a b r1 r2 : jsstring) :
  quoteJSONString a ++ r1 = quoteJSONString b ++ r2 -> a = b /\ r1 = r2.
Proof.
  unfold quoteJSONString. rewrite <- !app_comm_cons, <- !app_assoc.
  intros [= H]. simpl in H.
  pose proof (unquote_quoteBody a r1) as Ha.
  pose proof (unquote_quoteBody b r2) as Hb.
  rewrite H in Ha. rewrite Ha in Hb. injection Hb as -> ->. auto.
Qed.

Lemma quoteJSONString_injective (a b : jsstring) :
  quoteJSONString a = quoteJSONString b -> a = b.
Proof.
  intros H. apply (quoteJSONString_prefix_free a b [] []).
  rewrite !app_nil_r. exact H.
Qed.

Lemma serializeProperties_present (props : list (jsstring * option jsstring)) :
  serializeProperties props = serializeProperty <$> presentProperties props.
Proof.
  induction props as [|[k [v|]] r IH]; simpl; [reflexivity| |exact IH].
  rewrite IH. reflexivity.
Qed.

Lemma joinComma_cons (p : jsstring) (r : list jsstring) :
  joinComma (p :: r) = p ++ match r with [] => [] | _ => 44 :: joinComma r end.
Proof. destruct r; simpl; [symmetry; apply app_nil_r | reflexivity]. Qed.

Lemma cons_eq_inv (c d : N) (a b : jsstring) :
  c :: a = d :: b -> c = d /\ a = b.
Proof. intros [= -> ->]. auto. Qed.

Lemma joined_properties_injective (ps qs : list (jsstring * jsstring))
      (r1 r2 : jsstring) :
  joinComma (serializeProperty <$> ps) ++ 125 :: r1 =
  joinComma (serializeProperty <$> qs) ++ 125 :: r2 ->
  ps = qs /\ r1 = r2.
Proof.
  revert qs. induction ps as [|[k v] ps IH]; intros qs H.
  - destruct qs as [|[k' v'] qs]; [simpl in H; injection H as ->; auto|].
    rewrite fmap_cons, joinComma_cons in H. discriminate H.
  - destruct qs as [|[k' v'] qs].
    + rewrite fmap_cons, joinComma_cons in H. discriminate H.
    + rewrite !fmap_cons, !joinComma_cons in H.
      change (serializeProperty (k, v))
        with (quoteJSONString k ++ 58 :: quoteJSONString v) in H.
      change (serializeProperty (k', v'))
        with (quoteJSONString k' ++ 58 :: quoteJSONString v') in H.
      rewrite <- !app_assoc in H.
      apply quoteJSONString_prefix_free in H as [-> H].
      rewrite <- ?app_comm_cons in H. apply cons_eq_inv in H as [_ H].
      apply quoteJSONString_prefix_free in H as [-> H].
      destruct ps as [|p ps'], qs as [|q qs'].
      * apply cons_eq_inv in H as [_ ->]. auto.
      * rewrite fmap_cons in H. discriminate H.
      * rewrite fmap_cons in H. discriminate H.
      * rewrite <- ?app_comm_cons in H. apply cons_eq_inv in H as [_ H].
        apply IH in H as [-> ->]. auto.
Qed.

Lemma stringifyObject_injective (ps qs : list (jsstring * option jsstring)) :
  stringifyObject ps = stringifyObject qs ->
  presentProperties ps = presentProperties qs.
Proof.
  unfold stringifyObject. rewrite !serializeProperties_present.
  intros [= H]. apply (joined_properties_injective _ _ [] []) in H as [H _].
  exact H.
Qed.

Lemma signatureOf_fields (p q : ProblemLogPayload) :
  url p = url q -> problemText p = problemText q ->
  userAnswer p = userAnswer q -> resultText p = resultText q ->
  signatureOf p = signatureOf q.
Proof.
  intros H1 H2 H3 H4. unfold signatureOf. rewrite H1, H2, H3, H4.
  reflexivity.
Qed.

Lemma signatureOf_agree (p q : ProblemLogPayload) :
  signatureOf p = signatureOf q ->
  url p = url q /\ problemText p = problemText q
  /\ userAnswer p = userAnswer q /\ resultText p = resultText q.
Proof.
  unfold signatureOf. intros H. apply stringifyObject_injective in H.
  unfold presentProperties in H. cbn [omap list_omap snd fst] in H.
  destruct (problemText p), (problemText q), (userAnswer p), (userAnswer q),
    (resultText p), (resultText q); cbn in H;
    try (injection H; intros; subst; auto; fail);
    try (exfalso; injection H; intros; discriminate).
Qed.

(** X6. Two payloads have the same dedup signature exactly when they agree
on url, problem text, user answer and result text: the JSON text of the four
fields determines them, absent fields included. *)
Theorem signatureOf_injective (p q : ProblemLogPayload) :
  signatureOf p = signatureOf q <->
  url p = url q /\ problemText p = problemText q
  /\ userAnswer p = userAnswer q /\ resultText p = resultText q.
Proof.
  split.
  - apply signatureOf_agree.
  - intros (H1 & H2 & H3 & H4). apply signatureOf_fields; assumption.
Qed.

End Json.

(** ** The dedup gate *)

Section DedupGate.

Lemma jsstring_eqb_eq (a b : jsstring) : jsstring_eqb a b = true <-> a = b.
Proof. unfold jsstring_eqb. apply bool_decide_eq_true. Qed.

Lemma jsstring_eqb_refl (a : jsstring) : jsstring_eqb a a = true.
Proof. apply jsstring_eqb_eq. reflexivity. Qed.

Lemma jsstring_eqb_neq (a b : jsstring) : jsstring_eqb a b = false <-> a <> b.
Proof. unfold jsstring_eqb. apply bool_decide_eq_false. Qed.

Lemma setHas_elem (s : list jsstring) (x : jsstring) :
  setHas s x = true <-> x ∈ s.
Proof.
  unfold setHas. rewrite existsb_exists. split.
  - intros (y & Hy & E). apply jsstring_eqb_eq in E. subst.
    apply list_elem_of_In, Hy.
  - intros H. exists x. split; [apply list_elem_of_In, H | apply jsstring_eqb_refl].
Qed.

Lemma setHas_not_elem (s : list jsstring) (x : jsstring) :
  setHas s x = false <-> x ∉ s.
Proof.
  rewrite <- setHas_elem. destruct (setHas s x); split; congruence.
Qed.

Lemma setDelete_absent (s : list jsstring) (x : jsstring) :
  x ∉ s -> setDelete s x = s.
Proof.
  induction s as [|y r IH]; intros H; [reflexivity|].
  apply not_elem_of_cons in H as [Hne Hr]. simpl.
  apply jsstring_eqb_neq in Hne. rewrite Hne. simpl. rewrite IH; auto.
Qed.

Lemma setDelete_head (h : jsstring) (t : list jsstring) :
  NoDup (h :: t) -> setDelete (h :: t) h = t.
Proof.
  intros H. apply NoDup_cons in H as [Hh _]. simpl.
  rewrite jsstring_eqb_refl. simpl. apply setDelete_absent, Hh.
Qed.

Lemma signatureOf_not_empty (p : ProblemLogPayload) : signatureOf p <> [].
Proof. unfold signatureOf, stringifyObject. discriminate. Qed.

Lemma NoDup_snoc (s : list jsstring) (x : jsstring) :
  NoDup s -> x ∉ s -> NoDup (s ++ [x]).
Proof.
  intros Hs Hx. apply NoDup_app. repeat split.
  - exact Hs.
  - intros y Hy Hy'. apply list_elem_of_singleton in Hy' as ->. contradiction.
  - apply NoDup_singleton.
Qed.

(** Adding a new signature puts it last; what is evicted, if anything, is
    the head. *)
Lemma addAndEvict_cases (s : list jsstring) (x : jsstring) :
  NoDup s -> x ∉ s ->
  addAndEvict s x = s ++ [x] \/
  exists h t, s = h :: t /\ MAX_RECENT_LOGS < length (s ++ [x])
              /\ addAndEvict s x = t ++ [x].
Proof.
  intros Hs Hx. unfold addAndEvict.
  destruct (MAX_RECENT_LOGS <? length (s ++ [x])) eqn:E; [|left; reflexivity].
  apply Nat.ltb_lt in E.
  destruct s as [|h t]; [simpl in E; unfold MAX_RECENT_LOGS in E; lia|].
  cbn [app head]. destruct (truthy h); [|left; reflexivity].
  right. exists h, t. repeat split; [exact E|].
  apply (setDelete_head h (t ++ [x])).
  change (NoDup ((h :: t) ++ [x])). apply NoDup_snoc; assumption.
Qed.

Lemma addAndEvict_exact (s : list jsstring) (x : jsstring) :
  Spec.GateInv s -> x ∉ s ->
  addAndEvict s x =
  (if (length s <? MAX_RECENT_LOGS) then s else tail s) ++ [x].
Proof.
  intros (Hs & Hne & Hlen) Hx. unfold addAndEvict.
  rewrite length_app. cbn [length].
  destruct (length s <? MAX_RECENT_LOGS) eqn:E.
  - apply Nat.ltb_lt in E.
    destruct (MAX_RECENT_LOGS <? length s + 1) eqn:E'; [|reflexivity].
    apply Nat.ltb_lt in E'. lia.
  - apply Nat.ltb_ge in E.
    destruct (MAX_RECENT_LOGS <? length s + 1) eqn:E';
      [|apply Nat.ltb_ge in E'; lia].
    destruct s as [|h t]; [cbv in E; lia|].
    inversion Hne; subst. cbn [app head tail].
    destruct h; [contradiction|]. cbn [truthy].
    apply (setDelete_head _ (t ++ [x])).
    change (NoDup (((n :: h) :: t) ++ [x])). apply NoDup_snoc; assumption.
Qed.

Lemma GateInv_addAndEvict (s : list jsstring) (x : jsstring) :
  Spec.GateInv s -> x ∉ s -> x <> [] -> Spec.GateInv (addAndEvict s x).
Proof.
  intros H Hx Hxne. rewrite (addAndEvict_exact s x H Hx).
  destruct H as (Hs & Hne & Hlen).
  destruct (length s <? MAX_RECENT_LOGS) eqn:E.
  - apply Nat.ltb_lt in E. repeat split.
    + apply NoDup_snoc; assumption.
    + apply Forall_app. split; [exact Hne | repeat constructor; exact Hxne].
    + rewrite length_app. simpl. lia.
  - destruct s as [|h t]; [cbv in E; discriminate|]. cbn [tail].
    apply NoDup_cons in Hs as [Hh Ht]. inversion Hne; subst.
    apply not_elem_of_cons in Hx as [_ Hx]. repeat split.
    + apply NoDup_snoc; assumption.
    + apply Forall_app. split; [assumption | repeat constructor; exact Hxne].
    + rewrite length_app. simpl in *. lia.
Qed.

Lemma shouldLog_set (p : ProblemLogPayload) (st : State) :
  recentSignatures (snd (shouldLog p st)) =
  Spec.gateStep (recentSignatures st) (signatureOf p).
Proof.
  unfold shouldLog, Spec.gateStep.
  destruct (setHas (recentSignatures st) (signatureOf p)); reflexivity.
Qed.

Lemma shouldLog_verdict (p : ProblemLogPayload) (st : State) :
  fst (shouldLog p st) = negb (setHas (recentSignatures st) (signatureOf p)).
Proof.
  unfold shouldLog.
  destruct (setHas (recentSignatures st) (signatureOf p)); reflexivity.
Qed.

Lemma submitAll_set (mid : list ProblemLogPayload) (st : State) :
  recentSignatures (Spec.submitAll mid st) =
  fold_left Spec.gateStep (signatureOf <$> mid) (recentSignatures st).
Proof.
  revert st. induction mid as [|p r IH]; intros st; [reflexivity|].
  simpl. rewrite IH, shouldLog_set. reflexivity.
Qed.

Lemma NoDup_gateStep (s : list jsstring) (y : jsstring) :
  NoDup s -> NoDup (Spec.gateStep s y).
Proof.
  intros Hs. unfold Spec.gateStep. destruct (setHas s y) eqn:E; [exact Hs|].
  apply setHas_not_elem in E.
  destruct (addAndEvict_cases s y Hs E) as [->|(h & t & -> & _ & ->)].
  - apply NoDup_snoc; assumption.
  - apply NoDup_cons in Hs as [_ Ht]. apply not_elem_of_cons in E as [_ E].
    apply NoDup_snoc; assumption.
Qed.

(** A signature that is in the set stays there while fewer than 50
    others follow it. *)
Lemma gateStep_keeps (D A B : list jsstring) (x y : jsstring) :
  NoDup (A ++ x :: B) ->
  length D < MAX_RECENT_LOGS ->
  (forall z, z ∈ B -> z ∈ D) -> y ∈ D -> y <> x ->
  exists A' B', Spec.gateStep (A ++ x :: B) y = A' ++ x :: B'
                /\ (forall z, z ∈ B' -> z ∈ D).
Proof.
  intros Hs HD HB Hy Hyx. unfold Spec.gateStep.
  destruct (setHas (A ++ x :: B) y) eqn:E; [exists A, B; auto|].
  apply setHas_not_elem in E.
  assert (HB' : forall z, z ∈ B ++ [y] -> z ∈ D).
  { intros z Hz. apply elem_of_app in Hz as [Hz|Hz]; [auto|].
    apply list_elem_of_singleton in Hz as ->. exact Hy. }
  destruct (addAndEvict_cases _ y Hs E) as [->|(h & t & Eq & Hlen & ->)].
  - exists A, (B ++ [y]). rewrite <- app_assoc. auto.
  - destruct A as [|a A'].
    + exfalso. simpl in Eq. injection Eq as <- <-.
      assert (Hnd : NoDup (B ++ [y])).
      { apply NoDup_snoc.
        - simpl in Hs. apply NoDup_cons in Hs as [_ Hs]. exact Hs.
        - intros Hin. apply E. simpl. right. exact Hin. }
      pose proof (submseteq_length _ _ (NoDup_submseteq _ _ Hnd HB')) as Hle.
      simpl in Hlen. rewrite length_app in Hlen, Hle. simpl in Hlen, Hle. lia.
    + simpl in Eq. injection Eq as <- <-.
      exists A', (B ++ [y]). rewrite <- app_assoc. auto.
Qed.

Lemma fold_gateStep_keeps (D mid A B : list jsstring) (x : jsstring) :
  NoDup (A ++ x :: B) ->
  length D < MAX_RECENT_LOGS ->
  (forall z, z ∈ B -> z ∈ D) ->
  (forall y, y ∈ mid -> y ∈ D /\ y <> x) ->
  x ∈ fold_left Spec.gateStep mid (A ++ x :: B).
Proof.
  revert A B. induction mid as [|y r IH]; intros A B Hs HD HB Hmid; simpl.
  - apply elem_of_app. right. left.
  - destruct (Hmid y) as [Hy Hyx]; [left|].
    destruct (gateStep_keeps D A B x y Hs HD HB Hy Hyx) as (A' & B' & E & HB').
    pose proof (NoDup_gateStep _ y Hs) as Hs'. rewrite E in *.
    apply IH; auto. intros z Hz. apply Hmid. right. exact Hz.
Qed.

Lemma distinct_bound (l k : list jsstring) :
  NoDup l -> (forall x, x ∈ l -> x ∈ k) -> length l <= length (remove_dups k).
Proof.
  intros Hl Hsub. apply submseteq_length, NoDup_submseteq; [exact Hl|].
  intros x Hx. apply elem_of_remove_dups, Hsub, Hx.
Qed.

(** A signature in the set stays there as long as fewer than 50 distinct
    other signatures are inserted after it: [C] holds those already behind
    it. *)
Lemma inserted_keeps (sig : jsstring) (mid : list ProblemLogPayload) :
  forall (st : State) (B C : list jsstring),
    recentSignatures st = B ++ sig :: C ->
    Spec.GateInv (recentSignatures st) ->
    length (remove_dups (C ++ Spec.others sig (Spec.inserted mid st))) < 50 ->
    sig ∈ recentSignatures (Spec.submitAll mid st).
Proof.
  induction mid as [|q r IH]; intros st B C Hs Hinv Hcount.
  - cbn. rewrite Hs. apply elem_of_app; right; apply list_elem_of_here.
  - cbn [Spec.submitAll Spec.inserted] in *.
    rewrite shouldLog_verdict in Hcount.
    pose proof (shouldLog_set q st) as Hset. unfold Spec.gateStep in Hset.
    assert (Hsig : sig ∈ recentSignatures st)
      by (rewrite Hs; apply elem_of_app; right; apply list_elem_of_here).
    destruct (setHas (recentSignatures st) (signatureOf q)) eqn:E;
      cbn [negb] in Hcount.
    + apply (IH _ B C); [rewrite Hset; exact Hs | rewrite Hset; exact Hinv
                        | exact Hcount].
    + apply setHas_not_elem in E.
      assert (Hne : signatureOf q <> sig)
        by (intros Heq; rewrite Heq in E; contradiction).
      assert (Hinv' : Spec.GateInv (recentSignatures (snd (shouldLog q st)))).
      { rewrite Hset. apply GateInv_addAndEvict;
          [exact Hinv | exact E | apply signatureOf_not_empty]. }
      unfold Spec.others in Hcount. cbn [List.filter] in Hcount.
      apply jsstring_eqb_neq in Hne. rewrite Hne in Hcount. cbn [negb] in Hcount.
      fold (Spec.others sig (Spec.inserted r (snd (shouldLog q st)))) in Hcount.
      destruct (addAndEvict_cases _ _ (proj1 Hinv) E)
        as [Eadd|(h & t & Eh & Hfull & Eadd)].
      * apply (IH _ B (C ++ [signatureOf q])).
        -- rewrite Hset, Eadd, Hs, <- app_assoc. reflexivity.
        -- exact Hinv'.
        -- rewrite <- app_assoc. exact Hcount.
      * destruct B as [|b B'].
        -- exfalso. cbn in Hs. rewrite Hs in Eh. injection Eh as <- <-.
           rewrite Hset, Eadd in Hinv'. destruct Hinv' as (Hnd & _).
           rewrite Hs, length_app in Hfull. cbn [length] in Hfull.
           unfold MAX_RECENT_LOGS in Hfull.
           assert (Hle : length (C ++ [signatureOf q])
                         <= length (remove_dups
                                      (C ++ signatureOf q
                                         :: Spec.others sig
                                              (Spec.inserted r (snd (shouldLog q st)))))).
           { apply distinct_bound; [exact Hnd|].
             intros x Hx. apply elem_of_app in Hx as [Hx|Hx].
             - apply elem_of_app. left. exact Hx.
             - apply list_elem_of_singleton in Hx as ->.
               apply elem_of_app. right. apply list_elem_of_here. }
           rewrite length_app in Hle. cbn [length] in Hle. lia.
        -- apply (IH _ B' (C ++ [signatureOf q])).
           ++ rewrite Hset, Eadd. rewrite Hs in Eh. cbn in Eh.
              injection Eh as _ <-. rewrite <- app_assoc. reflexivity.
           ++ exact Hinv'.
           ++ rewrite <- app_assoc. exact Hcount.
Qed.

(** C3. The signature is computed from url, problemText, userAnswer and
    resultText alone: two payloads have the same signature exactly when they
    agree on these four fields.  A signature already in the set gives false
    and leaves the set as it was; a new one is appended, the oldest entry
    leaves when the set had 50 entries, and the answer is true.  Two calls
    with one signature, with fewer than 50 distinct other signatures inserted
    by the calls in between, whatever else those calls submit, cannot both
    answer true. *)
Theorem C3_shouldLog_dedup_fifo (st : State) (payload : ProblemLogPayload) :
  Spec.GateInv (recentSignatures st) ->
  let s := recentSignatures st in
  let signature := signatureOf payload in
  (forall p' : ProblemLogPayload,
      signatureOf p' = signature <->
      url p' = url payload /\ problemText p' = problemText payload
      /\ userAnswer p' = userAnswer payload
      /\ resultText p' = resultText payload)
  /\ (signature ∈ s ->
      fst (shouldLog payload st) = false
      /\ recentSignatures (snd (shouldLog payload st)) = s)
  /\ (signature ∉ s ->
      fst (shouldLog payload st) = true
      /\ recentSignatures (snd (shouldLog payload st)) =
         (if length s <? 50 then s else tail s) ++ [signature])
  /\ Spec.GateInv (recentSignatures (snd (shouldLog payload st)))
  /\ (forall (mid : list ProblemLogPayload) (again : ProblemLogPayload),
      signatureOf again = signature ->
      length (remove_dups
                (Spec.others signature
                   (Spec.inserted mid (snd (shouldLog payload st))))) < 50 ->
      ~ (fst (shouldLog payload st) = true
         /\ fst (shouldLog again
                   (Spec.submitAll mid (snd (shouldLog payload st)))) = true)).
Proof.
  intros Hinv. cbv zeta.
  assert (Hs : NoDup (recentSignatures st)) by apply Hinv.
  assert (Hafter : Spec.GateInv (recentSignatures (snd (shouldLog payload st)))).
  { rewrite shouldLog_set. unfold Spec.gateStep.
    destruct (setHas (recentSignatures st) (signatureOf payload)) eqn:E;
      [exact Hinv|].
    apply GateInv_addAndEvict; [exact Hinv | | apply signatureOf_not_empty].
    apply setHas_not_elem, E. }
  refine (conj _ (conj _ (conj _ (conj Hafter _)))).
  - intros p'. split.
    + apply signatureOf_agree.
    + intros (E1 & E2 & E3 & E4). apply signatureOf_fields; assumption.
  - intros Hin. rewrite shouldLog_verdict, shouldLog_set. unfold Spec.gateStep.
    apply setHas_elem in Hin. rewrite Hin. split; reflexivity.
  - intros Hout. rewrite shouldLog_verdict, shouldLog_set. unfold Spec.gateStep.
    pose proof Hout as Hout'. apply setHas_not_elem in Hout'. rewrite Hout'.
    split; [reflexivity|]. apply addAndEvict_exact; assumption.
  - intros mid again Eagain Hcount [H1 H2].
    rewrite shouldLog_verdict in H1, H2. apply negb_true_iff in H1, H2.
    apply setHas_not_elem in H2. apply H2. clear H2. rewrite Eagain.
    pose proof (shouldLog_set payload st) as Hset.
    unfold Spec.gateStep in Hset. rewrite H1 in Hset.
    apply setHas_not_elem in H1.
    assert (exists A, addAndEvict (recentSignatures st) (signatureOf payload)
                      = A ++ [signatureOf payload]) as (A & EA).
    { destruct (addAndEvict_cases _ _ Hs H1) as [->|(h & t & _ & _ & ->)];
        eexists; reflexivity. }
    apply (inserted_keeps _ mid _ A []).
    + rewrite Hset. exact EA.
    + exact Hafter.
    + exact Hcount.
Qed.

End DedupGate.

(** ** Timers and slots *)

Section Timers.

Local Open Scope positive_scope.

Ltac lookups :=
  repeat (rewrite lookup_insert in * || rewrite lookup_delete in *);
  repeat case_decide; subst; simplify_eq.

Lemma TimerInv_initial : Spec.TimerInv initial.
Proof.
  unfold Spec.TimerInv, initial; cbn.
  repeat split; intros; try rewrite lookup_empty in *;
    try discriminate; try (destruct H; discriminate).
Qed.

Lemma TimerInv_scheduleResultScan (st : State) :
  Spec.TimerInv st -> Spec.TimerInv (scheduleResultScan st).
Proof.
  intros Hinv. pose proof Hinv as (I1 & I2 & I3 & I4 & I5 & I6).
  unfold scheduleResultScan.
  destruct (pendingSubmission st) eqn:Ep; [|exact Hinv].
  destruct (scanTimeout st) eqn:Es; [exact Hinv|].
  unfold Spec.TimerInv; cbn. rewrite Ep.
  refine (conj _ (conj _ (conj _ (conj _ (conj _ _))))).
  - intros h due H. lookups; [reflexivity|]. apply I1 in H. congruence.
  - intros h due H. lookups. eauto.
  - intros h H. lookups; [lia|]. apply I3 in H. lia.
  - intros h [= <-]. lookups. eauto.
  - intros h H. destruct (I5 h H) as [due Hd]. exists due. lookups; [|assumption].
    assert (nextHandle st < nextHandle st); [|lia]. apply I3. eauto.
  - exact I6.
Qed.

(** States that agree on the slots and on the browser's side. *)
Lemma TimerInv_same (st st' : State) :
  pendingSubmission st' = pendingSubmission st ->
  scanTimeout st' = scanTimeout st ->
  pendingTimeout st' = pendingTimeout st ->
  timers st' = timers st ->
  nextHandle st' = nextHandle st ->
  Spec.TimerInv st -> Spec.TimerInv st'.
Proof.
  unfold Spec.TimerInv. intros -> -> -> -> ->. auto.
Qed.

Lemma TimerInv_clearPending (st : State) :
  (forall h due, timers st !! h = Some (due, ScanCallback) ->
                 scanTimeout st = Some h) ->
  (forall h due, timers st !! h = Some (due, ExpiryCallback) ->
                 pendingTimeout st = Some h) ->
  (forall h, is_Some (timers st !! h) -> h < nextHandle st) ->
  (forall h, scanTimeout st = Some h ->
             exists due, timers st !! h = Some (due, ScanCallback)) ->
  (forall h due, pendingTimeout st = Some h ->
                 timers st !! h <> Some (due, ScanCallback)) ->
  Spec.TimerInv (clearPending st).
Proof.
  intros I1 I2 I3 I4 I5. unfold clearPending, Spec.TimerInv. cbn.
  destruct (pendingTimeout st) as [he|] eqn:Ee; cbn.
  - refine (conj _ (conj _ (conj _ (conj _ (conj _ _))))).
    + intros h due H. lookups. eauto.
    + intros h due H. lookups. apply I2 in H. congruence.
    + intros h H. lookups. destruct H; discriminate. auto.
    + intros h H. destruct (I4 h H) as [due Hd]. exists due. lookups; [|assumption].
      exfalso. apply (I5 _ due eq_refl). exact Hd.
    + discriminate.
    + tauto.
  - rewrite Ee. refine (conj _ (conj _ (conj _ (conj _ (conj _ _))))).
    + exact I1.
    + intros h due H. apply I2 in H. congruence.
    + exact I3.
    + exact I4.
    + discriminate.
    + tauto.
Qed.

Lemma TimerInv_startPendingTimeout (p : PendingSubmission) (st : State) :
  Spec.TimerInv st ->
  Spec.TimerInv (startPendingTimeout (set_pendingSubmission (Some p) st)).
Proof.
  intros (I1 & I2 & I3 & I4 & I5 & I6).
  unfold startPendingTimeout, Spec.TimerInv. cbn.
  destruct (pendingTimeout st) as [he|] eqn:Ee; cbn.
  - destruct (I5 he eq_refl) as [de Hde].
    refine (conj _ (conj _ (conj _ (conj _ (conj _ _))))).
    + intros h due H. lookups. eauto.
    + intros h due H. lookups; [reflexivity|]. apply I2 in H. congruence.
    + intros h H. lookups; [lia|]. apply I3 in H. lia.
    + intros h H. destruct (I4 h H) as [due Hd]. exists due. lookups.
      * assert (nextHandle st < nextHandle st); [|lia]. apply I3. eauto.
      * assumption.
    + intros h [= <-]. lookups. eauto.
    + split; discriminate.
  - refine (conj _ (conj _ (conj _ (conj _ (conj _ _))))).
    + intros h due H. lookups. eauto.
    + intros h due H. lookups; [reflexivity|]. apply I2 in H. congruence.
    + intros h H. lookups; [lia|]. apply I3 in H. lia.
    + intros h H. destruct (I4 h H) as [due Hd]. exists due. lookups; [|assumption].
      assert (nextHandle st < nextHandle st); [|lia]. apply I3. eauto.
    + intros h [= <-]. lookups. eauto.
    + split; discriminate.
Qed.

Lemma TimerInv_handleSubmitClick (page : Page) (st : State) :
  Spec.TimerInv st -> Spec.TimerInv (handleSubmitClick page st).
Proof.
  intros H. unfold handleSubmitClick.
  apply TimerInv_scheduleResultScan, TimerInv_startPendingTimeout, H.
Qed.

Lemma TimerInv_checkForResult (page : Page) (st : State) :
  Spec.TimerInv st -> Spec.TimerInv (checkForResult page st).
Proof.
  intros H. unfold checkForResult.
  destruct (pendingSubmission st) as [pending|]; [|exact H].
  destruct (getResultState page) as [result|]; [|exact H].
  assert (Hc : Spec.TimerInv (clearPending st)).
  { destruct H as (I1 & I2 & I3 & I4 & I5 & I6).
    apply TimerInv_clearPending; auto.
    intros h due Hh Hd. destruct (I5 h Hh) as [due' Hd']. congruence. }
  destruct result; [exact Hc|].
  unfold shouldLog.
  destruct (setHas _ _); cbn; eapply TimerInv_same; try exact Hc; reflexivity.
Qed.

Lemma TimerInv_step (e : Event) (st st' : State) :
  step e st = Some st' -> Spec.TimerInv st -> Spec.TimerInv st'.
Proof.
  intros Hstep Hinv. destruct e as [page| |h page|dt]; cbn in Hstep.
  - injection Hstep as <-. apply TimerInv_handleSubmitClick, Hinv.
  - injection Hstep as <-. apply TimerInv_scheduleResultScan, Hinv.
  - destruct (timers st !! h) as [[due cb]|] eqn:Eh; [|discriminate].
    destruct (due <=? clock st)%Z; [|discriminate]. injection Hstep as <-.
    destruct Hinv as (I1 & I2 & I3 & I4 & I5 & I6).
    destruct cb; cbn.
    + apply TimerInv_checkForResult. unfold Spec.TimerInv. cbn.
      refine (conj _ (conj _ (conj _ (conj _ (conj _ _))))).
      * intros h' due' H. lookups. apply I1 in H. apply I1 in Eh. congruence.
      * intros h' due' H. lookups. eauto.
      * intros h' H. lookups; [destruct H; discriminate|]. auto.
      * discriminate.
      * intros h' H. destruct (I5 h' H) as [due' Hd]. exists due'.
        lookups. assumption.
      * exact I6.
    + apply TimerInv_clearPending; cbn.
      * intros h' due' H. lookups. eauto.
      * intros h' due' H. lookups. eauto.
      * intros h' H. lookups; [destruct H; discriminate|]. auto.
      * intros h' H. destruct (I4 h' H) as [due' Hd]. exists due'.
        lookups. assumption.
      * intros h' due' H Hd. lookups. apply I2 in Eh. apply I1 in Hd.
        destruct (I4 _ Hd) as [d1 H1]. destruct (I5 _ H) as [d2 H2]. congruence.
  - destruct (0 <=? dt)%Z; [|discriminate]. injection Hstep as <-.
    eapply TimerInv_same; try exact Hinv; reflexivity.
Qed.

Lemma TimerInv_run (events : list Event) (st st' : State) :
  run events st = Some st' -> Spec.TimerInv st -> Spec.TimerInv st'.
Proof.
  revert st. induction events as [|e r IH]; intros st; simpl.
  - intros [= <-]. auto.
  - destruct (step e st) as [st1|] eqn:E; [|discriminate].
    intros Hr Hinv. apply (IH st1 Hr). apply (TimerInv_step e st st1 E Hinv).
Qed.

Lemma reachable_TimerInv (st : State) : Spec.reachable st -> Spec.TimerInv st.
Proof.
  intros [events H]. apply (TimerInv_run events initial st H TimerInv_initial).
Qed.
End Timers.

(** ** The journal along quiet events *)

Section Journal.

Lemma builds_app (a b : list Action) :
  Spec.builds (a ++ b) = Spec.builds a ++ Spec.builds b.
Proof. apply omap_app. Qed.

Lemma gated_app (a b : list Action) :
  Spec.gated (a ++ b) = Spec.gated a ++ Spec.gated b.
Proof. apply omap_app. Qed.

Lemma sends_app (a b : list Action) :
  Spec.sends (a ++ b) = Spec.sends a ++ Spec.sends b.
Proof. apply omap_app. Qed.

(** What [clearPending] leaves. *)
Lemma clearPending_spec (st : State) :
  pendingSubmission (clearPending st) = None
  /\ pendingTimeout (clearPending st) = None
  /\ scanTimeout (clearPending st) = scanTimeout st
  /\ recentSignatures (clearPending st) = recentSignatures st
  /\ clock (clearPending st) = clock st
  /\ nextHandle (clearPending st) = nextHandle st
  /\ timers (clearPending st) =
     match pendingTimeout st with
     | Some h => delete h (timers st)
     | None => timers st
     end
  /\ journal (clearPending st) =
     journal st ++ match pendingTimeout st with
                   | Some h => [ClearTimeout h]
                   | None => []
                   end.
Proof.
  unfold clearPending. cbn.
  destruct (pendingTimeout st) eqn:E; cbn; rewrite ?E, ?app_nil_r; repeat split.
Qed.

(** What [scheduleResultScan] leaves untouched. *)
Lemma scheduleResultScan_keeps (st : State) :
  pendingSubmission (scheduleResultScan st) = pendingSubmission st
  /\ pendingTimeout (scheduleResultScan st) = pendingTimeout st
  /\ recentSignatures (scheduleResultScan st) = recentSignatures st
  /\ clock (scheduleResultScan st) = clock st
  /\ Spec.builds (journal (scheduleResultScan st)) = Spec.builds (journal st)
  /\ Spec.gated (journal (scheduleResultScan st)) = Spec.gated (journal st)
  /\ Spec.sends (journal (scheduleResultScan st)) = Spec.sends (journal st).
Proof.
  unfold scheduleResultScan.
  destruct (pendingSubmission st) eqn:Ep; [|rewrite Ep; repeat split].
  destruct (scanTimeout st); [rewrite Ep; repeat split|]. cbn.
  rewrite builds_app, gated_app, sends_app, Ep. cbn. rewrite !app_nil_r.
  repeat split.
Qed.

(** A scan that finds no marker changes nothing. *)
Lemma checkForResult_unknown (page : Page) (st : State) :
  getResultState page = None -> checkForResult page st = st.
Proof.
  intros H. unfold checkForResult. rewrite H.
  destruct (pendingSubmission st); reflexivity.
Qed.

Lemma checkForResult_idle (page : Page) (st : State) :
  pendingSubmission st = None -> checkForResult page st = st.
Proof. intros H. unfold checkForResult. rewrite H. reflexivity. Qed.


Lemma sameLog_refl (st : State) : sameLog st st.
Proof. repeat split. Qed.

Lemma sameLog_trans (a b c : State) : sameLog a b -> sameLog b c -> sameLog a c.
Proof.
  intros (A1 & A2 & A3 & A4) (B1 & B2 & B3 & B4).
  repeat split; congruence.
Qed.

Lemma clearPending_sameLog (st : State) : sameLog st (clearPending st).
Proof.
  destruct (clearPending_spec st) as (_ & _ & _ & Hr & _ & _ & _ & Hj).
  unfold sameLog. rewrite Hj, Hr, builds_app, gated_app, sends_app.
  destruct (pendingTimeout st); cbn; rewrite ?app_nil_r; repeat split.
Qed.

(** A quiet event builds, gates and sends nothing, and only moves the
    clock forward. *)
Lemma quiet_step_log (e : Event) (st st' : State) :
  step e st = Some st' -> Spec.quiet e = true ->
  sameLog st st' /\ (clock st <= clock st')%Z.
Proof.
  intros Hstep Hq. destruct e as [page| |h page|dt]; cbn in Hstep, Hq.
  - discriminate.
  - injection Hstep as <-.
    destruct (scheduleResultScan_keeps st) as (_ & _ & Hr & Hc & Hb & Hg & Hs).
    unfold sameLog. rewrite Hc. repeat split; auto. lia.
  - destruct (timers st !! h) as [[due cb]|]; [|discriminate].
    destruct (due <=? clock st)%Z; [|discriminate]. injection Hstep as <-.
    destruct (getResultState page) eqn:Er; [discriminate|].
    destruct cb; cbn.
    + rewrite (checkForResult_unknown _ _ Er). cbn. split; [repeat split | lia].
    + match goal with |- sameLog _ (clearPending ?s) /\ _ =>
        pose proof (clearPending_sameLog s) as Hl;
        destruct (clearPending_spec s) as (_ & _ & _ & _ & Hc & _)
      end.
      rewrite Hc. cbn. split; [exact Hl | lia].
  - destruct (0 <=? dt)%Z eqn:Ed; [|discriminate]. injection Hstep as <-.
    cbn. split; [repeat split | lia].
Qed.

(** While the expiry timer is armed, a quiet event either leaves it armed
    or is that timer firing, no earlier than its due time. *)
Lemma quiet_step_armed (e : Event) (st st' : State)
      (p : PendingSubmission) (he : positive) (due : Z) :
  Spec.TimerInv st -> Armed st p he due ->
  step e st = Some st' -> Spec.quiet e = true ->
  Armed st' p he due
  \/ (pendingSubmission st' = None /\ pendingTimeout st' = None
      /\ (due <= clock st')%Z).
Proof.
  intros (I1 & I2 & I3 & I4 & I5 & I6) (Ap & At & Ah) Hstep Hq.
  destruct e as [page| |h page|dt]; cbn in Hstep, Hq.
  - discriminate.
  - injection Hstep as <-. left. unfold Armed, scheduleResultScan.
    rewrite Ap. destruct (scanTimeout st); [auto|]. cbn.
    repeat split; auto. rewrite lookup_insert_ne; [exact Ah|].
    assert (he < nextHandle st)%positive by (apply I3; eauto). lia.
  - destruct (timers st !! h) as [[d cb]|] eqn:Eh; [|discriminate].
    destruct (d <=? clock st)%Z eqn:Ed; [|discriminate]. injection Hstep as <-.
    destruct (getResultState page) eqn:Er; [discriminate|].
    destruct cb; cbn.
    + rewrite (checkForResult_unknown _ _ Er). left. unfold Armed. cbn.
      repeat split; auto. rewrite lookup_delete_ne; [exact Ah|]. congruence.
    + right. apply I2 in Eh as Eh'. assert (h = he) as -> by congruence.
      match goal with |- pendingSubmission (clearPending ?s) = _ /\ _ =>
        destruct (clearPending_spec s) as (Hp & Ht & _ & _ & Hc & _)
      end.
      rewrite Hp, Ht, Hc. cbn. repeat split. apply Z.leb_le in Ed.
      congruence.
  - destruct (0 <=? dt)%Z eqn:Ed; [|discriminate]. injection Hstep as <-.
    left. unfold Armed. cbn. auto.
Qed.

(** Without a click, an idle script stays idle. *)
Lemma quiet_step_idle (e : Event) (st st' : State) :
  pendingSubmission st = None -> pendingTimeout st = None ->
  step e st = Some st' -> Spec.quiet e = true ->
  pendingSubmission st' = None /\ pendingTimeout st' = None.
Proof.
  intros Hp Ht Hstep Hq. destruct e as [page| |h page|dt]; cbn in Hstep, Hq.
  - discriminate.
  - injection Hstep as <-. unfold scheduleResultScan. rewrite Hp. auto.
  - destruct (timers st !! h) as [[d cb]|] eqn:Eh; [|discriminate].
    destruct (d <=? clock st)%Z eqn:Ed; [|discriminate]. injection Hstep as <-.
    destruct cb; cbn.
    + rewrite checkForResult_idle; auto.
    + match goal with |- pendingSubmission (clearPending ?s) = _ /\ _ =>
        destruct (clearPending_spec s) as (Hp' & Ht' & _)
      end. auto.
  - destruct (0 <=? dt)%Z eqn:Ed; [|discriminate]. injection Hstep as <-. auto.
Qed.

Lemma quiet_run_idle (mids : list Event) (st st' : State) :
  pendingSubmission st = None -> pendingTimeout st = None ->
  run mids st = Some st' -> forallb Spec.quiet mids = true ->
  sameLog st st' /\ pendingSubmission st' = None
  /\ pendingTimeout st' = None /\ (clock st <= clock st')%Z.
Proof.
  revert st. induction mids as [|e r IH]; intros st Hp Ht Hrun Hq; simpl in *.
  - injection Hrun as <-. repeat split; auto. lia.
  - destruct (step e st) as [st1|] eqn:E; [|discriminate].
    apply andb_true_iff in Hq as [Hq1 Hq2].
    destruct (quiet_step_log e st st1 E Hq1) as [Hl Hc].
    destruct (quiet_step_idle e st st1 Hp Ht E Hq1) as [Hp1 Ht1].
    destruct (IH st1 Hp1 Ht1 Hrun Hq2) as (Hl' & Hp' & Ht' & Hc').
    split; [eapply sameLog_trans; eassumption|]. repeat split; auto. lia.
Qed.

Lemma quiet_run (mids : list Event) (st st' : State)
      (p : PendingSubmission) (he : positive) (due : Z) :
  Spec.TimerInv st -> Armed st p he due ->
  run mids st = Some st' -> forallb Spec.quiet mids = true ->
  sameLog st st'
  /\ (Armed st' p he due
      \/ (pendingSubmission st' = None /\ pendingTimeout st' = None
          /\ (due <= clock st')%Z)).
Proof.
  revert st. induction mids as [|e r IH]; intros st Hinv Ha Hrun Hq; simpl in *.
  - injection Hrun as <-. split; [apply sameLog_refl | left; exact Ha].
  - destruct (step e st) as [st1|] eqn:E; [|discriminate].
    apply andb_true_iff in Hq as [Hq1 Hq2].
    destruct (quiet_step_log e st st1 E Hq1) as [Hl Hc].
    pose proof (TimerInv_step e st st1 E Hinv) as Hinv1.
    destruct (quiet_step_armed e st st1 p he due Hinv Ha E Hq1) as [Ha1|(Hp & Ht & Hd)].
    + destruct (IH st1 Hinv1 Ha1 Hrun Hq2) as [Hl' Hres].
      split; [eapply sameLog_trans; eassumption | exact Hres].
    + destruct (quiet_run_idle r st1 st' Hp Ht Hrun Hq2) as (Hl' & Hp' & Ht' & Hc').
      split; [eapply sameLog_trans; eassumption|]. right. repeat split; auto. lia.
Qed.

(** What a submit click leaves: the snapshot in the slot, a fresh expiry
    timer due 12 seconds later, nothing built or sent. *)
Lemma handleSubmitClick_armed (page : Page) (st : State) :
  Spec.TimerInv st ->
  exists he,
    Armed (handleSubmitClick page st) (snapshot page) he
          (clock st + RESULT_TIMEOUT_MS)
    /\ sameLog st (handleSubmitClick page st)
    /\ clock (handleSubmitClick page st) = clock st
    /\ (forall h, pendingTimeout st = Some h ->
                  h <> he /\ timers (handleSubmitClick page st) !! h = None).
Proof.
  intros (I1 & I2 & I3 & I4 & I5 & I6).
  unfold handleSubmitClick.
  set (st1 := startPendingTimeout (set_pendingSubmission (Some (snapshot page)) st)).
  assert (H1 : exists he,
    Armed st1 (snapshot page) he (clock st + RESULT_TIMEOUT_MS)
    /\ sameLog st st1 /\ clock st1 = clock st
    /\ (he < nextHandle st1)%positive
    /\ (forall h, pendingTimeout st = Some h ->
                  h <> he /\ timers st1 !! h = None
                  /\ (h < nextHandle st1)%positive)).
  { subst st1. unfold startPendingTimeout. cbn.
    destruct (pendingTimeout st) as [h0|] eqn:E0; cbn.
    - exists (nextHandle st). unfold Armed, sameLog. cbn.
      rewrite !builds_app, !gated_app, !sends_app. cbn. rewrite !app_nil_r.
      rewrite lookup_insert_eq.
      destruct (I5 h0 eq_refl) as [d Hd].
      assert (h0 < nextHandle st)%positive by (apply I3; eauto).
      split_and!; try reflexivity; try lia.
      intros h [= <-]. split_and!; [lia| |lia].
      rewrite lookup_insert_ne by lia. apply lookup_delete_eq.
    - exists (nextHandle st). unfold Armed, sameLog. cbn.
      rewrite !builds_app, !gated_app, !sends_app. cbn. rewrite !app_nil_r.
      rewrite lookup_insert_eq.
      split_and!; try reflexivity; try lia. discriminate. }
  destruct H1 as (he & (Ap & At & Ah) & Hl & Hc & Hfresh & Hold).
  exists he.
  destruct (scheduleResultScan_keeps st1) as (Kp & Kt & Kr & Kc & Kb & Kg & Ks).
  assert (Hkeep : forall h, h <> nextHandle st1 ->
            timers (scheduleResultScan st1) !! h = timers st1 !! h).
  { intros h Hh. unfold scheduleResultScan. rewrite Ap.
    destruct (scanTimeout st1); [reflexivity|]. cbn.
    apply lookup_insert_ne. intros E. apply Hh. symmetry. exact E. }
  destruct Hl as (L1 & L2 & L3 & L4).
  unfold Armed, sameLog. split_and!; try congruence.
  - rewrite Hkeep by lia. exact Ah.
  - intros h Hh. destruct (Hold h Hh) as (Hne & Hnone & Hlt). split; [exact Hne|].
    rewrite Hkeep by lia. exact Hnone.
Qed.


Local Opaque getResultState buildPayload signatureOf setHas.

(** The scan timer fires on a page showing the wrong marker. *)
Lemma wrong_scan_step (st : State) (h he : positive) (due : Z) (page : Page)
      (p : PendingSubmission) :
  timers st !! h = Some (due, ScanCallback) -> (due <= clock st)%Z ->
  pendingSubmission st = Some p -> pendingTimeout st = Some he ->
  getResultState page = Some wrong ->
  let payload := buildPayload page p in
  exists st' verdict,
    step (TimerFires h page) st = Some st'
    /\ journal st' =
       journal st ++ [ClearTimeout he; BuildPayload payload; Gate payload verdict]
                 ++ (if verdict then [SendMessage payload] else [])
    /\ verdict = negb (setHas (recentSignatures st) (signatureOf payload))
    /\ pendingSubmission st' = None /\ pendingTimeout st' = None
    /\ timers st' !! he = None.
Proof.
  intros Hh Hdue Hp Ht Hres payload. cbn. rewrite Hh.
  apply Z.leb_le in Hdue. rewrite Hdue.
  cbn. unfold checkForResult. cbn. rewrite Hp, Hres.
  unfold clearPending. cbn. rewrite Ht. fold payload.
  unfold shouldLog. cbn.
  destruct (setHas (recentSignatures st) (signatureOf payload)); cbn.
  - eexists _, false. split; [reflexivity|]. cbn.
    rewrite <- !app_assoc. split_and!; try reflexivity. apply lookup_delete_eq.
  - eexists _, true. split; [reflexivity|]. cbn.
    rewrite <- !app_assoc. split_and!; try reflexivity. apply lookup_delete_eq.
Qed.

(** The scan timer fires on a page showing the correct marker. *)
Lemma correct_scan_step (st : State) (h he : positive) (due : Z) (page : Page)
      (p : PendingSubmission) :
  timers st !! h = Some (due, ScanCallback) -> (due <= clock st)%Z ->
  pendingSubmission st = Some p -> pendingTimeout st = Some he ->
  getResultState page = Some correct ->
  exists st',
    step (TimerFires h page) st = Some st'
    /\ journal st' = journal st ++ [ClearTimeout he]
    /\ recentSignatures st' = recentSignatures st
    /\ pendingSubmission st' = None /\ pendingTimeout st' = None
    /\ timers st' !! he = None.
Proof.
  intros Hh Hdue Hp Ht Hres. cbn. rewrite Hh.
  apply Z.leb_le in Hdue. rewrite Hdue.
  cbn. unfold checkForResult. cbn. rewrite Hp, Hres.
  unfold clearPending. cbn. rewrite Ht. cbn.
  eexists. split; [reflexivity|]. cbn.
  split_and!; try reflexivity. apply lookup_delete_eq.
Qed.


(** From a click through quiet events. *)
Lemma click_then_quiet (st st2 : State) (page0 : Page) (mids : list Event) :
  Spec.TimerInv st ->
  run (SubmitClick page0 :: mids) st = Some st2 ->
  forallb Spec.quiet mids = true ->
  exists he,
    sameLog st st2
    /\ Spec.TimerInv st2
    /\ (Armed st2 (snapshot page0) he (clock st + RESULT_TIMEOUT_MS)
        \/ (pendingSubmission st2 = None /\ pendingTimeout st2 = None
            /\ (clock st + RESULT_TIMEOUT_MS <= clock st2)%Z)).
Proof.
  intros Hinv Hrun Hq. cbn in Hrun.
  destruct (handleSubmitClick_armed page0 st Hinv) as (he & Ha & Hl & _).
  pose proof (TimerInv_handleSubmitClick page0 st Hinv) as Hinv1.
  destruct (quiet_run mids _ st2 _ he _ Hinv1 Ha Hrun Hq) as [Hl' Hres].
  exists he. split_and!.
  - eapply sameLog_trans; eassumption.
  - eapply TimerInv_run; eassumption.
  - exact Hres.
Qed.

End Journal.

(** ** The submission tracker and the scan scheduler *)

Section Claims.

Local Opaque getResultState buildPayload signatureOf setHas.

(** C1. After a submit click and any quiet events that leave the submission
pending, a scan that sees the wrong marker builds exactly one payload and
hands it to the dedup gate.  The slot and the expiry timer are cleared first:
[ClearTimeout] precedes the payload in the journal and the timer is gone.
Each of problemText, problemId and userAnswer is the snapshot's value when
the snapshot has one and a fresh read of the page otherwise; capturedAt is
the time stamp of the click. *)
Theorem C1_wrong_scan_builds_one_payload
        (st st2 : State) (page0 page : Page) (mids : list Event)
        (h : positive) (due : Z) :
  Spec.reachable st ->
  run (SubmitClick page0 :: mids) st = Some st2 ->
  forallb Spec.quiet mids = true ->
  is_Some (pendingSubmission st2) ->
  timers st2 !! h = Some (due, ScanCallback) -> (due <= clock st2)%Z ->
  getResultState page = Some wrong ->
  let payload := buildPayload page (snapshot page0) in
  exists (st3 : State) (he : positive) (verdict : bool),
    step (TimerFires h page) st2 = Some st3
    /\ pendingSubmission st2 = Some (snapshot page0)
    /\ pendingTimeout st2 = Some he
    /\ journal st3 =
       journal st2 ++ [ClearTimeout he; BuildPayload payload; Gate payload verdict]
                  ++ (if verdict then [SendMessage payload] else [])
    /\ Spec.builds (journal st3) = Spec.builds (journal st) ++ [payload]
    /\ Spec.gated (journal st3) = Spec.gated (journal st) ++ [payload]
    /\ pendingSubmission st3 = None /\ pendingTimeout st3 = None
    /\ timers st3 !! he = None
    /\ problemText payload =
       match getProblemText (getProblemDocument page0) with
       | Some t => Some t
       | None => getProblemText (getProblemDocument page)
       end
    /\ problemId payload =
       match getProblemId page0 (getProblemDocument page0) with
       | Some i => Some i
       | None => getProblemId page (getProblemDocument page)
       end
    /\ userAnswer payload =
       match getUserAnswer (getProblemDocument page0) with
       | Some a => Some a
       | None => getUserAnswer (getProblemDocument page)
       end
    /\ capturedAt payload = isoNow page0.
Proof.
  intros Hreach Hrun Hq Hpend Hh Hdue Hres payload.
  apply reachable_TimerInv in Hreach.
  destruct (click_then_quiet st st2 page0 mids Hreach Hrun Hq)
    as (he & Hl & Hinv2 & [(Ap & At & Ah)|(Hn & _)]);
    [|rewrite Hn in Hpend; destruct Hpend; discriminate].
  destruct (wrong_scan_step st2 h he due page _ Hh Hdue Ap At Hres)
    as (st3 & verdict & Hstep & Hj & Hv & Hp3 & Ht3 & Hh3).
  fold payload in Hj, Hv.
  destruct Hl as (Lb & Lg & Ls & Lr).
  exists st3, he, verdict. split_and!; try assumption; try reflexivity.
  - rewrite Hj, builds_app, Lb. destruct verdict; reflexivity.
  - rewrite Hj, gated_app, Lg. destruct verdict; reflexivity.
Qed.

(** C4. After a submit click and any quiet events that leave the submission
pending, a scan that sees the correct marker clears the slot and the expiry
timer and returns to idle; no payload is built, none is handed to the gate,
none is sent. *)
Theorem C4_correct_scan_emits_nothing
        (st st2 : State) (page0 page : Page) (mids : list Event)
        (h : positive) (due : Z) :
  Spec.reachable st ->
  run (SubmitClick page0 :: mids) st = Some st2 ->
  forallb Spec.quiet mids = true ->
  is_Some (pendingSubmission st2) ->
  timers st2 !! h = Some (due, ScanCallback) -> (due <= clock st2)%Z ->
  getResultState page = Some correct ->
  exists (st3 : State) (he : positive),
    step (TimerFires h page) st2 = Some st3
    /\ pendingTimeout st2 = Some he
    /\ journal st3 = journal st2 ++ [ClearTimeout he]
    /\ pendingSubmission st3 = None /\ pendingTimeout st3 = None
    /\ timers st3 !! he = None
    /\ Spec.builds (journal st3) = Spec.builds (journal st)
    /\ Spec.gated (journal st3) = Spec.gated (journal st)
    /\ Spec.sends (journal st3) = Spec.sends (journal st).
Proof.
  intros Hreach Hrun Hq Hpend Hh Hdue Hres.
  apply reachable_TimerInv in Hreach.
  destruct (click_then_quiet st st2 page0 mids Hreach Hrun Hq)
    as (he & Hl & Hinv2 & [(Ap & At & Ah)|(Hn & _)]);
    [|rewrite Hn in Hpend; destruct Hpend; discriminate].
  destruct (correct_scan_step st2 h he due page _ Hh Hdue Ap At Hres)
    as (st3 & Hstep & Hj & Hr & Hp3 & Ht3 & Hh3).
  destruct Hl as (Lb & Lg & Ls & Lr).
  exists st3, he. split_and!; try assumption.
  - rewrite Hj, builds_app, Lb. apply app_nil_r.
  - rewrite Hj, gated_app, Lg. apply app_nil_r.
  - rewrite Hj, sends_app, Ls. apply app_nil_r.
Qed.



Lemma scheduleResultScan_scheduled (st : State) (h : positive) :
  scanTimeout st = Some h -> scheduleResultScan st = st.
Proof.
  intros H. unfold scheduleResultScan. rewrite H.
  destruct (pendingSubmission st); reflexivity.
Qed.

Lemma scheduleResultScan_idempotent (st : State) :
  scheduleResultScan (scheduleResultScan st) = scheduleResultScan st.
Proof.
  destruct (pendingSubmission st) eqn:Ep.
  - destruct (scanTimeout st) eqn:Es.
    + rewrite (scheduleResultScan_scheduled st _ Es).
      apply (scheduleResultScan_scheduled st _ Es).
    + apply (scheduleResultScan_scheduled _ (nextHandle st)).
      unfold scheduleResultScan. rewrite Ep, Es. reflexivity.
  - assert (scheduleResultScan st = st) as ->; [|].
    all: unfold scheduleResultScan; rewrite Ep; reflexivity.
Qed.

Lemma run_mutations (k : nat) (st : State) :
  run (repeat Mutation (S k)) st = Some (scheduleResultScan st).
Proof.
  induction k as [|k IH]; [reflexivity|].
  change (run (repeat Mutation (S (S k))) st)
    with (run (repeat Mutation (S k)) (scheduleResultScan st)).
  revert IH. generalize (S k). intros n _. revert st.
  induction n as [|n IHn]; intros st; [reflexivity|].
  change (run (repeat Mutation (S n)) (scheduleResultScan st))
    with (run (repeat Mutation n) (scheduleResultScan (scheduleResultScan st))).
  rewrite scheduleResultScan_idempotent. destruct n; [reflexivity|].
  apply IHn.
Qed.

(** C6. In every reachable state at most one scan timer and at most one
expiry timer are outstanding.  A mutation while a scan is scheduled changes
nothing, so any number of mutations in a row acts as one; a mutation with a
submission pending and no scan scheduled arms one scan timer, 250 ms ahead.
No scan timer is outstanding when one is armed, and restarting the expiry
timer clears the outstanding one before it arms the new one. *)
Theorem C6_at_most_one_timer_of_each_kind (st : State) :
  Spec.reachable st ->
  (forall (cb : Callback) (h1 h2 : positive) (d1 d2 : Z),
      timers st !! h1 = Some (d1, cb) -> timers st !! h2 = Some (d2, cb) ->
      h1 = h2)
  /\ (forall (h : positive) (d : Z),
        timers st !! h = Some (d, ScanCallback) -> step Mutation st = Some st)
  /\ (forall k : nat, run (repeat Mutation (S k)) st = step Mutation st)
  /\ (pendingSubmission st <> None -> scanTimeout st = None ->
      exists st',
        step Mutation st = Some st'
        /\ scanTimeout st' = Some (nextHandle st)
        /\ timers st' =
           <[nextHandle st := ((clock st + 250)%Z, ScanCallback)]> (timers st)
        /\ timers st !! nextHandle st = None
        /\ forall (h : positive) (d : Z),
            timers st !! h <> Some (d, ScanCallback))
  /\ (forall he : positive,
        pendingTimeout st = Some he ->
        journal (startPendingTimeout st) =
          journal st ++ [ClearTimeout he;
                         SetTimeout (nextHandle st) ExpiryCallback 12000]
        /\ pendingTimeout (startPendingTimeout st) = Some (nextHandle st)
        /\ timers (startPendingTimeout st) =
           <[nextHandle st := ((clock st + 12000)%Z, ExpiryCallback)]>
             (delete he (timers st))
        /\ timers (startPendingTimeout st) !! he = None).
Proof.
  intros Hreach. apply reachable_TimerInv in Hreach.
  destruct Hreach as (I1 & I2 & I3 & I4 & I5 & I6).
  assert (Hfresh : timers st !! nextHandle st = None).
  { destruct (timers st !! nextHandle st) eqn:E; [|reflexivity].
    assert (nextHandle st < nextHandle st)%positive; [|lia].
    apply I3. eauto. }
  split_and!.
  - intros [] h1 h2 d1 d2 H1 H2.
    + apply I1 in H1, H2. congruence.
    + apply I2 in H1, H2. congruence.
  - intros h d H. cbn. f_equal. apply (scheduleResultScan_scheduled _ h).
    eapply I1, H.
  - intros k. apply run_mutations.
  - intros Hp Hs. cbn. unfold scheduleResultScan.
    destruct (pendingSubmission st); [|contradiction]. rewrite Hs. cbn.
    eexists. split_and!; try reflexivity; [exact Hfresh|].
    intros h d H. apply I1 in H. congruence.
  - intros he Hhe. unfold startPendingTimeout. rewrite Hhe. cbn.
    rewrite <- app_assoc. split_and!; try reflexivity.
    destruct (I5 he Hhe) as [d Hd].
    assert (he < nextHandle st)%positive by (apply I3; eauto).
    rewrite lookup_insert_ne by lia. apply lookup_delete_eq.
Qed.

(** A step other than a click builds payloads from the pending
    submission only, and leaves the slot as it was or empty. *)
Lemma noClick_step_builds (e : Event) (st st' : State) (p : PendingSubmission) :
  (pendingSubmission st = Some p \/ pendingSubmission st = None) ->
  noClick e = true -> step e st = Some st' ->
  (pendingSubmission st' = Some p \/ pendingSubmission st' = None)
  /\ exists new,
      Spec.builds (journal st') = Spec.builds (journal st) ++ new
      /\ Forall (fun q => exists page, q = buildPayload page p) new.
Proof.
  intros Hp Hn Hstep. destruct e as [page| |h page|dt]; cbn in Hn, Hstep.
  - discriminate.
  - injection Hstep as <-.
    destruct (scheduleResultScan_keeps st) as (Kp & _ & _ & _ & Kb & _).
    rewrite Kp, Kb. split; [exact Hp|]. exists []. rewrite app_nil_r. auto.
  - destruct (timers st !! h) as [[d cb]|]; [|discriminate].
    destruct (d <=? clock st)%Z; [|discriminate]. injection Hstep as <-.
    destruct cb; cbn.
    + unfold checkForResult. cbn.
      destruct (pendingSubmission st) as [p'|] eqn:Ep; cbn.
      * assert (p' = p) as -> by (destruct Hp; congruence).
        destruct (getResultState page) as [[]|]; cbn.
        -- match goal with |- context [clearPending ?s] =>
             destruct (clearPending_spec s) as (Cp & _ & _ & _ & _ & _ & _ & Cj)
           end.
           rewrite Cp, Cj, builds_app. split; [auto|]. exists [].
           destruct (pendingTimeout st); cbn; rewrite ?app_nil_r; auto.
        -- unfold shouldLog.
           match goal with |- context [clearPending ?s] =>
             destruct (clearPending_spec s) as (Cp & _ & _ & Cr & _ & _ & _ & Cj)
           end.
           cbn. rewrite Cr. cbn.
           destruct (setHas (recentSignatures st) _); cbn;
             rewrite Cp, Cj, <- ?app_assoc, !builds_app;
             (split; [auto|]); exists [buildPayload page p];
             (split; [destruct (pendingTimeout st); reflexivity|]);
             repeat constructor; eexists; reflexivity.
        -- split; [auto|]. exists []. rewrite app_nil_r. auto.
      * split; [auto|]. exists []. rewrite app_nil_r. auto.
    + match goal with |- context [clearPending ?s] =>
        destruct (clearPending_spec s) as (Cp & _ & _ & _ & _ & _ & _ & Cj)
      end.
      rewrite Cp, Cj, builds_app. split; [auto|]. exists []. cbn.
      destruct (pendingTimeout st); cbn; rewrite ?app_nil_r; auto.
  - destruct (0 <=? dt)%Z; [|discriminate]. injection Hstep as <-. cbn.
    split; [exact Hp|]. exists []. rewrite app_nil_r. auto.
Qed.

Lemma noClick_run_builds (later : list Event) (st st' : State)
      (p : PendingSubmission) :
  (pendingSubmission st = Some p \/ pendingSubmission st = None) ->
  forallb noClick later = true -> run later st = Some st' ->
  exists new,
    Spec.builds (journal st') = Spec.builds (journal st) ++ new
    /\ Forall (fun q => exists page, q = buildPayload page p) new.
Proof.
  revert st. induction later as [|e r IH]; intros st Hp Hn Hrun; simpl in *.
  - injection Hrun as <-. exists []. rewrite app_nil_r. auto.
  - destruct (step e st) as [st1|] eqn:E; [|discriminate].
    apply andb_true_iff in Hn as [Hn1 Hn2].
    destruct (noClick_step_builds e st st1 p Hp Hn1 E) as (Hp1 & new1 & E1 & F1).
    destruct (IH st1 Hp1 Hn2 Hrun) as (new2 & E2 & F2).
    exists (new1 ++ new2). rewrite E2, E1, app_assoc. split; [reflexivity|].
    apply Forall_app. auto.
Qed.

(** C8. A second submit click while the first submission is pending puts
the second snapshot in the slot and restarts the expiry timer: the old timer
is cleared, the new one is due 12000 ms after the second click.  The first
snapshot produced no payload, the state after the second click is the same
whatever the slot held, and until the next click every payload built comes
from the second snapshot. *)
Theorem C8_second_click_discards_first_snapshot
        (st st2 : State) (page1 page2 : Page) (mids : list Event) :
  Spec.reachable st ->
  run (SubmitClick page1 :: mids) st = Some st2 ->
  forallb Spec.quiet mids = true ->
  is_Some (pendingSubmission st2) ->
  exists (st3 : State) (he1 he2 : positive),
    step (SubmitClick page2) st2 = Some st3
    /\ pendingSubmission st2 = Some (snapshot page1)
    /\ pendingTimeout st2 = Some he1
    /\ pendingSubmission st3 = Some (snapshot page2)
    /\ pendingTimeout st3 = Some he2
    /\ he1 <> he2
    /\ timers st3 !! he1 = None
    /\ timers st3 !! he2 = Some ((clock st2 + 12000)%Z, ExpiryCallback)
    /\ Spec.builds (journal st3) = Spec.builds (journal st)
    /\ (forall other : option PendingSubmission,
          step (SubmitClick page2) (set_pendingSubmission other st2) = Some st3)
    /\ (forall (later : list Event) (st4 : State),
          forallb noClick later = true -> run later st3 = Some st4 ->
          exists new,
            Spec.builds (journal st4) = Spec.builds (journal st3) ++ new
            /\ Forall (fun payload =>
                         exists page, payload = buildPayload page (snapshot page2))
                      new).
Proof.
  intros Hreach Hrun Hq Hpend.
  apply reachable_TimerInv in Hreach.
  destruct (click_then_quiet st st2 page1 mids Hreach Hrun Hq)
    as (he1 & (Lb & Lg & Ls & Lr) & Hinv2 & [(Ap & At & Ah)|(Hn & _)]);
    [|rewrite Hn in Hpend; destruct Hpend; discriminate].
  destruct (handleSubmitClick_armed page2 st2 Hinv2)
    as (he2 & (Bp & Bt & Bh) & (Mb & _) & Hc & Hold).
  destruct (Hold he1 At) as [Hne Hgone].
  exists (handleSubmitClick page2 st2), he1, he2.
  split_and!; try assumption; try reflexivity.
  - congruence.
  - intros later st4 Hn Hr.
    apply (noClick_run_builds later _ st4 (snapshot page2)); auto.
Qed.


(** Only the gate changes the dedup set. *)
Lemma step_recentSignatures (e : Event) (st st' : State) :
  step e st = Some st' ->
  recentSignatures st' = recentSignatures st
  \/ exists payload,
      recentSignatures st' =
      Spec.gateStep (recentSignatures st) (signatureOf payload).
Proof.
  intros Hstep. destruct e as [page| |h page|dt]; cbn in Hstep.
  - injection Hstep as <-. left. unfold handleSubmitClick.
    destruct (scheduleResultScan_keeps
                (startPendingTimeout
                   (set_pendingSubmission (Some (snapshot page)) st)))
      as (_ & _ & Kr & _).
    rewrite Kr. unfold startPendingTimeout. cbn.
    destruct (pendingTimeout st); reflexivity.
  - injection Hstep as <-. left.
    destruct (scheduleResultScan_keeps st) as (_ & _ & Kr & _). exact Kr.
  - destruct (timers st !! h) as [[d cb]|]; [|discriminate].
    destruct (d <=? clock st)%Z; [|discriminate]. injection Hstep as <-.
    destruct cb; cbn.
    + unfold checkForResult. cbn.
      destruct (pendingSubmission st) as [p|]; cbn; [|left; reflexivity].
      destruct (getResultState page) as [[]|]; cbn; [| |left; reflexivity].
      * left.
        match goal with |- context [clearPending ?s] =>
          destruct (clearPending_spec s) as (_ & _ & _ & Cr & _)
        end. exact Cr.
      * right. exists (buildPayload page p).
        match goal with |- context [clearPending ?s] =>
          destruct (clearPending_spec s) as (_ & _ & _ & Cr & _)
        end.
        cbn in Cr.
        match goal with |- recentSignatures (let '(ok, st3) := shouldLog ?q ?s in _) = _ =>
          pose proof (shouldLog_set q s) as Hset;
          destruct (shouldLog q s) as [[] st3]; cbn in Hset |- *;
          rewrite Hset; cbn; rewrite Cr; reflexivity
        end.
    + left.
      match goal with |- context [clearPending ?s] =>
        destruct (clearPending_spec s) as (_ & _ & _ & Cr & _)
      end. exact Cr.
  - destruct (0 <=? dt)%Z; [|discriminate]. injection Hstep as <-. left.
    reflexivity.
Qed.

Lemma GateInv_gateStep (s : list jsstring) (payload : ProblemLogPayload) :
  Spec.GateInv s -> Spec.GateInv (Spec.gateStep s (signatureOf payload)).
Proof.
  intros H. unfold Spec.gateStep.
  destruct (setHas s (signatureOf payload)) eqn:E; [exact H|].
  apply GateInv_addAndEvict; [exact H | | apply signatureOf_not_empty].
  apply setHas_not_elem, E.
Qed.

Lemma reachable_GateInv (st : State) :
  Spec.reachable st -> Spec.GateInv (recentSignatures st).
Proof.
  intros [events Hrun].
  assert (H0 : Spec.GateInv (recentSignatures initial)).
  { repeat split; cbn; [constructor | constructor | unfold MAX_RECENT_LOGS; lia]. }
  revert Hrun H0. generalize initial. induction events as [|e r IH]; intros s0 Hrun H0.
  - injection Hrun as <-. exact H0.
  - simpl in Hrun. destruct (step e s0) as [s1|] eqn:E; [|discriminate].
    apply (IH s1 Hrun).
    destruct (step_recentSignatures e s0 s1 E) as [->|[payload ->]];
      [exact H0 | apply GateInv_gateStep, H0].
Qed.

End Claims.

(** ** The offline queue of the service worker *)

Section OfflineQueue.

Import Background.

Ltac qlia := unfold MAX_QUEUE_SIZE in *; cbn [length] in *; lia.

Lemma shiftWhileOver_drop (fuel : nat) (queue : list ProblemLogPayload) :
  length queue <= fuel + MAX_QUEUE_SIZE ->
  shiftWhileOver fuel queue = drop (length queue - MAX_QUEUE_SIZE) queue.
Proof.
  revert queue. induction fuel as [|fuel IH]; intros queue Hlen; simpl.
  - replace (length queue - MAX_QUEUE_SIZE) with 0 by qlia. reflexivity.
  - destruct (MAX_QUEUE_SIZE <? length queue) eqn:E.
    + apply Nat.ltb_lt in E. destruct queue as [|p q]; [qlia|].
      cbn [tail]. rewrite IH by qlia.
      cbn [length]. replace (S (length q) - MAX_QUEUE_SIZE)
        with (S (length q - MAX_QUEUE_SIZE)) by qlia.
      reflexivity.
    + apply Nat.ltb_ge in E.
      replace (length queue - MAX_QUEUE_SIZE) with 0 by qlia. reflexivity.
Qed.

(** The saved queue is the loaded one with the payload appended, cut from
the front to the last 200 entries. *)
Lemma pushBounded_drop (queue : list ProblemLogPayload) (p : ProblemLogPayload) :
  pushBounded queue p = drop (length queue + 1 - MAX_QUEUE_SIZE) (queue ++ [p]).
Proof.
  unfold pushBounded. rewrite shiftWhileOver_drop by qlia.
  rewrite length_app. reflexivity.
Qed.

Lemma pushBounded_length (queue : list ProblemLogPayload) (p : ProblemLogPayload) :
  length (pushBounded queue p) <= MAX_QUEUE_SIZE.
Proof.
  rewrite pushBounded_drop, length_drop, length_app. qlia.
Qed.

Lemma pushBounded_last (queue : list ProblemLogPayload) (p : ProblemLogPayload) :
  last (pushBounded queue p) = Some p.
Proof.
  rewrite pushBounded_drop.
  assert (H : length queue + 1 - MAX_QUEUE_SIZE <= length queue)
    by qlia.
  rewrite drop_app_le by exact H. apply last_snoc.
Qed.

Lemma pushBounded_fits (queue : list ProblemLogPayload) (p : ProblemLogPayload) :
  length queue < MAX_QUEUE_SIZE -> pushBounded queue p = queue ++ [p].
Proof.
  intros H. rewrite pushBounded_drop.
  replace (length queue + 1 - MAX_QUEUE_SIZE) with 0 by qlia. reflexivity.
Qed.

Lemma pushBounded_full (queue : list ProblemLogPayload) (p : ProblemLogPayload) :
  length queue = MAX_QUEUE_SIZE -> pushBounded queue p = tail queue ++ [p].
Proof.
  intros H. rewrite pushBounded_drop.
  replace (length queue + 1 - MAX_QUEUE_SIZE) with 1 by qlia.
  destruct queue; [discriminate | reflexivity].
Qed.


Lemma flushBodies_snoc (ts : list Task) (t : Task) :
  flushBodies (ts ++ [t]) = flushBodies ts + (if isFlushBody t then 1 else 0).
Proof.
  unfold flushBodies. rewrite List.filter_app, length_app. simpl.
  destruct (isFlushBody t); reflexivity.
Qed.

Lemma flushBodies_insert (ts : list Task) (i : nat) (t t' : Task) :
  ts !! i = Some t ->
  flushBodies (<[i := t']> ts) + (if isFlushBody t then 1 else 0) =
  flushBodies ts + (if isFlushBody t' then 1 else 0).
Proof.
  revert i. induction ts as [|a r IH]; intros i H; [discriminate|].
  destruct i as [|i]; simpl in H.
  - injection H as ->. unfold flushBodies. simpl.
    destruct (isFlushBody t), (isFlushBody t'); simpl; lia.
  - specialize (IH i H). unfold flushBodies in *. simpl.
    destruct (isFlushBody a); simpl; lia.
Qed.

Lemma flushBodies_delete (ts : list Task) (i : nat) (t : Task) :
  ts !! i = Some t ->
  flushBodies (delete i ts) + (if isFlushBody t then 1 else 0) = flushBodies ts.
Proof.
  revert i. induction ts as [|a r IH]; intros i H; [discriminate|].
  destruct i as [|i]; simpl in H.
  - injection H as ->. unfold flushBodies. simpl.
    destruct (isFlushBody t); simpl; lia.
  - specialize (IH i H). unfold flushBodies in *. simpl.
    destruct (isFlushBody a); simpl; lia.
Qed.

Local Arguments flushBodies : simpl never.
Local Arguments pushBounded : simpl never.

Lemma QueueInv_initial : QueueInv initial.
Proof. repeat split; cbn; [qlia | constructor]. Qed.

Lemma taskOk_flushNext (u : User) (rest remaining : list ProblemLogPayload) :
  length remaining + length rest <= MAX_QUEUE_SIZE ->
  taskOk (flushNext u rest remaining).
Proof. intros H. destruct rest; cbn [flushNext taskOk length] in *; qlia. Qed.

Lemma isFlushBody_flushNext (u : User) (rest remaining : list ProblemLogPayload) :
  isFlushBody (flushNext u rest remaining) = true.
Proof. destruct rest; reflexivity. Qed.

Lemma QueueInv_resume (i : nat) (t : Task) (ok : bool) (st : State) :
  tasks st !! i = Some t -> QueueInv st -> QueueInv (resume i t ok st).
Proof.
  intros Hi (Hq & Hts & Hfl).
  pose proof (Forall_lookup_1 _ _ _ _ Hts Hi) as Ht.
  destruct t as [p|p q|p u|user|u|u p rest remaining|remaining]; cbn [resume].
  - (* EnqueueLoad *)
    unfold QueueInv; cbn. split_and!.
    + exact Hq.
    + apply Forall_insert; [exact Hts|]. split;
        [apply pushBounded_last | apply pushBounded_length].
    + pose proof (flushBodies_insert _ i _ (EnqueueSave p (pushBounded (loadQueue st) p)) Hi) as H.
      cbn in H. lia.
  - (* EnqueueSave *)
    unfold QueueInv; cbn. destruct Ht as [_ Hlen]. split_and!.
    + exact Hlen.
    + apply Forall_delete, Hts.
    + pose proof (flushBodies_delete _ i _ Hi) as H. cbn in H. lia.
  - (* DirectWrite *)
    destruct ok; unfold QueueInv; cbn; split_and!.
    + exact Hq.
    + apply Forall_delete, Hts.
    + pose proof (flushBodies_delete _ i _ Hi) as H. cbn in H. lia.
    + exact Hq.
    + apply Forall_insert; [exact Hts | exact I].
    + pose proof (flushBodies_insert _ i _ (EnqueueLoad p) Hi) as H. cbn in H. lia.
  - (* AuthStore *)
    destruct user as [u|]; cbn.
    + destruct (flushInFlight st) eqn:Ef; unfold QueueInv; cbn; split_and!.
      * exact Hq.
      * apply Forall_delete, Hts.
      * pose proof (flushBodies_delete _ i _ Hi) as H. cbn in H. lia.
      * exact Hq.
      * apply Forall_insert; [exact Hts | exact I].
      * pose proof (flushBodies_insert _ i _ (FlushLoad u) Hi) as H. cbn in H. lia.
    + unfold QueueInv; cbn; split_and!.
      * exact Hq.
      * apply Forall_delete, Hts.
      * pose proof (flushBodies_delete _ i _ Hi) as H. cbn in H. lia.
  - (* FlushLoad *)
    assert (Hin : flushInFlight st = true).
    { pose proof (flushBodies_delete _ i _ Hi) as H. cbn in H.
      destruct (flushInFlight st); [reflexivity | lia]. }
    rewrite Hin in Hfl.
    destruct (Nat.eqb (length (loadQueue st)) 0) eqn:E; unfold QueueInv; cbn; split_and!.
    + exact Hq.
    + apply Forall_delete, Hts.
    + pose proof (flushBodies_delete _ i _ Hi) as H. cbn in H. lia.
    + exact Hq.
    + apply Forall_insert; [exact Hts|]. apply taskOk_flushNext. cbn [length]. qlia.
    + rewrite Hin.
      pose proof (flushBodies_insert _ i _ (flushNext u (loadQueue st) []) Hi) as H.
      rewrite isFlushBody_flushNext in H. cbn in H. lia.
  - (* FlushWrite *)
    assert (Hin : flushInFlight st = true).
    { pose proof (flushBodies_delete _ i _ Hi) as H. cbn in H.
      destruct (flushInFlight st); [reflexivity | lia]. }
    rewrite Hin in Hfl. cbn in Ht.
    destruct ok; unfold QueueInv; cbn; split_and!.
    + exact Hq.
    + apply Forall_insert; [exact Hts|]. apply taskOk_flushNext. qlia.
    + rewrite Hin.
      pose proof (flushBodies_insert _ i _ (flushNext u rest remaining) Hi) as H.
      rewrite isFlushBody_flushNext in H. cbn in H. lia.
    + exact Hq.
    + apply Forall_insert; [exact Hts|]. apply taskOk_flushNext.
      rewrite length_app. qlia.
    + rewrite Hin.
      pose proof (flushBodies_insert _ i _ (flushNext u rest (remaining ++ [p])) Hi) as H.
      rewrite isFlushBody_flushNext in H. cbn in H. lia.
  - (* FlushSave *)
    unfold QueueInv; cbn. cbn in Ht. split_and!.
    + exact Ht.
    + apply Forall_delete, Hts.
    + pose proof (flushBodies_delete _ i _ Hi) as H. cbn in H.
      destruct (flushInFlight st); lia.
Qed.

Lemma QueueInv_step (e : Event) (st st' : State) :
  step e st = Some st' -> QueueInv st -> QueueInv st'.
Proof.
  intros Hstep Hinv. destruct e as [p|user|i ok]; cbn in Hstep.
  - destruct Hinv as (Hq & Hts & Hfl).
    destruct (currentUser st); injection Hstep as <-; unfold QueueInv; cbn;
      (split_and!; [exact Hq | apply Forall_app; split; [exact Hts | repeat constructor] |
                    rewrite flushBodies_snoc; cbn; lia]).
  - destruct Hinv as (Hq & Hts & Hfl).
    injection Hstep as <-; unfold QueueInv; cbn.
    split_and!; [exact Hq | apply Forall_app; split; [exact Hts | repeat constructor] |
                 rewrite flushBodies_snoc; cbn; lia].
  - destruct (tasks st !! i) as [t|] eqn:Hi; [|discriminate].
    injection Hstep as <-. apply QueueInv_resume; assumption.
Qed.

Lemma bgReachable_QueueInv (st : State) : bgReachable st -> QueueInv st.
Proof.
  intros [events Hrun]. revert Hrun. generalize QueueInv_initial.
  generalize initial. induction events as [|e r IH]; intros s0 H0 Hrun.
  - injection Hrun as <-. exact H0.
  - simpl in Hrun. destruct (step e s0) as [s1|] eqn:E; [|discriminate].
    apply (IH s1); [|exact Hrun]. apply (QueueInv_step e s0 s1 E H0).
Qed.


Local Arguments loadQueue : simpl never.

Lemma delete_insert_same (ts : list Task) (i : nat) (t : Task) :
  delete i (<[i := t]> ts) = delete i ts.
Proof.
  revert i. induction ts as [|a r IH]; intros [|i]; simpl; try reflexivity.
  f_equal. apply IH.
Qed.

Lemma delete_snoc (ts : list Task) (t : Task) :
  delete (length ts) (ts ++ [t]) = ts.
Proof.
  induction ts as [|a r IH]; simpl; [reflexivity|]. f_equal. exact IH.
Qed.

Lemma lookup_snoc (ts : list Task) (t : Task) :
  (ts ++ [t]) !! length ts = Some t.
Proof. apply list_lookup_middle. reflexivity. Qed.

Lemma insert_snoc (ts : list Task) (t t' : Task) :
  <[length ts := t']> (ts ++ [t]) = ts ++ [t'].
Proof.
  induction ts as [|a r IH]; simpl; [reflexivity|]. f_equal. exact IH.
Qed.

(** A payload received while signed out is queued. *)
Lemma enqueue_when_signed_out (st : State) (p : ProblemLogPayload) (ok1 ok2 : bool) :
  currentUser st = None ->
  run [LogWrongProblem p; Resume (length (tasks st)) ok1;
       Resume (length (tasks st)) ok2] st
  = Some (set_storedQueue (pushBounded (loadQueue st) p) st).
Proof.
  intros Hu. cbn. rewrite Hu. cbn. rewrite lookup_snoc. cbn.
  rewrite insert_snoc, lookup_snoc. cbn. rewrite delete_snoc.
  reflexivity.
Qed.

(** A payload whose write fails is queued; one whose write succeeds is
not. *)
Lemma enqueue_when_write_fails (st : State) (u : User) (p : ProblemLogPayload)
      (ok1 ok2 : bool) :
  currentUser st = Some u ->
  run [LogWrongProblem p; Resume (length (tasks st)) false;
       Resume (length (tasks st)) ok1; Resume (length (tasks st)) ok2] st
  = Some (set_storedQueue (pushBounded (loadQueue st) p) st).
Proof.
  intros Hu. cbn. rewrite Hu. cbn. rewrite lookup_snoc. cbn.
  rewrite insert_snoc, lookup_snoc. cbn.
  rewrite insert_snoc, lookup_snoc. cbn. rewrite delete_snoc.
  reflexivity.
Qed.

Lemma direct_write_succeeds (st : State) (u : User) (p : ProblemLogPayload) :
  currentUser st = Some u ->
  run [LogWrongProblem p; Resume (length (tasks st)) true] st
  = Some (addDoc u p st).
Proof.
  intros Hu. cbn. rewrite Hu. cbn. rewrite lookup_snoc. cbn.
  rewrite delete_snoc. reflexivity.
Qed.

(** The loop of the flush body, one write per resumption. *)
Lemma flush_loop (u : User) (i : nat) (rest : list ProblemLogPayload) :
  forall (p : ProblemLogPayload) (remaining : list ProblemLogPayload)
         (oks : list bool) (st : State),
    tasks st !! i = Some (FlushWrite u p rest remaining) ->
    length oks = S (length rest) ->
    run (Resume i <$> oks) st =
    Some (mkState (storedQueue st) (storedAuth st) (currentUser st)
                  (flushInFlight st)
                  (<[i := FlushSave (remaining ++ kept (p :: rest) oks)]> (tasks st))
                  (remote st ++ (pair (uid u) <$> written (p :: rest) oks))).
Proof.
  induction rest as [|p' rest IH]; intros p remaining oks st Hi Hlen.
  - destruct oks as [|ok [|]]; try discriminate.
    cbn. rewrite Hi. destruct ok; cbn.
    + rewrite !app_nil_r. reflexivity.
    + rewrite !app_nil_r. reflexivity.
  - destruct oks as [|ok oks]; [discriminate|].
    assert (Hi' : i < length (tasks st)) by (eapply lookup_lt_Some; eassumption).
    cbn [fmap list_fmap run step]. rewrite Hi.
    destruct ok; cbn [resume flushNext].
    + rewrite (IH p' remaining oks); cbn.
      * rewrite list_insert_insert_eq, <- app_assoc. reflexivity.
      * apply list_lookup_insert_eq. exact Hi'.
      * simpl in Hlen. lia.
    + rewrite (IH p' (remaining ++ [p]) oks); cbn.
      * rewrite list_insert_insert_eq, <- app_assoc. reflexivity.
      * apply list_lookup_insert_eq. exact Hi'.
      * simpl in Hlen. lia.
Qed.


Lemma run_app (a b : list Event) (st : State) :
  run (a ++ b) st =
  match run a st with
  | Some st' => run b st'
  | None => None
  end.
Proof.
  revert st. induction a as [|e r IH]; intros st; simpl; [reflexivity|].
  destruct (step e st); [apply IH | reflexivity].
Qed.

Lemma kept_sublist (queue : list ProblemLogPayload) (oks : list bool) :
  sublist (kept queue oks) queue.
Proof.
  revert oks. induction queue as [|p q IH]; intros oks; simpl.
  - constructor.
  - destruct oks as [|[] oks].
    + apply sublist_nil_l.
    + apply sublist_cons, IH.
    + apply sublist_skip, IH.
Qed.

(** Signing in with nothing in flight: the queue is written entry by entry
in order, and what is saved is what failed. *)
Lemma flush_on_sign_in (st : State) (u : User) (queue : list ProblemLogPayload)
      (oks : list bool) (ok0 ok1 ok2 : bool) :
  flushInFlight st = false -> loadQueue st = queue -> queue <> [] ->
  length oks = length queue ->
  run (AuthStateChanged (Some u)
         :: Resume (length (tasks st)) ok0
         :: Resume (length (tasks st)) ok1
         :: (Resume (length (tasks st)) <$> oks)
         ++ [Resume (length (tasks st)) ok2]) st
  = Some (mkState (Some (kept queue oks))
                  (Some (normalizeAuthStatus (Some u))) (Some u) false
                  (tasks st)
                  (remote st ++ (pair (uid u) <$> written queue oks))).
Proof.
  intros Hfl Hq Hne Hlen. destruct queue as [|p rest]; [contradiction|].
  cbn. rewrite lookup_snoc. cbn. rewrite Hfl. cbn.
  rewrite insert_snoc, lookup_snoc. cbn.
  replace (loadQueue _) with (p :: rest) by (rewrite <- Hq; reflexivity).
  cbn. rewrite insert_snoc.
  rewrite run_app.
  rewrite (flush_loop u (length (tasks st)) rest p [] oks);
    [|apply lookup_snoc|exact Hlen].
  cbn. rewrite insert_snoc, lookup_snoc. cbn. rewrite delete_snoc.
  rewrite ?app_nil_l. reflexivity.
Qed.

Lemma flush_nothing_queued (st : State) (u : User) (ok0 ok1 : bool) :
  flushInFlight st = false -> loadQueue st = [] ->
  run [AuthStateChanged (Some u); Resume (length (tasks st)) ok0;
       Resume (length (tasks st)) ok1] st
  = Some (mkState (storedQueue st) (Some (normalizeAuthStatus (Some u)))
                  (Some u) false (tasks st) (remote st)).
Proof.
  intros Hfl Hq.
  cbn. rewrite lookup_snoc. cbn. rewrite Hfl. cbn.
  rewrite insert_snoc, lookup_snoc. cbn.
  replace (loadQueue _) with (@nil ProblemLogPayload) by (rewrite <- Hq; reflexivity).
  cbn. rewrite delete_snoc. reflexivity.
Qed.

(** A flush request while a flush is in flight starts no flush body. *)
Lemma flush_request_in_flight (st : State) (j : nat) (u : User) (ok : bool) :
  flushInFlight st = true -> tasks st !! j = Some (AuthStore (Some u)) ->
  exists st',
    step (Resume j ok) st = Some st'
    /\ tasks st' = delete j (tasks st)
    /\ flushBodies (tasks st') = flushBodies (tasks st)
    /\ flushInFlight st' = true
    /\ storedQueue st' = storedQueue st
    /\ remote st' = remote st.
Proof.
  intros Hfl Hj. cbn. rewrite Hj. cbn. rewrite Hfl. eexists. split; [reflexivity|].
  cbn. split_and!; try reflexivity; try assumption.
  pose proof (flushBodies_delete _ j _ Hj) as H. cbn in H. lia.
Qed.

(** What holds of the offline queue.  For a task that no other writer of the
storage interleaves with: a payload received while signed out, and a payload
whose remote write fails, is appended to the stored queue, which is cut from
the front to its last 200 entries; signing in with no flush in flight writes
the queued entries in order and saves the entries whose write failed, in
order.  In every reachable state, under every interleaving: the stored queue
holds at most 200 entries, an enqueue that completes leaves its payload last
in the stored queue, and at most one flush body runs, a flush request that
finds one in flight starting none. *)
Lemma queue_bounded_and_flushed_once
        (st : State) (p : ProblemLogPayload) :
  bgReachable st ->
  let i := length (tasks st) in
  let saved := pushBounded (loadQueue st) p in
  (currentUser st = None ->
   forall ok1 ok2 : bool,
     run [LogWrongProblem p; Resume i ok1; Resume i ok2] st
     = Some (set_storedQueue saved st))
  /\ (forall u : User,
        currentUser st = Some u ->
        forall ok1 ok2 : bool,
          run [LogWrongProblem p; Resume i false; Resume i ok1; Resume i ok2] st
          = Some (set_storedQueue saved st))
  /\ (saved = drop (length (loadQueue st) + 1 - 200) (loadQueue st ++ [p])
      /\ length saved <= 200 /\ last saved = Some p)
  /\ (length (loadQueue st) <= 200
      /\ forall (j : nat) (p' : ProblemLogPayload)
                (q : list ProblemLogPayload) (ok : bool),
          tasks st !! j = Some (EnqueueSave p' q) ->
          exists st',
            step (Resume j ok) st = Some st'
            /\ storedQueue st' = Some q
            /\ last q = Some p' /\ length q <= 200)
  /\ (forall (u : User) (oks : list bool) (ok0 ok1 ok2 : bool),
        flushInFlight st = false -> loadQueue st <> [] ->
        length oks = length (loadQueue st) ->
        run (AuthStateChanged (Some u) :: Resume i ok0 :: Resume i ok1
               :: (Resume i <$> oks) ++ [Resume i ok2]) st
        = Some (mkState (Some (kept (loadQueue st) oks))
                        (Some (normalizeAuthStatus (Some u))) (Some u) false
                        (tasks st)
                        (remote st
                           ++ (pair (uid u) <$> written (loadQueue st) oks)))
        /\ sublist (kept (loadQueue st) oks) (loadQueue st))
  /\ (flushBodies (tasks st) <= 1
      /\ forall (j : nat) (u : User) (ok : bool),
          flushInFlight st = true ->
          tasks st !! j = Some (AuthStore (Some u)) ->
          exists st',
            step (Resume j ok) st = Some st'
            /\ tasks st' = delete j (tasks st)
            /\ flushBodies (tasks st') = flushBodies (tasks st)
            /\ flushInFlight st' = true
            /\ storedQueue st' = storedQueue st
            /\ remote st' = remote st).
Proof.
  intros Hreach i saved. apply bgReachable_QueueInv in Hreach.
  destruct Hreach as (Hq & Hts & Hfl).
  split_and!.
  - intros Hu ok1 ok2. apply enqueue_when_signed_out, Hu.
  - intros u Hu ok1 ok2. apply (enqueue_when_write_fails st u p ok1 ok2 Hu).
  - apply pushBounded_drop.
  - apply pushBounded_length.
  - apply pushBounded_last.
  - exact Hq.
  - intros j p' q ok Hj.
    pose proof (Forall_lookup_1 _ _ _ _ Hts Hj) as [Hlast Hlen].
    cbn. rewrite Hj. cbn. eexists. split; [reflexivity|]. cbn. auto.
  - intros u oks ok0 ok1 ok2 Hin Hne Hlen. split.
    + apply flush_on_sign_in; auto.
    + apply kept_sublist.
  - destruct (flushInFlight st); lia.
  - intros j u ok Hin Hj. apply (flush_request_in_flight st j u ok Hin Hj).
Qed.

Lemma lookup_suffix (ts r : list Task) (a : Task) :
  (ts ++ a :: r) !! length ts = Some a.
Proof. apply list_lookup_middle. reflexivity. Qed.

Lemma lookup_suffix_next (ts r : list Task) (a b : Task) :
  (ts ++ a :: b :: r) !! S (length ts) = Some b.
Proof. induction ts as [|c ts IH]; [reflexivity | exact IH]. Qed.

Lemma insert_suffix (ts r : list Task) (a x : Task) :
  <[length ts := x]> (ts ++ a :: r) = ts ++ x :: r.
Proof.
  induction ts as [|c ts IH]; simpl; [reflexivity|]. f_equal. exact IH.
Qed.

Lemma insert_suffix_next (ts r : list Task) (a b x : Task) :
  <[S (length ts) := x]> (ts ++ a :: b :: r) = ts ++ a :: x :: r.
Proof.
  induction ts as [|c ts IH]; simpl; [reflexivity|]. f_equal. exact IH.
Qed.

(** The storage is read and written in separate turns, and nothing
serialises the writers.  Two messages arrive while signed out, the second
before the first has read the storage: both enqueues read the same queue,
and the save that comes last overwrites the other.  Whatever the state, the
stored queue ends as the old queue with the second payload alone appended. *)
Lemma overlapping_enqueues (st : State) (p q : ProblemLogPayload)
      (ok1 ok2 ok3 ok4 : bool) :
  currentUser st = None ->
  let i := length (tasks st) in
  run [LogWrongProblem p; LogWrongProblem q;
       Resume i ok1; Resume (S i) ok2; Resume i ok3; Resume i ok4] st
  = Some (set_storedQueue (pushBounded (loadQueue st) q) st).
Proof.
  intros Hu i. subst i. destruct st as [sq sa cu fl ts rm]. cbn in Hu. subst cu.
  cbn. rewrite <- app_assoc. cbn [app].
  rewrite lookup_suffix. cbn. rewrite insert_suffix, lookup_suffix_next. cbn.
  rewrite insert_suffix_next, lookup_suffix. cbn.
  rewrite delete_middle, lookup_suffix. cbn. rewrite delete_middle, app_nil_r.
  reflexivity.
Qed.

(** C9. Not every payload received while signed out, or whose remote write
failed, stays in the durable queue.  Two payloads received one after the
other while signed out are both queued, in order.  Received so that the
second enqueue reads the storage before the first has saved, both enqueues
complete and the stored queue holds the second payload only: the first is
lost.  And a payload whose remote write fails while a flush is between its
read of the queue and its save is queued, then overwritten by the flush's
save: in the end it is neither in the stored queue nor written remotely. *)
Theorem C9_overlapping_enqueues_lose_a_payload :
  let u := mkUser (lit "u1") None in
  let a := examplePayload "5" in
  let b := examplePayload "6" in
  run [LogWrongProblem a; Resume 0 true; Resume 0 true;
       LogWrongProblem b; Resume 0 true; Resume 0 true] initial
  = Some (set_storedQueue [a; b] initial)
  /\ run [LogWrongProblem a; LogWrongProblem b;
          Resume 0 true; Resume 1 true; Resume 0 true; Resume 0 true] initial
     = Some (set_storedQueue [b] initial)
  /\ (a ∉ [b])
  /\ exists st,
      run [LogWrongProblem a; Resume 0 true; Resume 0 true;
           AuthStateChanged (Some u); Resume 0 true; Resume 0 true;
           LogWrongProblem b; Resume 1 false; Resume 1 true; Resume 1 true;
           Resume 0 true; Resume 0 true] initial = Some st
      /\ storedQueue st = Some []
      /\ remote st = [(lit "u1", a)]
      /\ tasks st = [] /\ flushInFlight st = false.
Proof.
  cbv zeta. split_and!.
  - vm_compute. reflexivity.
  - rewrite (overlapping_enqueues initial _ _ true true true true eq_refl).
    vm_compute. reflexivity.
  - intros H. apply list_elem_of_singleton in H. vm_compute in H. discriminate H.
  - eexists. vm_compute. split_and!; reflexivity.
Qed.

End OfflineQueue.

(** ** Worked examples *)

Section Witnesses.

Lemma C7_witness :
  getProblemText (Some (document pageClicked)) = Some (lit "What is 2+2?")
  /\ (length (lit "What is 2+2?") <= 2000)%nat.
Proof.
  split; [vm_compute; reflexivity|].
  apply (proj2 (C7_getProblemText_normalized_truncated
                  (Some (document pageClicked)))).
  vm_compute. reflexivity.
Defined.

Lemma C10_witness :
  getProblemId pageClicked (Some (frameDocument [])) = Some (lit "42").
Proof.
  apply (proj1 (proj2 (C10_getProblemId_window_url_only pageClicked)));
    vm_compute; reflexivity.
Defined.

Lemma C2_witness :
  getResultState pageWrong = Some wrong
  /\ getAllCandidateDocuments pageWrong =
     [document pageWrong; frameDocument [span " J "; span "q"]].
Proof.
  pose proof (C2_getResultState_first_marker_wins pageWrong)
    as (_ & _ & _ & Hexact & Hfirst & _).
  split.
  - apply Hfirst. exists [span "x"], (span " J "), [span "q"].
    split; [vm_compute; reflexivity|]. split; [|vm_compute; reflexivity].
    repeat constructor.
  - apply Hexact. refine (bool_decide_unpack _ _). vm_compute. exact I.
Defined.


Lemma reachable_initial : reachable initial.
Proof. exists []. reflexivity. Defined.

Lemma reachable_afterClick : reachable afterClick.
Proof.
  exists [SubmitClick pageClicked; Mutation; Elapse 300]. vm_compute. reflexivity.
Defined.

Lemma C3_witness :
  ~ (fst (shouldLog (examplePayload "5") initial) = true
     /\ fst (shouldLog (examplePayload "5")
               (submitAll (distinctPayloads 49 ++ distinctPayloads 49
                             ++ [examplePayload "5"])
                  (snd (shouldLog (examplePayload "5") initial)))) = true).
Proof.
  assert (Hinv : GateInv (recentSignatures initial)).
  { repeat split; [constructor | constructor | vm_compute; lia]. }
  pose proof (C3_shouldLog_dedup_fifo initial (examplePayload "5") Hinv)
    as (_ & _ & _ & _ & Honce).
  apply Honce.
  - reflexivity.
  - vm_compute. lia.
Defined.

Lemma C1_witness :
  exists st3,
    step (TimerFires 2 pageWrong) afterClick = Some st3
    /\ builds (journal st3) = [buildPayload pageWrong (snapshot pageClicked)]
    /\ pendingSubmission st3 = None.
Proof.
  destruct (C1_wrong_scan_builds_one_payload
              initial afterClick pageClicked pageWrong [Mutation; Elapse 300]
              2%positive 250%Z)
    as (st3 & he & verdict & Hstep & _ & _ & _ & Hb & _ & Hp & _).
  - exact reachable_initial.
  - vm_compute. reflexivity.
  - vm_compute. reflexivity.
  - vm_compute. eexists. reflexivity.
  - vm_compute. reflexivity.
  - vm_compute. discriminate.
  - vm_compute. reflexivity.
  - exists st3. split; [exact Hstep|]. split; [exact Hb | exact Hp].
Defined.

Lemma C4_witness :
  exists st3,
    step (TimerFires 2 pageCorrect) afterClick = Some st3
    /\ builds (journal st3) = [] /\ sends (journal st3) = []
    /\ pendingSubmission st3 = None.
Proof.
  destruct (C4_correct_scan_emits_nothing
              initial afterClick pageClicked pageCorrect [Mutation; Elapse 300]
              2%positive 250%Z)
    as (st3 & he & Hstep & _ & _ & Hp & _ & _ & Hb & _ & Hs).
  - exact reachable_initial.
  - vm_compute. reflexivity.
  - vm_compute. reflexivity.
  - vm_compute. eexists. reflexivity.
  - vm_compute. reflexivity.
  - vm_compute. discriminate.
  - vm_compute. reflexivity.
  - exists st3. split; [exact Hstep|]. split; [exact Hb|]. split; [exact Hs | exact Hp].
Defined.


Lemma C6_witness : step Mutation afterClick = Some afterClick.
Proof.
  destruct (C6_at_most_one_timer_of_each_kind afterClick reachable_afterClick)
    as (_ & Hmut & _).
  apply (Hmut 2%positive 250%Z). vm_compute. reflexivity.
Defined.

Lemma C8_witness :
  exists st3,
    step (SubmitClick pageWrong) afterClick = Some st3
    /\ pendingSubmission st3 = Some (snapshot pageWrong)
    /\ timers st3 !! 1%positive = None.
Proof.
  destruct (C8_second_click_discards_first_snapshot
              initial afterClick pageClicked pageWrong [Mutation; Elapse 300])
    as (st3 & he1 & he2 & Hstep & _ & Ht & Hp & _ & _ & Hgone & _).
  - exact reachable_initial.
  - vm_compute. reflexivity.
  - vm_compute. reflexivity.
  - vm_compute. eexists. reflexivity.
  - exists st3. split; [exact Hstep|]. split; [exact Hp|].
    assert (he1 = 1%positive) as <-; [|exact Hgone].
    vm_compute in Ht. congruence.
Defined.

End Witnesses.

(** * Further properties *)

Section Trim.

Lemma trimStart_head (s : jsstring) (c : N) :
  head (trimStart s) = Some c -> isWhiteSpace c = false.
Proof.
  induction s as [|a r IH]; simpl; [discriminate|].
  destruct (isWhiteSpace a) eqn:Ea; [exact IH|].
  simpl. intros [= <-]. exact Ea.
Qed.

Lemma trimStart_fixed (s : jsstring) :
  (forall c, head s = Some c -> isWhiteSpace c = false) -> trimStart s = s.
Proof.
  intros H. destruct s as [|a r]; [reflexivity|].
  simpl. rewrite (H a eq_refl). reflexivity.
Qed.

Lemma last_rev_head (s : jsstring) : last (rev s) = head s.
Proof.
  destruct s as [|a r]; [reflexivity|]. simpl. apply last_snoc.
Qed.

Lemma head_rev_last (s : jsstring) : head (rev s) = last s.
Proof. rewrite <- (rev_involutive s) at 2. symmetry. apply last_rev_head. Qed.

Lemma trimEnd_last (s : jsstring) (c : N) :
  last (trimEnd s) = Some c -> isWhiteSpace c = false.
Proof. unfold trimEnd. rewrite last_rev_head. apply trimStart_head. Qed.

Lemma trimEnd_fixed (s : jsstring) :
  (forall c, last s = Some c -> isWhiteSpace c = false) -> trimEnd s = s.
Proof.
  intros H. unfold trimEnd. rewrite trimStart_fixed.
  - apply rev_involutive.
  - intros c Hc. apply H. rewrite <- head_rev_last. exact Hc.
Qed.

Lemma trimEnd_head (s : jsstring) (c : N) :
  (forall a, head s = Some a -> isWhiteSpace a = false) ->
  head (trimEnd s) = Some c -> isWhiteSpace c = false.
Proof.
  intros H. destruct s as [|a r]; [discriminate|].
  rewrite trimEnd_cons. specialize (H a eq_refl). rewrite H.
  destruct (trimEnd r); simpl; intros [= <-]; exact H.
Qed.

Lemma trim_edgesClean (s : jsstring) : edgesClean (trim s).
Proof.
  unfold trim. split.
  - intros c. apply trimEnd_head. apply trimStart_head.
  - apply trimEnd_last.
Qed.

Lemma trim_fixed (s : jsstring) : edgesClean s -> trim s = s.
Proof.
  intros [Hh Hl]. unfold trim. rewrite trimStart_fixed by exact Hh.
  apply trimEnd_fixed, Hl.
Qed.

Lemma trim_idempotent (s : jsstring) : trim (trim s) = trim s.
Proof. apply trim_fixed, trim_edgesClean. Qed.

End Trim.

Section UserAnswer.

Lemma firstAnswer_Some (inputs : list Element) (v : jsstring) :
  firstAnswer inputs = Some v <->
  exists pre e post raw,
    inputs = pre ++ e :: post /\ Forall blankInput pre
    /\ value e = Some raw /\ trim raw = v /\ v <> [].
Proof.
  induction inputs as [|x r IH]; simpl.
  - split; [discriminate|]. intros (pre & e & post & raw & E & _).
    destruct pre; discriminate.
  - destruct (value x) as [vx|] eqn:Ex.
    + destruct (trim vx) as [|c t] eqn:Et; simpl.
      * rewrite IH. split.
        -- intros (pre & e & post & raw & -> & Hpre & H).
           exists (x :: pre), e, post, raw. split; [reflexivity|].
           split; [|exact H]. constructor; [|exact Hpre].
           unfold blankInput. rewrite Ex. exact Et.
        -- intros (pre & e & post & raw & E & Hpre & Hv & Ht & Hne).
           destruct pre as [|y pre]; simpl in E; injection E as <- ->.
           ++ congruence.
           ++ inversion Hpre; subst. exists pre, e, post, raw. auto.
      * split.
        -- intros [= <-]. exists [], x, r, vx.
           repeat split; [constructor | exact Ex | exact Et | discriminate].
        -- intros (pre & e & post & raw & E & Hpre & Hv & Ht & Hne).
           destruct pre as [|y pre]; simpl in E; injection E as <- ->.
           ++ congruence.
           ++ inversion Hpre as [|? ? Hb ?]; subst. unfold blankInput in Hb.
              rewrite Ex in Hb. congruence.
    + rewrite IH. split.
      * intros (pre & e & post & raw & -> & Hpre & H).
        exists (x :: pre), e, post, raw. split; [reflexivity|].
        split; [|exact H]. constructor; [|exact Hpre].
        unfold blankInput. rewrite Ex. exact I.
      * intros (pre & e & post & raw & E & Hpre & Hv & Ht & Hne).
        destruct pre as [|y pre]; simpl in E; injection E as <- ->.
        -- congruence.
        -- inversion Hpre; subst. exists pre, e, post, raw. auto.
Qed.

Lemma firstAnswer_None (inputs : list Element) :
  firstAnswer inputs = None <-> Forall blankInput inputs.
Proof.
  induction inputs as [|x r IH]; simpl.
  - split; [constructor | reflexivity].
  - unfold blankInput at 1. destruct (value x) as [vx|] eqn:Ex.
    + destruct (trim vx) as [|c t] eqn:Et; simpl.
      * rewrite IH. split.
        -- intros H. constructor; [|exact H]. unfold blankInput. rewrite Ex. exact Et.
        -- intros H. inversion H; subst. assumption.
      * split; [discriminate|]. intros H. inversion H as [|? ? Hb ?]; subst.
        unfold blankInput in Hb. rewrite Ex in Hb. congruence.
    + rewrite IH. split.
      * intros H. constructor; [|exact H]. unfold blankInput. rewrite Ex. exact I.
      * intros H. inversion H; subst. assumption.
Qed.

(** X1. The answer extractor returns the trimmed value of the first answer
input whose trimmed value is not empty: the answer is not empty, neither starts
nor ends with whitespace, is unchanged by another trim, and every input before
the chosen one has no value or only whitespace.  It returns nothing exactly
when there is no problem document or every answer input is blank. *)
Theorem getUserAnswer_first_nonblank_trimmed (doc : option Document) :
  (forall v : jsstring,
      getUserAnswer doc = Some v ->
      v <> [] /\ edgesClean v /\ trim v = v
      /\ exists d pre e post raw,
          doc = Some d
          /\ querySelectorAll d ANSWER_INPUT_SELECTOR = pre ++ e :: post
          /\ Forall blankInput pre /\ value e = Some raw /\ trim raw = v)
  /\ (getUserAnswer doc = None <->
      match doc with
      | Some d => Forall blankInput (querySelectorAll d ANSWER_INPUT_SELECTOR)
      | None => True
      end).
Proof.
  split.
  - intros v H. destruct doc as [d|]; [|discriminate]. simpl in H.
    apply firstAnswer_Some in H as (pre & e & post & raw & E & Hpre & Hv & Ht & Hne).
    split; [exact Hne|]. subst v. split; [apply trim_edgesClean|].
    split; [apply trim_idempotent|].
    exists d, pre, e, post, raw. auto.
  - destruct doc as [d|]; simpl; [apply firstAnswer_None | tauto].
Qed.

End UserAnswer.

Section ProblemDocument.

Lemma firstFrameWithProblem_Some (frames : list Element) (d : Document) :
  firstFrameWithProblem frames = Some d <->
  exists pre post,
    omap safeAccessFrameDocument frames = pre ++ d :: post
    /\ Forall (fun x => ~ hasProblemText x) pre /\ hasProblemText d.
Proof.
  unfold hasProblemText.
  induction frames as [|f r IH]; simpl.
  - split; [discriminate|]. intros (pre & post & E & _). destruct pre; discriminate.
  - destruct (safeAccessFrameDocument f) as [x|]; simpl; [|exact IH].
    destruct (querySelector x PROBLEM_TEXT_SELECTOR) as [e|] eqn:Ex.
    + split.
      * intros [= <-]. exists [], (omap safeAccessFrameDocument r).
        split; [reflexivity|]. split; [constructor | congruence].
      * intros (pre & post & E & Hpre & Hd).
        destruct pre as [|y pre]; simpl in E; injection E as E1 E2; subst.
        -- reflexivity.
        -- inversion Hpre as [|? ? Hy ?]; subst. exfalso. apply Hy. congruence.
    + rewrite IH. split.
      * intros (pre & post & E & Hpre & Hd). exists (x :: pre), post.
        split; [simpl; f_equal; exact E|]. split; [|exact Hd].
        constructor; [|exact Hpre]. intros H. apply H. exact Ex.
      * intros (pre & post & E & Hpre & Hd).
        destruct pre as [|y pre]; simpl in E; injection E as E1 E2; subst.
        -- contradiction.
        -- inversion Hpre; subst. exists pre, post. auto.
Qed.

Lemma firstFrameWithProblem_None (frames : list Element) :
  firstFrameWithProblem frames = None <->
  Forall (fun x => ~ hasProblemText x) (omap safeAccessFrameDocument frames).
Proof.
  unfold hasProblemText.
  induction frames as [|f r IH]; simpl.
  - split; [constructor | reflexivity].
  - destruct (safeAccessFrameDocument f) as [x|]; simpl; [|exact IH].
    destruct (querySelector x PROBLEM_TEXT_SELECTOR) as [e|] eqn:Ex.
    + split; [discriminate|]. intros H. inversion H as [|? ? Hx ?]; subst.
      exfalso. apply Hx. congruence.
    + rewrite IH. split.
      * intros H. constructor; [|exact H]. intros Hx. apply Hx. exact Ex.
      * intros H. inversion H; subst. assumption.
Qed.

Lemma candidates_NoDup (frames : list Element) (acc : list Document) :
  NoDup (doc_id <$> acc) -> NoDup (doc_id <$> fold_left addFrame frames acc).
Proof.
  revert acc. induction frames as [|f r IH]; intros acc H; simpl; [exact H|].
  apply IH. unfold addFrame. destruct (safeAccessFrameDocument f) as [x|]; [|exact H].
  unfold docSetAdd. destruct (docSetHas acc x) eqn:E; [exact H|].
  rewrite fmap_app. apply NoDup_app. split; [exact H|]. split.
  - intros i Hi Hi'. apply list_elem_of_singleton in Hi'. subst i.
    apply docSetHas_ids in Hi. congruence.
  - apply NoDup_singleton.
Qed.

(** X2. When the top document holds a problem-text element it is the problem
document.  Whatever document is returned holds a problem-text element, is the
top document or an accessible frame document, and is one of the candidate
documents; if no problem text can be read from it, its element's text is
empty after normalisation.  No document is returned exactly when neither the
top document nor any accessible frame document holds a problem-text element. *)
Theorem getProblemDocument_holds_problem_text (page : Page) :
  (hasProblemText (document page) -> getProblemDocument page = Some (document page))
  /\ (forall d : Document,
        getProblemDocument page = Some d ->
        hasProblemText d
        /\ (d = document page \/ d ∈ accessibleFrameDocuments page)
        /\ docSetHas (getAllCandidateDocuments page) d = true
        /\ (getProblemText (Some d) = None ->
            exists e, querySelector d PROBLEM_TEXT_SELECTOR = Some e
                      /\ normalizeText (textContent e) = []))
  /\ (getProblemDocument page = None <->
      ~ hasProblemText (document page)
      /\ Forall (fun x => ~ hasProblemText x) (accessibleFrameDocuments page)).
Proof.
  unfold accessibleFrameDocuments. rewrite <- safeAccess_omap.
  assert (Hfound : forall d, getProblemDocument page = Some d ->
            hasProblemText d
            /\ (d = document page
                \/ d ∈ omap safeAccessFrameDocument
                       (querySelectorAll (document page) IFRAME_SELECTOR))).
  { intros d H. unfold getProblemDocument in H.
    destruct (querySelector (document page) PROBLEM_TEXT_SELECTOR) as [e|] eqn:Et.
    - injection H as <-. split; [unfold hasProblemText; congruence | left; reflexivity].
    - apply firstFrameWithProblem_Some in H as (pre & post & E & _ & Hd).
      split; [exact Hd|]. right. rewrite E. apply elem_of_app. right. left. }
  split_and!.
  - unfold hasProblemText, getProblemDocument. intros H.
    destruct (querySelector (document page) PROBLEM_TEXT_SELECTOR); [reflexivity|].
    contradiction.
  - intros d H. destruct (Hfound d H) as [Hd Hwhere]. split; [exact Hd|].
    split; [exact Hwhere|]. split.
    + unfold getAllCandidateDocuments. destruct Hwhere as [->|Hin].
      * apply candidates_keep. apply docSetHas_elem. left.
      * apply candidates_complete, Hin.
    + intros Hnone. unfold hasProblemText in Hd. unfold getProblemText in Hnone.
      destruct (querySelector d PROBLEM_TEXT_SELECTOR) as [e|]; [|contradiction].
      exists e. split; [reflexivity|].
      destruct (textContent e) as [|c r] eqn:Ee; [reflexivity|].
      cbn [truthy] in Hnone. destruct (normalizeText (c :: r)); [reflexivity|].
      discriminate.
  - unfold getProblemDocument, hasProblemText.
    destruct (querySelector (document page) PROBLEM_TEXT_SELECTOR) as [e|].
    + split; [discriminate|]. intros [H _]. exfalso. apply H. discriminate.
    + rewrite firstFrameWithProblem_None. split.
      * intros H. split; [intros Hc; apply Hc; reflexivity | exact H].
      * intros [_ H]. exact H.
Qed.

(** X3. The candidate documents are pairwise distinct, the top document comes
first, and there are at most one more of them than the top document has
iframes. *)
Theorem getAllCandidateDocuments_distinct (page : Page) :
  NoDup (doc_id <$> getAllCandidateDocuments page)
  /\ head (getAllCandidateDocuments page) = Some (document page)
  /\ length (getAllCandidateDocuments page)
     <= S (length (querySelectorAll (document page) IFRAME_SELECTOR)).
Proof.
  unfold getAllCandidateDocuments. split_and!.
  - apply candidates_NoDup. simpl. apply NoDup_singleton.
  - destruct (candidates_prefix (querySelectorAll (document page) IFRAME_SELECTOR)
                [document page]) as [rest ->]. reflexivity.
  - generalize (querySelectorAll (document page) IFRAME_SELECTOR) as frames.
    assert (H : forall frames acc,
               length (fold_left addFrame frames acc) <= length acc + length frames).
    { induction frames as [|f r IH]; intros acc; simpl; [lia|].
      etransitivity; [apply IH|]. unfold addFrame.
      destruct (safeAccessFrameDocument f); [|lia].
      unfold docSetAdd. destruct (docSetHas acc d); [lia|].
      rewrite length_app. simpl. lia. }
    intros frames. apply (H frames [document page]).
Qed.

End ProblemDocument.

Section NormalizedShape.

Lemma replaceRuns_spaces (b : bool) (s : jsstring) :
  Forall (fun c => isWhiteSpace c = true -> c = SPACE) (replaceRuns b s).
Proof.
  revert b. induction s as [|c r IH]; intros b; simpl; [constructor|].
  destruct (isWhiteSpace c) eqn:Ec.
  - destruct b; [apply IH|]. constructor; [reflexivity | apply IH].
  - constructor; [congruence | apply IH].
Qed.

Lemma replaceRuns_head_in_run (s : jsstring) (c : N) :
  head (replaceRuns true s) = Some c -> isWhiteSpace c = false.
Proof.
  induction s as [|a r IH]; simpl; [discriminate|].
  destruct (isWhiteSpace a) eqn:Ea; [exact IH|]. simpl. congruence.
Qed.

Lemma replaceRuns_noDouble (b : bool) (s : jsstring) :
  noDoubleWhitespace (replaceRuns b s).
Proof.
  revert b. induction s as [|c r IH]; intros b; [exact I|].
  cbn [replaceRuns]. destruct (isWhiteSpace c) eqn:Ec.
  - destruct b; [apply IH|].
    pose proof (IH true) as Hr. pose proof (replaceRuns_head_in_run r) as Hh.
    destruct (replaceRuns true r) as [|d t]; [exact I|].
    split; [|exact Hr]. intros _. apply Hh. reflexivity.
  - pose proof (IH false) as Hr.
    destruct (replaceRuns false r) as [|d t]; [exact I|].
    split; [congruence | exact Hr].
Qed.

Lemma noDouble_tail (c : N) (s : jsstring) :
  noDoubleWhitespace (c :: s) -> noDoubleWhitespace s.
Proof. destruct s; [intros; exact I | intros [_ H]; exact H]. Qed.

Lemma trimStart_noDouble (s : jsstring) :
  noDoubleWhitespace s -> noDoubleWhitespace (trimStart s).
Proof.
  induction s as [|c r IH]; intros H; [exact I|]. simpl.
  destruct (isWhiteSpace c); [|exact H]. apply IH. apply (noDouble_tail c), H.
Qed.

Lemma trimEnd_head_same (s : jsstring) :
  trimEnd s <> [] -> head (trimEnd s) = head s.
Proof.
  destruct s as [|c r]; [reflexivity|]. rewrite trimEnd_cons.
  destruct (trimEnd r); [|reflexivity].
  destruct (isWhiteSpace c); [contradiction | reflexivity].
Qed.

Lemma trimEnd_noDouble (s : jsstring) :
  noDoubleWhitespace s -> noDoubleWhitespace (trimEnd s).
Proof.
  induction s as [|c r IH]; intros H; [exact I|].
  rewrite trimEnd_cons. pose proof (IH (noDouble_tail c r H)) as Hr.
  pose proof (trimEnd_head_same r) as Hh.
  destruct (trimEnd r) as [|d t] eqn:E.
  - destruct (isWhiteSpace c); exact I.
  - split; [|exact Hr]. destruct r as [|d' t']; [discriminate E|].
    destruct H as [H _]. specialize (Hh ltac:(discriminate)).
    simpl in Hh. injection Hh as ->. exact H.
Qed.

Lemma Forall_trimStart (P : N -> Prop) (s : jsstring) :
  Forall P s -> Forall P (trimStart s).
Proof.
  induction 1 as [|c r Hc Hr IH]; simpl; [constructor|].
  destruct (isWhiteSpace c); [exact IH | constructor; assumption].
Qed.

Lemma Forall_trimEnd (P : N -> Prop) (s : jsstring) :
  Forall P s -> Forall P (trimEnd s).
Proof.
  intros H. unfold trimEnd. apply Forall_rev, Forall_trimStart, Forall_rev, H.
Qed.

Lemma inkOf_trimStart (s : jsstring) : inkOf (trimStart s) = inkOf s.
Proof.
  induction s as [|c r IH]; [reflexivity|]. simpl.
  destruct (isWhiteSpace c) eqn:Ec; simpl; [exact IH|]. rewrite Ec. reflexivity.
Qed.

Lemma inkOf_rev (s : jsstring) : inkOf (rev s) = rev (inkOf s).
Proof.
  unfold inkOf. induction s as [|c r IH]; [reflexivity|]. simpl.
  rewrite List.filter_app, IH. simpl.
  destruct (isWhiteSpace c); simpl; [apply app_nil_r | reflexivity].
Qed.

Lemma inkOf_trimEnd (s : jsstring) : inkOf (trimEnd s) = inkOf s.
Proof.
  unfold trimEnd. rewrite inkOf_rev, inkOf_trimStart, inkOf_rev.
  apply rev_involutive.
Qed.

Lemma inkOf_replaceRuns (b : bool) (s : jsstring) :
  inkOf (replaceRuns b s) = inkOf s.
Proof.
  revert b. induction s as [|c r IH]; intros b; [reflexivity|]. simpl.
  destruct (isWhiteSpace c) eqn:Ec; simpl.
  - destruct b; [apply IH|]. simpl. apply IH.
  - rewrite Ec. simpl. f_equal. apply IH.
Qed.

Lemma words_are_words (s : jsstring) : Forall isWord (words s).
Proof.
  induction s as [|c r IH]; simpl; [constructor|].
  destruct (isWhiteSpace c) eqn:Ec; [exact IH|].
  destruct r as [|d r'].
  - repeat constructor; [discriminate | exact Ec].
  - destruct (isWhiteSpace d) eqn:Ed.
    + constructor; [|exact IH]. repeat constructor; [discriminate | exact Ec].
    + destruct (words (d :: r')) as [|w ws].
      * repeat constructor; [discriminate | exact Ec].
      * inversion IH as [|? ? [Hne Hw] Hws]; subst.
        constructor; [|exact Hws]. split; [discriminate|].
        constructor; assumption.
Qed.

Lemma words_word_then (w rest : jsstring) :
  isWord w ->
  (forall d, head rest = Some d -> isWhiteSpace d = true) ->
  words (w ++ rest) = w :: words rest.
Proof.
  intros [Hne Hw] Hrest. induction w as [|c w IH]; [contradiction|].
  inversion Hw as [|? ? Hc Hw']; subst.
  rewrite <- app_comm_cons, (words_cons_not_ws c (w ++ rest) Hc).
  destruct w as [|c' w'].
  - simpl. destruct rest as [|d t]; [reflexivity|].
    rewrite (Hrest d eq_refl). reflexivity.
  - rewrite <- app_comm_cons. inversion Hw' as [|? ? Hc' _]; subst.
    rewrite Hc'. rewrite app_comm_cons, IH; [reflexivity | discriminate | exact Hw'].
Qed.

Lemma words_unwords (ws : list jsstring) :
  Forall isWord ws -> words (unwords ws) = ws.
Proof.
  induction 1 as [|w r Hw Hr IH]; [reflexivity|].
  rewrite unwords_cons. destruct r as [|w' r'].
  - rewrite <- (app_nil_r w) at 1. rewrite words_word_then; [reflexivity | exact Hw|].
    discriminate.
  - rewrite words_word_then; [|exact Hw|intros d [= <-]; reflexivity].
    f_equal. rewrite <- IH at 2. reflexivity.
Qed.

(** X4. A normalised text neither starts nor ends with whitespace, its only
whitespace code unit is the space, no two whitespace code units are adjacent,
its non-whitespace code units are those of the original text in the same
order, and it is no longer than the original. *)
Theorem normalizeText_shape (s : jsstring) :
  edgesClean (normalizeText s)
  /\ Forall (fun c => isWhiteSpace c = true -> c = SPACE) (normalizeText s)
  /\ noDoubleWhitespace (normalizeText s)
  /\ inkOf (normalizeText s) = inkOf s
  /\ length (normalizeText s) <= length s.
Proof.
  unfold normalizeText, replaceWhitespaceRuns. split_and!.
  - apply trim_edgesClean.
  - unfold trim. apply Forall_trimEnd, Forall_trimStart, replaceRuns_spaces.
  - unfold trim. apply trimEnd_noDouble, trimStart_noDouble, replaceRuns_noDouble.
  - unfold trim. rewrite inkOf_trimEnd, inkOf_trimStart. apply inkOf_replaceRuns.
  - unfold trim.
    assert (H1 : forall u, length (trimStart u) <= length u).
    { induction u as [|c r IH]; simpl; [lia|].
      destruct (isWhiteSpace c); simpl; lia. }
    assert (H2 : forall b u, length (replaceRuns b u) <= length u).
    { intros b u. revert b. induction u as [|c r IH]; intros b; simpl; [lia|].
      pose proof (IH true). pose proof (IH false).
      destruct (isWhiteSpace c); [destruct b|]; simpl; lia. }
    unfold trimEnd. rewrite length_rev.
    etransitivity; [apply H1|]. rewrite length_rev.
    etransitivity; [apply H1|]. apply H2.
Qed.

(** X5. Normalising twice is normalising once, normalising keeps the words of
the text, and the normalised text is empty exactly when the text holds only
whitespace. *)
Theorem normalizeText_idempotent (s : jsstring) :
  normalizeText (normalizeText s) = normalizeText s
  /\ words (normalizeText s) = words s
  /\ (normalizeText s = [] <-> Forall (fun c => isWhiteSpace c = true) s).
Proof.
  rewrite !normalizeText_normalized. unfold normalized.
  rewrite words_unwords by apply words_are_words. split_and!; try reflexivity.
  split.
  - intros H. apply unwords_nil_inv in H; [|apply words_nonempty].
    induction s as [|c r IH]; [constructor|].
    destruct (isWhiteSpace c) eqn:Ec.
    + constructor; [exact Ec|]. apply IH. simpl in H. rewrite Ec in H. exact H.
    + exfalso. apply (words_head_not_ws c r Ec). exact H.
  - intros H. induction H as [|c r Hc Hr IH]; [reflexivity|].
    simpl. rewrite Hc. exact IH.
Qed.

End NormalizedShape.

Section JournalDelta.

Local Opaque getResultState buildPayload signatureOf setHas.

Lemma journal_clearPending (st : State) :
  exists d, journal (clearPending st) = journal st ++ d
            /\ forallb timerCall d = true.
Proof.
  destruct (clearPending_spec st) as (_ & _ & _ & _ & _ & _ & _ & Hj).
  eexists. split; [exact Hj|]. destruct (pendingTimeout st); reflexivity.
Qed.

Lemma journal_scheduleResultScan (st : State) :
  exists d, journal (scheduleResultScan st) = journal st ++ d
            /\ forallb timerCall d = true.
Proof.
  unfold scheduleResultScan.
  destruct (pendingSubmission st); [|exists []; rewrite app_nil_r; auto].
  destruct (scanTimeout st); [exists []; rewrite app_nil_r; auto|].
  cbn. eexists. split; reflexivity.
Qed.

Lemma journal_handleSubmitClick (page : Page) (st : State) :
  exists d, journal (handleSubmitClick page st) = journal st ++ d
            /\ forallb timerCall d = true.
Proof.
  unfold handleSubmitClick.
  destruct (journal_scheduleResultScan
              (startPendingTimeout
                 (set_pendingSubmission (Some (snapshot page)) st)))
    as (d2 & E2 & F2).
  rewrite E2. unfold startPendingTimeout. cbn.
  destruct (pendingTimeout st); cbn; rewrite <- !app_assoc;
    eexists; (split; [reflexivity|]); cbn; exact F2.
Qed.

(** What one turn of the event loop appends to the journal: timer calls
only, or, for a scan that sees the wrong marker with a submission pending,
timer calls followed by one payload built, gated, and sent when the gate
says so. *)
Lemma step_journal (e : Event) (st st' : State) :
  step e st = Some st' ->
  exists d,
    journal st' = journal st ++ d
    /\ ((forallb timerCall d = true
         /\ recentSignatures st' = recentSignatures st)
        \/ exists h page pending d0,
            e = TimerFires h page
            /\ pendingSubmission st = Some pending
            /\ forallb timerCall d0 = true
            /\ d = d0 ++ wrongScanEntries (buildPayload page pending)
                           (negb (setHas (recentSignatures st)
                                    (signatureOf (buildPayload page pending))))
            /\ recentSignatures st' =
               gateStep (recentSignatures st)
                        (signatureOf (buildPayload page pending))).
Proof.
  intros Hstep. destruct e as [page| |h page|dt]; cbn in Hstep.
  - injection Hstep as <-.
    destruct (journal_handleSubmitClick page st) as (d & E & F).
    exists d. split; [exact E|]. left. split; [exact F|].
    destruct (step_recentSignatures (SubmitClick page) st _ eq_refl)
      as [H|[p H]]; [exact H|].
    unfold handleSubmitClick.
    destruct (scheduleResultScan_keeps
                (startPendingTimeout
                   (set_pendingSubmission (Some (snapshot page)) st)))
      as (_ & _ & Kr & _).
    rewrite Kr. unfold startPendingTimeout. cbn.
    destruct (pendingTimeout st); reflexivity.
  - injection Hstep as <-.
    destruct (journal_scheduleResultScan st) as (d & E & F).
    exists d. split; [exact E|]. left. split; [exact F|].
    destruct (scheduleResultScan_keeps st) as (_ & _ & Kr & _). exact Kr.
  - destruct (timers st !! h) as [[due cb]|]; [|discriminate].
    destruct (due <=? clock st)%Z; [|discriminate]. injection Hstep as <-.
    destruct cb; cbn.
    + unfold checkForResult. cbn.
      destruct (pendingSubmission st) as [pending|] eqn:Ep; cbn;
        [|exists []; rewrite app_nil_r; split; [reflexivity|]; left; auto].
      destruct (getResultState page) as [[]|] eqn:Er; cbn;
        [| |exists []; rewrite app_nil_r; split; [reflexivity|]; left; auto].
      * match goal with |- context [clearPending ?s] =>
          destruct (journal_clearPending s) as (d & E & F);
          destruct (clearPending_spec s) as (_ & _ & _ & Cr & _)
        end.
        exists d. split; [exact E|]. left. split; [exact F | exact Cr].
      * match goal with |- context [clearPending ?s] =>
          destruct (journal_clearPending s) as (d & E & F);
          destruct (clearPending_spec s) as (_ & _ & _ & Cr & _)
        end.
        cbn [journal recentSignatures set_scanTimeout] in E, Cr.
        unfold shouldLog. cbn [recentSignatures record]. rewrite Cr.
        exists (d ++ wrongScanEntries (buildPayload page pending)
                       (negb (setHas (recentSignatures st) (signatureOf (buildPayload page pending))))).
        split.
        -- destruct (setHas (recentSignatures st) (signatureOf (buildPayload page pending)));
             cbn [negb sendLog record journal set_recentSignatures wrongScanEntries];
             rewrite E, <- !app_assoc; reflexivity.
        -- right. exists h, page, pending, d.
           split; [reflexivity|]. split; [reflexivity|]. split; [exact F|].
           split; [reflexivity|]. unfold gateStep.
           destruct (setHas (recentSignatures st) (signatureOf (buildPayload page pending)));
             cbn [sendLog record recentSignatures set_recentSignatures];
             [exact Cr | reflexivity].
    + match goal with |- context [clearPending ?s] =>
        destruct (journal_clearPending s) as (d & E & F);
        destruct (clearPending_spec s) as (_ & _ & _ & Cr & _)
      end.
      exists d. split; [exact E|]. left. split; [exact F | exact Cr].
  - destruct (0 <=? dt)%Z; [|discriminate]. injection Hstep as <-.
    exists []. rewrite app_nil_r. split; [reflexivity|]. left. auto.
Qed.

Lemma timerCalls_silent (d : list Action) :
  forallb timerCall d = true ->
  builds d = [] /\ gated d = [] /\ passed d = [] /\ sends d = [].
Proof.
  induction d as [|a r IH]; [auto|]. cbn [forallb].
  intros H. apply andb_true_iff in H as [Ha Hr].
  destruct (IH Hr) as (I1 & I2 & I3 & I4).
  destruct a; try discriminate; cbn; auto.
Qed.

End JournalDelta.

Section Coherence.

Local Opaque getResultState signatureOf setHas.

Lemma getProblemText_inBounds (doc : option Document) :
  textInBounds (getProblemText doc).
Proof.
  intros t H. unfold getProblemText in H. destruct doc as [d|]; [|discriminate].
  destruct (querySelector d PROBLEM_TEXT_SELECTOR) as [e|]; [|discriminate].
  destruct (truthy (textContent e)); [|discriminate].
  destruct (normalizeText (textContent e)) as [|c r]; [discriminate|].
  cbn in H. injection H as <-. split; [discriminate|].
  apply (length_take_MAX (c :: r)).
Qed.

Lemma getUserAnswer_trimmed (doc : option Document) :
  answerTrimmed (getUserAnswer doc).
Proof.
  intros v H. destruct doc as [d|]; [|discriminate]. simpl in H.
  apply firstAnswer_Some in H as (pre & e & post & raw & _ & _ & _ & <- & Hne).
  split; [exact Hne | apply trim_edgesClean].
Qed.

Lemma snapshot_wellFormed (page : Page) : wellFormedPending (snapshot page).
Proof.
  split; [apply getProblemText_inBounds | apply getUserAnswer_trimmed].
Qed.

Lemma buildPayload_wellFormed (page : Page) (pending : PendingSubmission) :
  wellFormedPending pending -> wellFormedPayload (buildPayload page pending).
Proof.
  intros [Ht Ha]. unfold wellFormedPayload, buildPayload. cbn.
  split_and!; try reflexivity; try discriminate.
  - intros t H. destruct (pending_problemText pending) as [t'|] eqn:E; cbn in H.
    + apply Ht. congruence.
    + apply (getProblemText_inBounds _ t H).
  - intros v H. destruct (pending_userAnswer pending) as [v'|] eqn:E; cbn in H.
    + apply Ha. congruence.
    + apply (getUserAnswer_trimmed _ v H).
Qed.

(** How one turn changes the slot. *)
Lemma step_pending (e : Event) (st st' : State) :
  step e st = Some st' ->
  pendingSubmission st' = pendingSubmission st
  \/ pendingSubmission st' = None
  \/ exists page, e = SubmitClick page
                  /\ pendingSubmission st' = Some (snapshot page).
Proof.
  intros Hstep. destruct e as [page| |h page|dt]; cbn in Hstep.
  - injection Hstep as <-. right. right. exists page. split; [reflexivity|].
    unfold handleSubmitClick.
    match goal with |- pendingSubmission (scheduleResultScan ?s) = _ =>
      destruct (scheduleResultScan_keeps s) as (Kp & _)
    end.
    rewrite Kp. unfold startPendingTimeout. cbn.
    destruct (pendingTimeout st); reflexivity.
  - injection Hstep as <-. left.
    destruct (scheduleResultScan_keeps st) as (Kp & _). exact Kp.
  - destruct (timers st !! h) as [[due cb]|]; [|discriminate].
    destruct (due <=? clock st)%Z; [|discriminate]. injection Hstep as <-.
    destruct cb; cbn.
    + unfold checkForResult. cbn.
      destruct (pendingSubmission st) as [pending|] eqn:Ep; cbn; [|auto].
      destruct (getResultState page) as [[]|]; cbn; [| |auto].
      * right. left.
        match goal with |- context [clearPending ?s] =>
          destruct (clearPending_spec s) as (Cp & _)
        end. exact Cp.
      * right. left. unfold shouldLog.
        match goal with |- context [clearPending ?s] =>
          destruct (clearPending_spec s) as (Cp & _)
        end.
        destruct (setHas _ _); cbn; exact Cp.
    + right. left.
      match goal with |- context [clearPending ?s] =>
        destruct (clearPending_spec s) as (Cp & _)
      end. exact Cp.
  - destruct (0 <=? dt)%Z; [|discriminate]. injection Hstep as <-. left.
    reflexivity.
Qed.

Lemma passed_app (a b : list Action) : passed (a ++ b) = passed a ++ passed b.
Proof. apply omap_app. Qed.

Lemma tail_drop (n : nat) (l : list jsstring) : tail (drop n l) = drop (S n) l.
Proof.
  revert l. induction n as [|n IH]; intros l.
  - destruct l; reflexivity.
  - destruct l as [|a l]; [reflexivity|]. apply IH.
Qed.

Lemma drop_last_capacity (sigs : list jsstring) (x : jsstring) :
  let s := drop (length sigs - MAX_RECENT_LOGS) sigs in
  (if length s <? MAX_RECENT_LOGS then s else tail s) ++ [x]
  = drop (length (sigs ++ [x]) - MAX_RECENT_LOGS) (sigs ++ [x]).
Proof.
  cbv zeta. rewrite length_drop, length_app. cbn [length].
  unfold MAX_RECENT_LOGS.
  destruct (length sigs - (length sigs - 50) <? 50) eqn:E.
  - apply Nat.ltb_lt in E.
    replace (length sigs - 50) with 0 by lia.
    replace (length sigs + 1 - 50) with 0 by lia. reflexivity.
  - apply Nat.ltb_ge in E.
    replace (length sigs + 1 - 50) with (S (length sigs - 50)) by lia.
    rewrite drop_app_le by lia. f_equal.
    apply tail_drop.
Qed.

Lemma Coherent_initial : Coherent initial.
Proof.
  unfold Coherent, initial. cbn. split_and!; try reflexivity.
  - constructor.
  - discriminate.
  - repeat split; [constructor | constructor | cbn; unfold MAX_RECENT_LOGS; lia].
Qed.

Lemma Coherent_step (e : Event) (st st' : State) :
  step e st = Some st' -> Coherent st -> Coherent st'.
Proof.
  intros Hstep (Hb & Hs & Hw & Hp & Hr & Hg).
  assert (Hp' : forall p, pendingSubmission st' = Some p -> wellFormedPending p).
  { intros p Hst'. destruct (step_pending e st st' Hstep) as [H|[H|(page & _ & H)]].
    - apply Hp. congruence.
    - congruence.
    - rewrite H in Hst'. injection Hst' as <-. apply snapshot_wellFormed. }
  destruct (step_journal e st st' Hstep)
    as (d & Ej & [[Ft Er]|(h & page & pending & d0 & -> & Ep & F0 & -> & Er)]).
  - destruct (timerCalls_silent d Ft) as (D1 & D2 & D3 & D4).
    unfold Coherent.
    rewrite Ej, builds_app, gated_app, sends_app, passed_app, D1, D2, D3, D4,
      !app_nil_r, Er.
    split_and!; assumption.
  - destruct (timerCalls_silent d0 F0) as (D1 & D2 & D3 & D4).
    set (p := buildPayload page pending) in *.
    assert (Wp : wellFormedPayload p) by (apply buildPayload_wellFormed, Hp, Ep).
    unfold gateStep in Er.
    destruct (setHas (recentSignatures st) (signatureOf p)) eqn:Eh;
      cbn [negb wrongScanEntries app] in Ej.
    + assert (B : builds (journal st') = builds (journal st) ++ [p])
        by (rewrite Ej, !builds_app, D1; reflexivity).
      assert (G : gated (journal st') = gated (journal st) ++ [p])
        by (rewrite Ej, !gated_app, D2; reflexivity).
      assert (S : sends (journal st') = sends (journal st))
        by (rewrite Ej, !sends_app, D4; cbn; apply app_nil_r).
      assert (P : passed (journal st') = passed (journal st))
        by (rewrite Ej, !passed_app, D3; cbn; apply app_nil_r).
      unfold Coherent. rewrite B, G, S, P, Er. split_and!; try assumption.
      * congruence.
      * apply Forall_app. split; [exact Hw | constructor; [exact Wp | constructor]].
    + assert (B : builds (journal st') = builds (journal st) ++ [p])
        by (rewrite Ej, !builds_app, D1; reflexivity).
      assert (G : gated (journal st') = gated (journal st) ++ [p])
        by (rewrite Ej, !gated_app, D2; reflexivity).
      assert (S : sends (journal st') = sends (journal st) ++ [p])
        by (rewrite Ej, !sends_app, D4; reflexivity).
      assert (P : passed (journal st') = passed (journal st) ++ [p])
        by (rewrite Ej, !passed_app, D3; reflexivity).
      apply setHas_not_elem in Eh.
      unfold Coherent. rewrite B, G, S, P. split_and!; try assumption.
      * congruence.
      * congruence.
      * apply Forall_app. split; [exact Hw | constructor; [exact Wp | constructor]].
      * rewrite Er, (addAndEvict_exact _ _ Hg Eh), Hr.
        rewrite <- (length_fmap signatureOf (sends (journal st))).
        rewrite <- (length_fmap signatureOf (sends (journal st) ++ [p])), fmap_app.
        apply drop_last_capacity.
      * rewrite Er. apply GateInv_addAndEvict;
          [exact Hg | exact Eh | apply signatureOf_not_empty].
Qed.

Lemma reachable_Coherent (st : State) : reachable st -> Coherent st.
Proof.
  intros [events Hrun]. revert Hrun. generalize Coherent_initial.
  generalize initial. induction events as [|e r IH]; intros s0 H0 Hrun.
  - injection Hrun as <-. exact H0.
  - simpl in Hrun. destruct (step e s0) as [s1|] eqn:E; [|discriminate].
    apply (IH s1); [|exact Hrun]. apply (Coherent_step e s0 s1 E H0).
Qed.

End Coherence.

Section Due.

Local Opaque getResultState buildPayload signatureOf setHas.

Ltac look :=
  repeat (rewrite lookup_insert in * || rewrite lookup_delete in *);
  repeat case_decide; subst; simplify_eq.

Lemma timersFrom_refl (st : State) : timersFrom st st.
Proof. split; [reflexivity | auto]. Qed.

Lemma timersFrom_trans (a b c : State) :
  timersFrom a b -> timersFrom b c -> timersFrom a c.
Proof.
  intros [C1 H1] [C2 H2]. split; [congruence|].
  intros h due cb H. destruct (H2 h due cb H) as [H'|H'].
  - apply H1, H'.
  - right. congruence.
Qed.

Lemma timersFrom_same (st st' : State) :
  clock st' = clock st -> timers st' = timers st -> timersFrom st st'.
Proof. intros Hc Ht. split; [exact Hc|]. rewrite Ht. auto. Qed.

Lemma timersFrom_clearPending (st : State) : timersFrom st (clearPending st).
Proof.
  destruct (clearPending_spec st) as (_ & _ & _ & _ & Hc & _ & Ht & _).
  split; [exact Hc|]. rewrite Ht. intros h due cb H.
  destruct (pendingTimeout st); [|auto]. look. auto.
Qed.

Lemma timersFrom_scheduleResultScan (st : State) :
  timersFrom st (scheduleResultScan st).
Proof.
  unfold scheduleResultScan.
  destruct (pendingSubmission st); [|apply timersFrom_refl].
  destruct (scanTimeout st); [apply timersFrom_refl|].
  split; [reflexivity|]. cbn. intros h due cb H. look; auto.
Qed.

Lemma timersFrom_handleSubmitClick (page : Page) (st : State) :
  timersFrom st (handleSubmitClick page st).
Proof.
  unfold handleSubmitClick.
  eapply timersFrom_trans; [|apply timersFrom_scheduleResultScan].
  unfold startPendingTimeout. cbn.
  destruct (pendingTimeout st); (split; [reflexivity|]); cbn;
    intros h due cb H; look; auto.
Qed.

Lemma timersFrom_checkForResult (page : Page) (st : State) :
  timersFrom st (checkForResult page st).
Proof.
  unfold checkForResult.
  destruct (pendingSubmission st); [|apply timersFrom_refl].
  destruct (getResultState page) as [[]|]; [| |apply timersFrom_refl].
  - apply timersFrom_clearPending.
  - eapply timersFrom_trans; [apply timersFrom_clearPending|].
    unfold shouldLog. cbn. destruct (setHas _ _); cbn;
      apply timersFrom_same; reflexivity.
Qed.

Lemma DueInv_from (st st' : State) :
  timersFrom st st' -> DueInv st -> DueInv st'.
Proof.
  intros [Hc Ht] Hd h due cb H. rewrite Hc.
  destruct (Ht h due cb H) as [H1 | ->]; [apply (Hd h), H1 | lia].
Qed.

Lemma DueInv_step (e : Event) (st st' : State) :
  step e st = Some st' -> DueInv st -> DueInv st'.
Proof.
  intros Hstep Hd. destruct e as [page| |h page|dt]; cbn in Hstep.
  - injection Hstep as <-.
    apply (DueInv_from st); [apply timersFrom_handleSubmitClick | exact Hd].
  - injection Hstep as <-.
    apply (DueInv_from st); [apply timersFrom_scheduleResultScan | exact Hd].
  - destruct (timers st !! h) as [[due cb]|]; [|discriminate].
    destruct (due <=? clock st)%Z; [|discriminate]. injection Hstep as <-.
    match goal with |- DueInv (runCallback _ _ ?s) =>
      assert (H0 : DueInv s)
    end.
    { intros h' due' cb' H. cbn in H. look. apply (Hd h'), H. }
    destruct cb; cbn [runCallback].
    + eapply DueInv_from; [apply timersFrom_checkForResult|].
      intros h' due' cb' H. apply (H0 h' due' cb'). exact H.
    + eapply DueInv_from; [apply timersFrom_clearPending | exact H0].
  - destruct (0 <=? dt)%Z eqn:Ed; [|discriminate]. injection Hstep as <-.
    apply Z.leb_le in Ed. intros h due cb H. cbn in H |- *.
    specialize (Hd h due cb H). lia.
Qed.

Lemma reachable_DueInv (st : State) : reachable st -> DueInv st.
Proof.
  intros [events Hrun].
  assert (H0 : DueInv initial) by (intros h due cb H; cbn in H; look).
  revert Hrun H0. generalize initial.
  induction events as [|e r IH]; intros s0 Hrun H0.
  - injection Hrun as <-. exact H0.
  - simpl in Hrun. destruct (step e s0) as [s1|] eqn:E; [|discriminate].
    apply (IH s1 Hrun). apply (DueInv_step e s0 s1 E H0).
Qed.

End Due.

Section GateWindow.

Local Opaque signatureOf.

Lemma fold_gateStep_fresh (sigs s : list jsstring) :
  GateInv s -> NoDup sigs ->
  (forall x, x ∈ sigs -> (x ∉ s) /\ x <> []) ->
  fold_left gateStep sigs s
  = drop (length s + length sigs - MAX_RECENT_LOGS) (s ++ sigs).
Proof.
  revert s. induction sigs as [|x r IH]; intros s Hinv Hnd Hfresh.
  - simpl. rewrite app_nil_r. destruct Hinv as (_ & _ & Hlen).
    replace (length s + 0 - MAX_RECENT_LOGS) with 0 by lia. reflexivity.
  - apply NoDup_cons in Hnd as [Hx Hr].
    destruct (Hfresh x) as [Hxs Hxne]; [left|].
    cbn [fold_left]. unfold gateStep at 2.
    pose proof Hxs as Hxs'. apply setHas_not_elem in Hxs'. rewrite Hxs'.
    pose proof (GateInv_addAndEvict s x Hinv Hxs Hxne) as Hinv'.
    rewrite (addAndEvict_exact s x Hinv Hxs) in *.
    rewrite IH; [|exact Hinv'|exact Hr|].
    + destruct Hinv as (_ & _ & Hlen). unfold MAX_RECENT_LOGS in *.
      destruct (length s <? 50) eqn:E.
      * apply Nat.ltb_lt in E. rewrite length_app, <- app_assoc. cbn [length app].
        f_equal. lia.
      * apply Nat.ltb_ge in E. destruct s as [|h t]; [simpl in E; lia|].
        cbn [tail]. rewrite length_app, <- app_assoc. cbn [length app] in *.
        replace (length t + 1 + length r - 50) with (length r) by lia.
        replace (S (length t) + S (length r) - 50) with (S (length r)) by lia.
        reflexivity.
    + intros y Hy. destruct (Hfresh y) as [Hys Hyne]; [right; exact Hy|].
      split; [|exact Hyne]. intros Hin. apply elem_of_app in Hin as [Hin|Hin].
      * apply Hys. destruct (length s <? MAX_RECENT_LOGS); [exact Hin|].
        destruct s; [inversion Hin | right; exact Hin].
      * apply list_elem_of_singleton in Hin. subst y. contradiction.
Qed.

(** X7. Submitting to the gate payloads with pairwise distinct signatures,
none of them in the set, leaves the last 50 of the old signatures followed by
the new ones; after 50 or more of them every signature that was in the set is
forgotten and accepted again. *)
Theorem dedup_forgets_after_capacity (st : State) (mid : list ProblemLogPayload) :
  GateInv (recentSignatures st) ->
  NoDup (signatureOf <$> mid) ->
  (forall q, q ∈ mid -> signatureOf q ∉ recentSignatures st) ->
  recentSignatures (submitAll mid st)
  = drop (length (recentSignatures st) + length mid - 50)
         (recentSignatures st ++ (signatureOf <$> mid))
  /\ (50 <= length mid ->
      forall p, signatureOf p ∈ recentSignatures st ->
                fst (shouldLog p (submitAll mid st)) = true).
Proof.
  intros Hinv Hnd Hfresh.
  assert (E : recentSignatures (submitAll mid st)
              = drop (length (recentSignatures st) + length mid - 50)
                     (recentSignatures st ++ (signatureOf <$> mid))).
  { rewrite submitAll_set, fold_gateStep_fresh;
      [rewrite length_fmap; reflexivity | exact Hinv | exact Hnd|].
    intros x Hx. apply list_elem_of_fmap in Hx as (q & -> & Hq).
    split; [apply Hfresh, Hq | apply signatureOf_not_empty]. }
  split; [exact E|]. intros Hlen p Hp.
  rewrite shouldLog_verdict. apply negb_true_iff, setHas_not_elem.
  rewrite E. intros Hin.
  rewrite drop_app_ge in Hin by lia.
  apply (subseteq_drop _ _ _) in Hin.
  apply list_elem_of_fmap in Hin as (q & Eq & Hq).
  apply (Hfresh q Hq). rewrite <- Eq. exact Hp.
Qed.

End GateWindow.

Section EndToEnd.

Lemma passed_sublist_gated (j : list Action) : sublist (passed j) (gated j).
Proof.
  induction j as [|a r IH]; [constructor|].
  destruct a as [| | |p []|]; cbn; try exact IH.
  - apply sublist_skip, IH.
  - apply sublist_cons, IH.
Qed.

(** X8. In every reachable state the dedup set is the signatures of the last
50 messages sent, in sending order, and holds at most 50; any two of those
messages differ in url, problem text, user answer or result text. *)
Theorem recent_signatures_are_last_sent (st : State) :
  reachable st ->
  let sent := sends (journal st) in
  let recent := drop (length sent - 50) sent in
  recentSignatures st = signatureOf <$> recent
  /\ length (recentSignatures st) <= 50
  /\ forall (i k : nat) (p q : ProblemLogPayload),
      recent !! i = Some p -> recent !! k = Some q -> i <> k ->
      ~ (url p = url q /\ problemText p = problemText q
         /\ userAnswer p = userAnswer q /\ resultText p = resultText q).
Proof.
  intros Hreach. apply reachable_Coherent in Hreach.
  destruct Hreach as (_ & _ & _ & _ & Hr & (Hnd & _ & Hlen)).
  unfold MAX_RECENT_LOGS in *. cbv zeta. rewrite fmap_drop.
  split; [exact Hr|]. split; [exact Hlen|].
  intros i k p q Hi Hk Hne Heq. apply Hne.
  destruct Heq as (H1 & H2 & H3 & H4).
  pose proof (signatureOf_fields p q H1 H2 H3 H4) as Heq.
  rewrite Hr, <- fmap_drop in Hnd.
  apply (NoDup_lookup _ i k (signatureOf p) Hnd).
  - rewrite list_lookup_fmap, Hi. reflexivity.
  - rewrite list_lookup_fmap, Hk, Heq. reflexivity.
Qed.

(** X9. In every reachable state every payload built was submitted to the
gate, the messages sent are the payloads the gate let through, in order, and
a subsequence of the payloads built; every payload built or sent has no
correct answer, the result text "incorrect (J)", a page title, a problem text
that is absent or non-empty and at most 2000 code units long, and an answer
that is absent or non-empty without whitespace at either end; a pending
snapshot has such a problem text and answer. *)
Theorem journal_coherent_and_payloads_well_formed (st : State) :
  reachable st ->
  builds (journal st) = gated (journal st)
  /\ sends (journal st) = passed (journal st)
  /\ sublist (sends (journal st)) (builds (journal st))
  /\ Forall wellFormedPayload (builds (journal st))
  /\ Forall wellFormedPayload (sends (journal st))
  /\ (forall p, pendingSubmission st = Some p -> wellFormedPending p).
Proof.
  intros Hreach. apply reachable_Coherent in Hreach.
  destruct Hreach as (Hb & Hs & Hw & Hp & _).
  assert (Hsub : sublist (sends (journal st)) (builds (journal st))).
  { rewrite Hb, Hs. apply passed_sublist_gated. }
  split_and!; try assumption.
  rewrite Forall_forall in Hw |- *. intros p Hp'.
  apply Hw, (sublist_subseteq _ _ Hsub), Hp'.
Qed.

(** X10. Without a click on the submit button nothing happens: whatever
mutations, timer firings and passages of time occur from the initial state,
no submission is pending, no timer is ever armed, the dedup set stays empty
and no call is journalled; only the clock advances. *)
Theorem nothing_happens_without_click (events : list Event) (st : State) :
  forallb noClick events = true ->
  run events initial = Some st ->
  st = mkState None None None [] (clock st) ∅ 1%positive []
  /\ (0 <= clock st)%Z.
Proof.
  intros Hn Hrun.
  assert (H0 : initial = mkState None None None [] (clock initial) ∅ 1%positive []
               /\ (0 <= clock initial)%Z) by (split; [reflexivity | cbn; lia]).
  revert Hn Hrun H0. generalize initial.
  induction events as [|e r IH]; intros s0 Hn Hrun H0.
  - injection Hrun as <-. exact H0.
  - cbn [forallb] in Hn. apply andb_true_iff in Hn as [He Hn].
    simpl in Hrun. destruct (step e s0) as [s1|] eqn:E; [|discriminate].
    apply (IH s1 Hn Hrun). destruct H0 as [H0 Hc]. rewrite H0 in E.
    destruct e as [page| |h page|dt]; cbn in He, E.
    + discriminate.
    + injection E as <-. split; [reflexivity | exact Hc].
    + rewrite lookup_empty in E. discriminate.
    + destruct (0 <=? dt)%Z eqn:Ed; [|discriminate]. injection E as <-.
      apply Z.leb_le in Ed. split; [reflexivity | cbn; lia].
Qed.

End EndToEnd.

Section Scheduling.

Local Opaque getResultState buildPayload signatureOf setHas.

(** X11. In every reachable state a pending submission has its expiry timer
outstanding and due within 12000 ms from now; with nothing pending no expiry
timer is outstanding; and an outstanding scan timer is due within 250 ms. *)
Theorem pending_submission_expires_within_window (st : State) :
  reachable st ->
  (forall p, pendingSubmission st = Some p ->
             exists he due,
               pendingTimeout st = Some he
               /\ timers st !! he = Some (due, ExpiryCallback)
               /\ (due <= clock st + 12000)%Z)
  /\ (pendingSubmission st = None ->
      forall h due, timers st !! h <> Some (due, ExpiryCallback))
  /\ (forall h due, timers st !! h = Some (due, ScanCallback) ->
                    (due <= clock st + 250)%Z).
Proof.
  intros Hreach.
  pose proof (reachable_TimerInv st Hreach) as (I1 & I2 & I3 & I4 & I5 & I6).
  pose proof (reachable_DueInv st Hreach) as Hd.
  split_and!.
  - intros p Hp.
    assert (Hne : pendingTimeout st <> None)
      by (intros E; apply I6 in E; congruence).
    destruct (pendingTimeout st) as [he|] eqn:Et; [|contradiction].
    destruct (I5 he eq_refl) as [due Hdue]. exists he, due.
    split; [reflexivity|]. split; [exact Hdue|]. apply (Hd he due _ Hdue).
  - intros Hp h due H. apply I2 in H. apply I6 in Hp. congruence.
  - intros h due H. apply (Hd h due _ H).
Qed.

Lemma scheduleResultScan_arms (st : State) :
  pendingSubmission st <> None ->
  exists hs, scanTimeout (scheduleResultScan st) = Some hs.
Proof.
  intros Hp. unfold scheduleResultScan.
  destruct (pendingSubmission st); [|contradiction].
  destruct (scanTimeout st) eqn:Es; [rewrite Es; eauto|]. cbn. eauto.
Qed.

(** X12. A click in any reachable state takes the snapshot of the page and
leaves a scan timer outstanding that is due within 250 ms; the click itself
takes no time. *)
Theorem click_schedules_scan (page : Page) (st : State) :
  reachable st ->
  exists hs due,
    pendingSubmission (handleSubmitClick page st) = Some (snapshot page)
    /\ scanTimeout (handleSubmitClick page st) = Some hs
    /\ timers (handleSubmitClick page st) !! hs = Some (due, ScanCallback)
    /\ (due <= clock st + 250)%Z
    /\ clock (handleSubmitClick page st) = clock st.
Proof.
  intros Hreach.
  assert (Hreach' : reachable (handleSubmitClick page st)).
  { destruct Hreach as [events Hrun]. exists (events ++ [SubmitClick page]).
    clear -Hrun. revert Hrun. generalize initial.
    induction events as [|e r IH]; intros s0 Hrun; simpl in *.
    - injection Hrun as <-. reflexivity.
    - destruct (step e s0); [apply IH, Hrun | discriminate]. }
  pose proof (reachable_TimerInv _ Hreach') as (_ & _ & _ & I4 & _).
  pose proof (reachable_DueInv _ Hreach') as Hd.
  destruct (timersFrom_handleSubmitClick page st) as [Hc _].
  assert (Hp0 : pendingSubmission
                  (startPendingTimeout
                     (set_pendingSubmission (Some (snapshot page)) st))
                = Some (snapshot page)).
  { unfold startPendingTimeout. cbn. destruct (pendingTimeout st); reflexivity. }
  assert (Hp : pendingSubmission (handleSubmitClick page st) = Some (snapshot page)).
  { unfold handleSubmitClick.
    match goal with |- pendingSubmission (scheduleResultScan ?s) = _ =>
      destruct (scheduleResultScan_keeps s) as (Kp & _); rewrite Kp
    end. exact Hp0. }
  assert (Hs : exists hs, scanTimeout (handleSubmitClick page st) = Some hs).
  { unfold handleSubmitClick. apply scheduleResultScan_arms. rewrite Hp0.
    discriminate. }
  destruct Hs as [hs Hs]. destruct (I4 hs Hs) as [due Hdue].
  exists hs, due. split_and!; try assumption.
  rewrite <- Hc. apply (Hd hs due _ Hdue).
Qed.

End Scheduling.

Section Polling.

Local Opaque getResultState buildPayload signatureOf setHas.

(** X13. A scan that finds neither marker changes nothing but the scan slot:
the submission stays pending with its expiry timer, nothing is journalled, no
scan timer is left, and the next mutation arms a new scan 250 ms ahead. *)
Theorem unknown_scan_keeps_polling
        (st : State) (h : positive) (due : Z) (page : Page)
        (p : PendingSubmission) :
  reachable st ->
  timers st !! h = Some (due, ScanCallback) -> (due <= clock st)%Z ->
  pendingSubmission st = Some p ->
  getResultState page = None ->
  exists st1 st2,
    step (TimerFires h page) st = Some st1
    /\ pendingSubmission st1 = Some p
    /\ pendingTimeout st1 = pendingTimeout st
    /\ scanTimeout st1 = None
    /\ journal st1 = journal st
    /\ (forall h' d, timers st1 !! h' <> Some (d, ScanCallback))
    /\ step Mutation st1 = Some st2
    /\ pendingSubmission st2 = Some p
    /\ scanTimeout st2 = Some (nextHandle st)
    /\ timers st2 !! nextHandle st = Some ((clock st + 250)%Z, ScanCallback).
Proof.
  intros Hreach Hh Hdue Hp Hres.
  pose proof (reachable_TimerInv st Hreach) as (I1 & _).
  cbn. rewrite Hh. apply Z.leb_le in Hdue. rewrite Hdue. cbn.
  rewrite (checkForResult_unknown _ _ Hres).
  eexists. eexists. split; [reflexivity|]. cbn.
  assert (Hm : scheduleResultScan
                 (set_scanTimeout None
                    (mkState (pendingSubmission st) (scanTimeout st)
                       (pendingTimeout st) (recentSignatures st) (clock st)
                       (delete h (timers st)) (nextHandle st) (journal st)))
               = set_scanTimeout (Some (nextHandle st))
                   (snd (setTimeout ScanCallback RESULT_SCAN_DELAY_MS
                           (set_scanTimeout None
                              (mkState (pendingSubmission st) (scanTimeout st)
                                 (pendingTimeout st) (recentSignatures st)
                                 (clock st) (delete h (timers st))
                                 (nextHandle st) (journal st)))))).
  { unfold scheduleResultScan. cbn. rewrite Hp. reflexivity. }
  rewrite Hm. cbn.
  split_and!; try reflexivity; try assumption.
  - intros h' d H.
    destruct (decide (h = h')) as [->|Hne].
    + rewrite lookup_delete_eq in H. discriminate.
    + rewrite lookup_delete_ne in H by exact Hne.
      apply I1 in H. apply I1 in Hh. congruence.
  - apply lookup_insert_eq.
Qed.

End Polling.

Section QueueMore.

Import Background.

Ltac qlia := unfold MAX_QUEUE_SIZE in *; cbn [length] in *; lia.

Lemma written_kept_Permutation (q : list ProblemLogPayload) (oks : list bool) :
  length oks = length q -> written q oks ++ kept q oks ≡ₚ q.
Proof.
  revert oks. induction q as [|p q IH]; intros [|ok oks] H; try discriminate.
  - reflexivity.
  - simpl in H. injection H as H. specialize (IH oks H). simpl.
    destruct ok; simpl.
    + rewrite IH. reflexivity.
    + rewrite <- Permutation_middle, IH. reflexivity.
Qed.

Lemma written_sublist (q : list ProblemLogPayload) (oks : list bool) :
  sublist (written q oks) q.
Proof.
  revert oks. induction q as [|p q IH]; intros oks; simpl.
  - constructor.
  - destruct oks as [|[] oks].
    + apply sublist_nil_l.
    + apply sublist_skip, IH.
    + apply sublist_cons, IH.
Qed.

Lemma all_fail (q : list ProblemLogPayload) (oks : list bool) :
  length oks = length q -> Forall (fun ok => ok = false) oks ->
  kept q oks = q /\ written q oks = [].
Proof.
  revert oks. induction q as [|p q IH]; intros [|ok oks] H F; try discriminate.
  - auto.
  - inversion F; subst. simpl in H. injection H as H. simpl.
    destruct (IH oks H) as [-> ->]; auto.
Qed.

Lemma all_succeed (q : list ProblemLogPayload) (oks : list bool) :
  length oks = length q -> Forall (fun ok => ok = true) oks ->
  kept q oks = [] /\ written q oks = q.
Proof.
  revert oks. induction q as [|p q IH]; intros [|ok oks] H F; try discriminate.
  - auto.
  - inversion F; subst. simpl in H. injection H as H. simpl.
    destruct (IH oks H) as [-> ->]; auto.
Qed.

(** X14. An uninterleaved flush after a sign-in accounts for every queued
entry exactly once: the entries written remotely together with the entries
saved back are a permutation of the queue, the written ones in queue order;
if every write fails the queue is saved back unchanged and nothing is written,
and if every write succeeds the saved queue is empty and all entries are
written in order. *)
Theorem flush_accounts_for_every_entry
        (st : State) (u : User) (oks : list bool) (ok0 ok1 ok2 : bool) :
  flushInFlight st = false -> loadQueue st <> [] ->
  length oks = length (loadQueue st) ->
  let queue := loadQueue st in
  let i := length (tasks st) in
  exists st',
    run (AuthStateChanged (Some u) :: Resume i ok0 :: Resume i ok1
           :: (Resume i <$> oks) ++ [Resume i ok2]) st = Some st'
    /\ storedQueue st' = Some (kept queue oks)
    /\ remote st' = remote st ++ (pair (uid u) <$> written queue oks)
    /\ flushInFlight st' = false /\ tasks st' = tasks st
    /\ written queue oks ++ kept queue oks ≡ₚ queue
    /\ sublist (written queue oks) queue
    /\ (Forall (fun ok => ok = false) oks ->
        storedQueue st' = Some queue /\ remote st' = remote st)
    /\ (Forall (fun ok => ok = true) oks ->
        storedQueue st' = Some []
        /\ remote st' = remote st ++ (pair (uid u) <$> queue)).
Proof.
  intros Hfl Hne Hlen queue i.
  eexists. split; [apply flush_on_sign_in; [exact Hfl | reflexivity | exact Hne | exact Hlen]|].
  cbn [storedQueue remote flushInFlight tasks].
  split_and!; try reflexivity.
  - apply written_kept_Permutation, Hlen.
  - apply written_sublist.
  - intros F. destruct (all_fail _ _ Hlen F) as [-> ->]. cbn.
    rewrite app_nil_r. auto.
  - intros F. destruct (all_succeed _ _ Hlen F) as [-> ->]. auto.
Qed.

(** X15. A sign-in with nothing queued stores the auth status, finds the
queue empty and returns: the stored queue is not written, nothing is written
remotely and the flush lock is released. *)
Theorem flush_of_empty_queue_writes_nothing
        (st : State) (u : User) (ok0 ok1 : bool) :
  flushInFlight st = false -> loadQueue st = [] ->
  exists st',
    run [AuthStateChanged (Some u); Resume (length (tasks st)) ok0;
         Resume (length (tasks st)) ok1] st = Some st'
    /\ storedQueue st' = storedQueue st
    /\ remote st' = remote st
    /\ flushInFlight st' = false
    /\ tasks st' = tasks st
    /\ currentUser st' = Some u
    /\ storedAuth st' = Some (signed_in (uid u) (email u)).
Proof.
  intros Hfl Hq. eexists.
  split; [apply flush_nothing_queued; assumption|].
  cbn. split_and!; reflexivity.
Qed.

Lemma flushBodies_positive (ts : list Task) :
  0 < flushBodies ts <-> exists i t, ts !! i = Some t /\ isFlushBody t = true.
Proof.
  unfold flushBodies. split.
  - intros H. destruct (List.filter isFlushBody ts) as [|t r] eqn:E;
      [simpl in H; lia|].
    assert (Hin : In t (List.filter isFlushBody ts)) by (rewrite E; left; reflexivity).
    apply filter_In in Hin as [Hin Ht].
    apply list_elem_of_In, list_elem_of_lookup in Hin as [i Hi]. eauto.
  - intros (i & t & Hi & Ht).
    assert (Hin : In t (List.filter isFlushBody ts)).
    { apply filter_In. split; [|exact Ht].
      apply list_elem_of_In, list_elem_of_lookup. eauto. }
    destruct (List.filter isFlushBody ts); [contradiction | simpl; lia].
Qed.

(** X16. In every reachable state, under every interleaving, the flush lock
is held exactly when a task is executing the flush body, and at most one task
is. *)
Theorem flush_lock_held_exactly_while_flushing (st : State) :
  bgReachable st ->
  (flushInFlight st = true <->
   exists i t, tasks st !! i = Some t /\ isFlushBody t = true)
  /\ (forall i k t t',
        tasks st !! i = Some t -> tasks st !! k = Some t' ->
        isFlushBody t = true -> isFlushBody t' = true -> i = k).
Proof.
  intros Hreach. apply bgReachable_QueueInv in Hreach.
  destruct Hreach as (_ & _ & Hfl). split.
  - rewrite <- flushBodies_positive, Hfl.
    destruct (flushInFlight st); split; intros; try lia; try reflexivity;
      discriminate.
  - assert (Hle : flushBodies (tasks st) <= 1)
      by (rewrite Hfl; destruct (flushInFlight st); lia).
    clear Hfl. revert Hle. generalize (tasks st) as ts.
    unfold flushBodies.
    induction ts as [|a r IH]; intros Hle i k t t' Hi Hk Ht Ht'; [discriminate|].
    simpl in Hle. destruct i as [|i], k as [|k]; simpl in Hi, Hk.
    + reflexivity.
    + exfalso. injection Hi as ->. rewrite Ht in Hle. simpl in Hle.
      assert (Hpos : 0 < flushBodies r) by (apply flushBodies_positive; eauto).
      unfold flushBodies in Hpos. lia.
    + exfalso. injection Hk as ->. rewrite Ht' in Hle. simpl in Hle.
      assert (Hpos : 0 < flushBodies r) by (apply flushBodies_positive; eauto).
      unfold flushBodies in Hpos. lia.
    + f_equal. apply (IH ltac:(destruct (isFlushBody a); simpl in Hle; lia)
                         i k t t' Hi Hk Ht Ht').
Qed.

Lemma signedOut_step (e : Event) (st st' : State) :
  noSignIn e = true -> step e st = Some st' ->
  currentUser st = None /\ flushInFlight st = false /\ remote st = []
  /\ forallb signedOutTask (tasks st) = true ->
  currentUser st' = None /\ flushInFlight st' = false /\ remote st' = []
  /\ forallb signedOutTask (tasks st') = true.
Proof.
  intros Hn Hstep (Hu & Hf & Hr & Ht).
  rewrite forallb_forall in Ht.
  assert (Hin : forall ts, (forall t, In t ts -> signedOutTask t = true) ->
                           forallb signedOutTask ts = true)
    by (intros ts; apply forallb_forall).
  destruct e as [p|[u|]|i ok]; cbn in Hn, Hstep; try discriminate.
  - rewrite Hu in Hstep. injection Hstep as <-. cbn. split_and!; try assumption.
    apply Hin. intros t Ht'. apply in_app_or in Ht' as [Ht'|[<-|[]]]; auto.
  - injection Hstep as <-. cbn. split_and!; try assumption; try reflexivity.
    apply Hin. intros t Ht'. apply in_app_or in Ht' as [Ht'|[<-|[]]]; auto.
  - destruct (tasks st !! i) as [t|] eqn:Hi; [|discriminate].
    injection Hstep as <-.
    assert (Hok : signedOutTask t = true).
    { apply Ht, list_elem_of_In, list_elem_of_lookup. eauto. }
    assert (Hdel : forall x, In x (delete i (tasks st)) -> signedOutTask x = true).
    { intros x Hx. apply Ht. apply list_elem_of_In.
      apply (sublist_subseteq _ _ (sublist_delete _ i)), list_elem_of_In, Hx. }
    assert (Hins : forall x t', signedOutTask t' = true ->
                     In x (<[i := t']> (tasks st)) -> signedOutTask x = true).
    { intros x t' Ht' Hx. apply list_elem_of_In, list_elem_of_lookup in Hx as [k Hk].
      destruct (decide (i = k)) as [->|Hne].
      - rewrite list_lookup_insert_eq in Hk by (eapply lookup_lt_Some; eassumption).
        congruence.
      - rewrite list_lookup_insert_ne in Hk by exact Hne.
        apply Ht, list_elem_of_In, list_elem_of_lookup. eauto. }
    destruct t as [p|p q|p u|[u|]|u|u p rest remaining|remaining];
      try discriminate Hok; cbn.
    + split_and!; try assumption. apply Hin. intros x. apply Hins. reflexivity.
    + split_and!; try assumption. apply Hin, Hdel.
    + split_and!; try assumption. apply Hin, Hdel.
Qed.

(** X17. As long as no sign-in is observed nothing is written remotely,
whatever messages arrive and however the tasks interleave: no user is current,
no flush is started, and every suspended task is an enqueue or the storing of
the signed-out status. *)
Theorem nothing_uploaded_before_sign_in (events : list Event) (st : State) :
  forallb noSignIn events = true ->
  run events initial = Some st ->
  remote st = [] /\ currentUser st = None /\ flushInFlight st = false
  /\ forallb signedOutTask (tasks st) = true.
Proof.
  intros Hn Hrun.
  assert (H0 : currentUser initial = None /\ flushInFlight initial = false
               /\ remote initial = []
               /\ forallb signedOutTask (tasks initial) = true)
    by (cbn; auto).
  revert Hn Hrun H0. generalize initial.
  induction events as [|e r IH]; intros s0 Hn Hrun H0.
  - injection Hrun as <-. tauto.
  - cbn [forallb] in Hn. apply andb_true_iff in Hn as [He Hn].
    simpl in Hrun. destruct (step e s0) as [s1|] eqn:E; [|discriminate].
    apply (IH s1 Hn Hrun). apply (signedOut_step e s0 s1 He E H0).
Qed.

(** X18. For a signed-in user a payload whose remote write succeeds is added
once under the user's id, and the stored queue is left as it was. *)
Theorem direct_write_leaves_queue_alone
        (st : State) (u : User) (p : ProblemLogPayload) :
  currentUser st = Some u ->
  exists st',
    run [LogWrongProblem p; Resume (length (tasks st)) true] st = Some st'
    /\ remote st' = remote st ++ [(uid u, p)]
    /\ storedQueue st' = storedQueue st
    /\ tasks st' = tasks st
    /\ flushInFlight st' = flushInFlight st.
Proof.
  intros Hu. eexists. split; [apply direct_write_succeeds, Hu|].
  cbn. split_and!; reflexivity.
Qed.

Lemma pushBounded_suffix (q : list ProblemLogPayload) (p : ProblemLogPayload) :
  length q <= MAX_QUEUE_SIZE ->
  pushBounded q p = drop (length q + 1 - MAX_QUEUE_SIZE) (q ++ [p])
  /\ length (pushBounded q p) = Nat.min MAX_QUEUE_SIZE (length q + 1).
Proof.
  intros H. rewrite pushBounded_drop. split; [reflexivity|].
  rewrite length_drop, length_app. qlia.
Qed.

Lemma fold_pushBounded
        (q ps : list ProblemLogPayload) :
  length q <= 200 ->
  fold_left pushBounded ps q = drop (length q + length ps - 200) (q ++ ps)
  /\ length (fold_left pushBounded ps q) = Nat.min 200 (length q + length ps).
Proof.
  change 200 with MAX_QUEUE_SIZE.
  revert q. induction ps as [|p ps IH]; intros q H.
  - cbn [fold_left length]. rewrite app_nil_r.
    replace (length q + 0 - MAX_QUEUE_SIZE) with 0 by qlia.
    split; [reflexivity | qlia].
  - cbn [fold_left]. destruct (pushBounded_suffix q p H) as [E L].
    destruct (IH (pushBounded q p)) as [E' L']; [rewrite L; qlia|].
    rewrite L', E', L. split; [|qlia].
    rewrite E.
    assert (Hd : length q + 1 - MAX_QUEUE_SIZE <= length (q ++ [p]))
      by (rewrite length_app; qlia).
    rewrite <- (drop_app_le (q ++ [p]) ps _ Hd), drop_drop, <- app_assoc.
    cbn [app length]. f_equal. qlia.
Qed.

Lemma run_enqueues (ps : list ProblemLogPayload) (st : State) :
  currentUser st = None ->
  exists st',
    run (flat_map (fun p => [LogWrongProblem p;
                             Resume (length (tasks st)) true;
                             Resume (length (tasks st)) true]) ps) st = Some st'
    /\ loadQueue st' = fold_left pushBounded ps (loadQueue st)
    /\ (ps <> [] -> storedQueue st' = Some (loadQueue st'))
    /\ (ps = [] -> st' = st)
    /\ remote st' = remote st /\ tasks st' = tasks st
    /\ currentUser st' = None /\ flushInFlight st' = flushInFlight st
    /\ storedAuth st' = storedAuth st.
Proof.
  revert st. induction ps as [|p ps IH]; intros st Hu.
  - exists st. cbn. split_and!; try reflexivity; try assumption. congruence.
  - cbn [flat_map].
    rewrite (run_app [LogWrongProblem p; Resume (length (tasks st)) true;
                      Resume (length (tasks st)) true]).
    rewrite (enqueue_when_signed_out st p true true Hu).
    destruct (IH (set_storedQueue (pushBounded (loadQueue st) p) st) Hu)
      as (st' & Hrun & Hq & Hs & _ & Hr & Ht & Hu' & Hf & Ha).
    exists st'. cbn [tasks set_storedQueue] in Hrun.
    split; [exact Hrun|]. split; [exact Hq|].
    split.
    { intros _. destruct ps as [|p' ps].
      - cbn in Hrun. injection Hrun as <-. reflexivity.
      - apply Hs. discriminate. }
    split; [discriminate|].
    split_and!; assumption.
Qed.

(** X19. Enqueueing payloads one after the other while signed out, from a
queue within the bound, leaves the last 200 of the old entries followed by
the new payloads, in order; from 200 payloads on, only the last 200 payloads
remain.  Nothing is written remotely. *)
Theorem signed_out_enqueues_keep_latest
        (st : State) (ps : list ProblemLogPayload) :
  currentUser st = None -> length (loadQueue st) <= 200 ->
  exists st',
    run (flat_map (fun p => [LogWrongProblem p;
                             Resume (length (tasks st)) true;
                             Resume (length (tasks st)) true]) ps) st = Some st'
    /\ loadQueue st'
       = drop (length (loadQueue st) + length ps - 200) (loadQueue st ++ ps)
    /\ length (loadQueue st') = Nat.min 200 (length (loadQueue st) + length ps)
    /\ (ps <> [] -> storedQueue st' = Some (loadQueue st'))
    /\ (200 <= length ps -> loadQueue st' = drop (length ps - 200) ps)
    /\ remote st' = remote st /\ tasks st' = tasks st
    /\ currentUser st' = None.
Proof.
  intros Hu Hlen.
  destruct (run_enqueues ps st Hu)
    as (st' & Hrun & Hq & Hs & _ & Hr & Ht & Hu' & _).
  destruct (fold_pushBounded (loadQueue st) ps Hlen) as [E L].
  exists st'. split_and!; try assumption; try congruence.
  intros Hps. rewrite Hq, E.
  rewrite drop_app_ge by lia. f_equal. lia.
Qed.

End QueueMore.

Section MoreWitnesses.

Lemma reachable_afterWrong : reachable afterWrong.
Proof.
  exists [SubmitClick pageClicked; Mutation; Elapse 300; TimerFires 2 pageWrong].
  vm_compute. reflexivity.
Defined.

Lemma bgReachable_midFlush : bgReachable midFlush.
Proof.
  exists [Background.LogWrongProblem (examplePayload "5");
          Background.Resume 0 true; Background.Resume 0 true;
          Background.LogWrongProblem (examplePayload "6");
          Background.Resume 0 true; Background.Resume 0 true;
          Background.AuthStateChanged (Some exampleUser);
          Background.Resume 0 true].
  vm_compute. reflexivity.
Defined.

Lemma getUserAnswer_first_nonblank_trimmed_witness :
  getUserAnswer (Some (document pageClicked)) = Some (lit "5")
  /\ trim (lit "5") = lit "5".
Proof.
  assert (H : getUserAnswer (Some (document pageClicked)) = Some (lit "5"))
    by (vm_compute; reflexivity).
  split; [exact H|].
  destruct (proj1 (getUserAnswer_first_nonblank_trimmed
                     (Some (document pageClicked))) (lit "5") H)
    as (_ & _ & Ht & _).
  exact Ht.
Defined.

Lemma getProblemDocument_holds_problem_text_witness :
  getProblemDocument pageClicked = Some (document pageClicked).
Proof.
  apply (proj1 (getProblemDocument_holds_problem_text pageClicked)).
  unfold hasProblemText. vm_compute. discriminate.
Defined.

Lemma getAllCandidateDocuments_distinct_witness :
  (length (getAllCandidateDocuments pageClicked) <= 3)%nat.
Proof.
  exact (proj2 (proj2 (getAllCandidateDocuments_distinct pageClicked))).
Defined.

Lemma normalizeText_shape_witness :
  inkOf (normalizeText (lit "  What   is 2+2? ")) = inkOf (lit "  What   is 2+2? ").
Proof.
  destruct (normalizeText_shape (lit "  What   is 2+2? ")) as (_ & _ & _ & H & _).
  exact H.
Defined.

Lemma normalizeText_idempotent_witness :
  normalizeText (normalizeText (lit "  What   is 2+2? "))
  = normalizeText (lit "  What   is 2+2? ").
Proof.
  exact (proj1 (normalizeText_idempotent (lit "  What   is 2+2? "))).
Defined.

Lemma signatureOf_injective_witness :
  signatureOf (examplePayload "5") <> signatureOf (examplePayload "6").
Proof.
  intros H.
  apply (proj1 (signatureOf_injective (examplePayload "5") (examplePayload "6")))
    in H.
  destruct H as (_ & _ & H & _). vm_compute in H. discriminate H.
Defined.

Lemma dedup_forgets_after_capacity_witness :
  recentSignatures (submitAll [examplePayload "6"; examplePayload "7"] initial)
  = [signatureOf (examplePayload "6"); signatureOf (examplePayload "7")].
Proof.
  destruct (dedup_forgets_after_capacity
              initial [examplePayload "6"; examplePayload "7"]) as [H _].
  - repeat split; [constructor | constructor | vm_compute; lia].
  - refine (bool_decide_unpack _ _). vm_compute. exact I.
  - intros q _. exact (not_elem_of_nil _).
  - exact H.
Defined.

Lemma recent_signatures_are_last_sent_witness :
  recentSignatures afterWrong = signatureOf <$> sends (journal afterWrong)
  /\ sends (journal afterWrong) = [buildPayload pageWrong (snapshot pageClicked)].
Proof.
  split; [|vm_compute; reflexivity].
  pose proof (recent_signatures_are_last_sent afterWrong reachable_afterWrong) as H.
  cbv zeta in H. destruct H as (H & _). exact H.
Defined.

Lemma journal_coherent_and_payloads_well_formed_witness :
  Forall wellFormedPayload [buildPayload pageWrong (snapshot pageClicked)].
Proof.
  destruct (journal_coherent_and_payloads_well_formed
              afterWrong reachable_afterWrong) as (_ & _ & _ & _ & H & _).
  exact H.
Defined.

Lemma nothing_happens_without_click_witness :
  (0 <= clock (mkState None None None [] 5 ∅ 1 []))%Z.
Proof.
  apply (nothing_happens_without_click [Mutation; Elapse 5]);
    vm_compute; reflexivity.
Defined.

Lemma pending_submission_expires_within_window_witness :
  exists he due,
    pendingTimeout afterClick = Some he
    /\ timers afterClick !! he = Some (due, ExpiryCallback)
    /\ (due <= clock afterClick + 12000)%Z.
Proof.
  apply (proj1 (pending_submission_expires_within_window
                  afterClick reachable_afterClick) (snapshot pageClicked)).
  vm_compute. reflexivity.
Defined.

Lemma click_schedules_scan_witness :
  exists hs due,
    pendingSubmission (handleSubmitClick pageClicked initial)
    = Some (snapshot pageClicked)
    /\ scanTimeout (handleSubmitClick pageClicked initial) = Some hs
    /\ timers (handleSubmitClick pageClicked initial) !! hs
       = Some (due, ScanCallback)
    /\ (due <= clock initial + 250)%Z
    /\ clock (handleSubmitClick pageClicked initial) = clock initial.
Proof.
  exact (click_schedules_scan pageClicked initial reachable_initial).
Defined.

Lemma unknown_scan_keeps_polling_witness :
  exists st1 st2,
    step (TimerFires 2 pageClicked) afterClick = Some st1
    /\ step Mutation st1 = Some st2
    /\ scanTimeout st2 = Some (nextHandle afterClick)
    /\ pendingSubmission st2 = Some (snapshot pageClicked).
Proof.
  destruct (unknown_scan_keeps_polling
              afterClick 2%positive 250%Z pageClicked (snapshot pageClicked))
    as (st1 & st2 & H1 & _ & _ & _ & _ & _ & H2 & Hp & Hs & _).
  - exact reachable_afterClick.
  - vm_compute. reflexivity.
  - vm_compute. discriminate.
  - vm_compute. reflexivity.
  - vm_compute. reflexivity.
  - exists st1, st2. split; [exact H1|]. split; [exact H2|].
    split; [exact Hs | exact Hp].
Defined.

Lemma flush_accounts_for_every_entry_witness :
  exists st',
    Background.run
      [Background.AuthStateChanged (Some exampleUser);
       Background.Resume 0 true; Background.Resume 0 true;
       Background.Resume 0 true; Background.Resume 0 false;
       Background.Resume 0 true] twoQueued = Some st'
    /\ Background.storedQueue st' = Some [examplePayload "6"]
    /\ Background.remote st' = [(lit "u1", examplePayload "5")].
Proof.
  destruct (flush_accounts_for_every_entry
              twoQueued exampleUser [true; false] true true true)
    as (st' & Hrun & Hq & Hr & _).
  - reflexivity.
  - vm_compute. discriminate.
  - reflexivity.
  - exists st'. split; [exact Hrun|]. split; [exact Hq | exact Hr].
Defined.

Lemma flush_of_empty_queue_writes_nothing_witness :
  exists st',
    Background.run
      [Background.AuthStateChanged (Some exampleUser);
       Background.Resume 0 true; Background.Resume 0 true]
      Background.initial = Some st'
    /\ Background.storedQueue st' = None
    /\ Background.remote st' = []
    /\ Background.flushInFlight st' = false.
Proof.
  destruct (flush_of_empty_queue_writes_nothing
              Background.initial exampleUser true true)
    as (st' & Hrun & Hq & Hr & Hf & _).
  - reflexivity.
  - reflexivity.
  - exists st'. split; [exact Hrun|]. split; [exact Hq|].
    split; [exact Hr | exact Hf].
Defined.

Lemma flush_lock_held_exactly_while_flushing_witness :
  exists i t,
    Background.tasks midFlush !! i = Some t /\ Background.isFlushBody t = true.
Proof.
  apply (proj1 (proj1 (flush_lock_held_exactly_while_flushing
                         midFlush bgReachable_midFlush))).
  vm_compute. reflexivity.
Defined.

Lemma nothing_uploaded_before_sign_in_witness :
  Background.remote
    (Background.set_storedQueue [examplePayload "5"] Background.initial) = [].
Proof.
  apply (proj1 (nothing_uploaded_before_sign_in
                  [Background.LogWrongProblem (examplePayload "5");
                   Background.Resume 0 true; Background.Resume 0 true]
                  (Background.set_storedQueue [examplePayload "5"]
                     Background.initial)
                  eq_refl eq_refl)).
Defined.

Lemma direct_write_leaves_queue_alone_witness :
  exists st',
    Background.run
      [Background.LogWrongProblem (examplePayload "5");
       Background.Resume 0 true] signedIn = Some st'
    /\ Background.remote st' = [(lit "u1", examplePayload "5")]
    /\ Background.storedQueue st' = None.
Proof.
  destruct (direct_write_leaves_queue_alone
              signedIn exampleUser (examplePayload "5"))
    as (st' & Hrun & Hr & Hq & _).
  - reflexivity.
  - exists st'. split; [exact Hrun|]. split; [exact Hr | exact Hq].
Defined.

Lemma signed_out_enqueues_keep_latest_witness :
  exists st',
    Background.run
      [Background.LogWrongProblem (examplePayload "5");
       Background.Resume 0 true; Background.Resume 0 true;
       Background.LogWrongProblem (examplePayload "6");
       Background.Resume 0 true; Background.Resume 0 true]
      Background.initial = Some st'
    /\ Background.loadQueue st' = [examplePayload "5"; examplePayload "6"].
Proof.
  destruct (signed_out_enqueues_keep_latest
              Background.initial [examplePayload "5"; examplePayload "6"])
    as (st' & Hrun & Hq & _).
  - reflexivity.
  - vm_compute. lia.
  - exists st'. split; [exact Hrun | exact Hq].
Defined.

End MoreWitnesses.

Section Budget.

Local Opaque getResultState buildPayload signatureOf setHas.

Lemma step_budget (e : Event) (st st' : State) :
  step e st = Some st' ->
  length (builds (journal st')) + pendingCount st'
  <= length (builds (journal st)) + pendingCount st + clicks [e].
Proof.
  intros Hstep. unfold pendingCount, clicks.
  destruct e as [page| |h page|dt]; cbn in Hstep.
  - injection Hstep as <-.
    destruct (journal_handleSubmitClick page st) as (d & E & F).
    destruct (timerCalls_silent d F) as (Hb & _).
    rewrite E, builds_app, Hb, app_nil_r. cbn [List.filter noClick negb length].
    destruct (pendingSubmission (handleSubmitClick page st)),
      (pendingSubmission st); lia.
  - injection Hstep as <-.
    destruct (scheduleResultScan_keeps st) as (Kp & _ & _ & _ & Kb & _).
    rewrite Kp, Kb. cbn. unfold builds. lia.
  - destruct (timers st !! h) as [[due cb]|]; [|discriminate].
    destruct (due <=? clock st)%Z; [|discriminate]. injection Hstep as <-.
    cbn [List.filter noClick negb length].
    destruct cb; cbn [runCallback].
    + unfold checkForResult. cbn [pendingSubmission set_scanTimeout].
      destruct (pendingSubmission st) as [pending|] eqn:Ep;
        [|cbn [pendingSubmission journal]; rewrite ?Ep; cbn; unfold builds; lia].
      destruct (getResultState page) as [[]|] eqn:Er;
        [| |cbn [pendingSubmission journal]; rewrite ?Ep; cbn; unfold builds; lia].
      * match goal with |- context [clearPending ?s] =>
          destruct (journal_clearPending s) as (d & E & F);
          destruct (clearPending_spec s) as (Cp & _)
        end.
        destruct (timerCalls_silent d F) as (Hb & _).
        rewrite E, Cp, builds_app, Hb, app_nil_r. cbn. unfold builds. lia.
      * match goal with |- context [clearPending ?s] =>
          destruct (journal_clearPending s) as (d & E & F);
          destruct (clearPending_spec s) as (Cp & _)
        end.
        destruct (timerCalls_silent d F) as (Hb & _).
        cbn [journal set_scanTimeout] in E.
        unfold shouldLog. cbn [recentSignatures record].
        match goal with |- context [if setHas ?s ?x then _ else _] =>
          destruct (setHas s x)
        end;
          cbn [sendLog record journal set_recentSignatures pendingSubmission];
          rewrite E, Cp, ?builds_app, Hb; cbn; rewrite ?length_app; cbn; unfold builds; lia.
    + match goal with |- context [clearPending ?s] =>
        destruct (journal_clearPending s) as (d & E & F);
        destruct (clearPending_spec s) as (Cp & _)
      end.
      destruct (timerCalls_silent d F) as (Hb & _).
      rewrite E, Cp, builds_app, Hb, app_nil_r. cbn. unfold builds.
      destruct (pendingSubmission st); lia.
  - destruct (0 <=? dt)%Z; [|discriminate]. injection Hstep as <-.
    cbn. unfold builds. lia.
Qed.

Lemma run_budget (events : list Event) (st st' : State) :
  run events st = Some st' ->
  length (builds (journal st')) + pendingCount st'
  <= length (builds (journal st)) + pendingCount st + clicks events.
Proof.
  revert st. induction events as [|e r IH]; intros st Hrun.
  - injection Hrun as <-. cbn. lia.
  - simpl in Hrun. destruct (step e st) as [s1|] eqn:E; [|discriminate].
    pose proof (step_budget e st s1 E) as H1.
    pose proof (IH s1 Hrun) as H2.
    unfold clicks in *. cbn [List.filter] in *.
    destruct (negb (noClick e)); cbn [length] in *; lia.
Qed.

(** X20. Every payload built uses up one click: after any run from the
initial state the payloads built, plus one if a submission is pending, are at
most the clicks on the submit button, and the messages sent are at most the
payloads built; so while a submission is pending fewer messages were sent
than there were clicks. *)
Theorem at_most_one_payload_per_click (events : list Event) (st : State) :
  run events initial = Some st ->
  length (sends (journal st)) <= length (builds (journal st))
  /\ length (builds (journal st)) + pendingCount st <= clicks events
  /\ (pendingSubmission st <> None ->
      length (sends (journal st)) < clicks events).
Proof.
  intros Hrun.
  assert (Hreach : reachable st) by (exists events; exact Hrun).
  pose proof (run_budget events initial st Hrun) as Hb.
  change (length (builds (journal initial)) + pendingCount initial) with 0 in Hb.
  apply reachable_Coherent in Hreach.
  destruct Hreach as (Hbg & Hsp & _).
  assert (Hle : length (sends (journal st)) <= length (builds (journal st))).
  { rewrite Hsp, Hbg. apply sublist_length, passed_sublist_gated. }
  split; [exact Hle|]. split; [exact Hb|].
  intros Hp. unfold pendingCount in Hb.
  destruct (pendingSubmission st); [lia | congruence].
Qed.

Lemma at_most_one_payload_per_click_witness :
  (length (builds (journal afterWrong)) + pendingCount afterWrong <= 1)%nat.
Proof.
  apply (proj1 (proj2 (at_most_one_payload_per_click
                  [SubmitClick pageClicked; Mutation; Elapse 300;
                   TimerFires 2 pageWrong] afterWrong eq_refl))).
Defined.

End Budget.

Section Origin.

Import Background.

Variable P : ProblemLogPayload -> Prop.
Variable U : User -> Prop.

Local Arguments pushBounded : simpl never.
Local Arguments loadQueue : simpl never.

Lemma pushBounded_Forall (q : list ProblemLogPayload) (p : ProblemLogPayload) :
  Forall P q -> P p -> Forall P (pushBounded q p).
Proof.
  intros Hq Hp. rewrite pushBounded_drop. apply Forall_drop, Forall_app.
  split; [exact Hq | constructor; [exact Hp | constructor]].
Qed.

Lemma taskFrom_flushNext (u : User) (rest remaining : list ProblemLogPayload) :
  U u -> Forall P rest -> Forall P remaining ->
  taskFrom P U (flushNext u rest remaining).
Proof.
  intros Hu Hr Hm. destruct rest as [|p rest]; cbn; [exact Hm|].
  inversion Hr; subst. auto.
Qed.

Lemma Provenance_resume (i : nat) (t : Task) (ok : bool) (st : State) :
  tasks st !! i = Some t -> Provenance P U st ->
  Provenance P U (resume i t ok st).
Proof.
  intros Hi (Hq & Hts & Hr & Hu).
  pose proof (Forall_lookup_1 _ _ _ _ Hts Hi) as Ht.
  destruct t as [p|p q|p u|[u|]|u|u p rest remaining|remaining];
    cbn [resume taskFrom] in *.
  - split_and!; cbn; try assumption.
    apply Forall_insert; [exact Hts|]. split; [exact Ht|].
    apply pushBounded_Forall; assumption.
  - destruct Ht as [Hp Hq']. split_and!; cbn; try assumption.
    apply Forall_delete, Hts.
  - destruct Ht as [Hp Hu']. destruct ok; split_and!; cbn; try assumption.
    + apply Forall_delete, Hts.
    + apply Forall_app. split; [exact Hr|].
      constructor; [|constructor]. split; [exists u; auto | exact Hp].
    + apply Forall_insert; [exact Hts | exact Hp].
  - cbn. destruct (flushInFlight st); split_and!; cbn; try assumption.
    + apply Forall_delete, Hts.
    + apply Forall_insert; [exact Hts | exact Ht].
  - split_and!; cbn; try assumption. apply Forall_delete, Hts.
  - destruct (Nat.eqb (length (loadQueue st)) 0); split_and!; cbn;
      try assumption.
    + apply Forall_delete, Hts.
    + apply Forall_insert; [exact Hts|].
      apply taskFrom_flushNext; [exact Ht | exact Hq | constructor].
  - destruct Ht as (Hu' & Hp & Hrest & Hrem).
    destruct ok; split_and!; cbn; try assumption.
    + apply Forall_insert; [exact Hts|]. apply taskFrom_flushNext; assumption.
    + apply Forall_app. split; [exact Hr|].
      constructor; [|constructor]. split; [exists u; auto | exact Hp].
    + apply Forall_insert; [exact Hts|]. apply taskFrom_flushNext; try assumption.
      apply Forall_app. split; [exact Hrem | constructor; [exact Hp | constructor]].
  - split_and!; cbn; try assumption. apply Forall_delete, Hts.
Qed.

Lemma Provenance_step (e : Event) (st st' : State) :
  eventFrom P U e -> step e st = Some st' ->
  Provenance P U st -> Provenance P U st'.
Proof.
  intros He Hstep Hinv. destruct e as [p|user|i ok]; cbn in Hstep, He.
  - destruct Hinv as (Hq & Hts & Hr & Hu).
    destruct (currentUser st) as [u|] eqn:Eu; injection Hstep as <-;
      split_and!; cbn; try assumption; try (rewrite Eu; exact Hu).
    + apply Forall_app. split; [exact Hts|].
      constructor; [|constructor]. split; [exact He | apply Hu; reflexivity].
    + apply Forall_app. split; [exact Hts|].
      constructor; [exact He | constructor].
  - destruct Hinv as (Hq & Hts & Hr & Hu). injection Hstep as <-.
    split_and!; cbn; try assumption.
    + apply Forall_app. split; [exact Hts|].
      constructor; [|constructor]. destruct user; [exact He | exact I].
    + intros u [= ->]. exact He.
  - destruct (tasks st !! i) as [t|] eqn:Hi; [|discriminate].
    injection Hstep as <-. apply Provenance_resume; assumption.
Qed.

Lemma Provenance_run (events : list Event) (st st' : State) :
  Forall (eventFrom P U) events -> run events st = Some st' ->
  Provenance P U st -> Provenance P U st'.
Proof.
  revert st. induction events as [|e r IH]; intros st Hev Hrun Hinv.
  - injection Hrun as <-. exact Hinv.
  - inversion Hev; subst. simpl in Hrun.
    destruct (step e st) as [s1|] eqn:E; [|discriminate].
    apply (IH s1); try assumption.
    apply (Provenance_step e st s1); assumption.
Qed.

End Origin.

Section OriginOfDocuments.

Import Background.

Lemma events_from_themselves (events : list Event) :
  Forall (eventFrom (fun p => p ∈ received events)
                    (fun u => u ∈ signedInUsers events)) events.
Proof.
  apply Forall_forall. intros e He.
  destruct e as [p|[u|]|i ok]; cbn; try exact I.
  - apply list_elem_of_omap. exists (LogWrongProblem p). auto.
  - apply list_elem_of_omap. exists (AuthStateChanged (Some u)). auto.
Qed.

(** X21. The service worker invents nothing, under every interleaving: every
document written remotely holds a payload received in a message and lies under
the uid of a user seen signing in, every stored queue entry is a payload
received in a message, and the current user is one seen signing in. *)
Theorem documents_and_queue_hold_only_received_payloads
        (events : list Event) (st : State) :
  run events initial = Some st ->
  (forall id p, (id, p) ∈ remote st ->
                p ∈ received events
                /\ exists u, u ∈ signedInUsers events /\ id = uid u)
  /\ (forall p, p ∈ loadQueue st -> p ∈ received events)
  /\ (forall u, currentUser st = Some u -> u ∈ signedInUsers events).
Proof.
  intros Hrun.
  assert (H0 : Provenance (fun p => p ∈ received events)
                          (fun u => u ∈ signedInUsers events) initial).
  { split_and!; try constructor. intros u. discriminate. }
  pose proof (Provenance_run _ _ events initial st
                (events_from_themselves events) Hrun H0)
    as (Hq & _ & Hr & Hu).
  split_and!.
  - intros id p Hin. rewrite Forall_forall in Hr.
    destruct (Hr _ Hin) as [(u & Hu' & Hid) Hp]. cbn in Hid, Hp.
    split; [exact Hp | exists u; auto].
  - intros p Hin. rewrite Forall_forall in Hq. apply Hq, Hin.
  - exact Hu.
Qed.

Lemma documents_and_queue_hold_only_received_payloads_witness :
  examplePayload "5"
  ∈ received [LogWrongProblem (examplePayload "5"); Resume 0 true; Resume 0 true].
Proof.
  apply (proj1 (proj2 (documents_and_queue_hold_only_received_payloads
                  [LogWrongProblem (examplePayload "5");
                   Resume 0 true; Resume 0 true]
                  (set_storedQueue [examplePayload "5"] initial) eq_refl))).
  apply list_elem_of_here.
Defined.

End OriginOfDocuments.
